(** * ghl-conversation-export: the export pipeline, embedded and verified

    A shallow embedding of the asynchronous export pipeline of
    [src/services/conversations.js], [src/services/pdf.js] and
    [src/index.js]: cursor pagination, history aggregation, the date
    filter, the PDFKit renderer and the in-memory job registry.

    Conventions.
    - JSON data is kept dynamically typed ([JsVal]); a JSON object is a
      finite map from property names to values.
    - [await] is sequencing: the code is single threaded and every call
      is awaited before the next statement runs, so an [async] function is
      a function in the monad [M] below.
    - [delay(DELAY_MS)] and [console.log] have no effect on any value the
      program computes and are left out. *)

From stdpp Require Import gmap strings list fin_maps sorting pretty.
From Stdlib Require Import Ascii ZArith QArith Lia Lqa.

#[local] Set Warnings "-register-all".
#[local] Open Scope Z_scope.

(** ** JavaScript values *)

(** JSON numbers are restricted to integers: no identifier, status code or
    epoch timestamp handled by this program is fractional. *)
Inductive JsVal : Type :=
| JUndefined
| JNull
| JBool (b : bool)
| JNum (n : Z)
| JStr (s : string)
| JArr (items : list JsVal)
| JObj (fields : gmap string JsVal).

(** ToBoolean. *)
Definition truthy (v : JsVal) : bool :=
  match v with
  | JUndefined | JNull => false
  | JBool b => b
  | JNum n => negb (n =? 0)
  | JStr s => negb (String.eqb s EmptyString)
  | JArr _ | JObj _ => true
  end.

(** [a || b]. *)
Definition js_or (a b : JsVal) : JsVal := if truthy a then a else b.

(** [a === b]. Objects and arrays compare by identity in JavaScript; every
    comparison in this program is against a literal or between values
    taken from two different responses, so two compound operands are
    never the same object. *)
Definition strict_eq (a b : JsVal) : bool :=
  match a, b with
  | JUndefined, JUndefined => true
  | JNull, JNull => true
  | JBool x, JBool y => Bool.eqb x y
  | JNum x, JNum y => (x =? y)
  | JStr x, JStr y => String.eqb x y
  | _, _ => false
  end.

Definition nullish (v : JsVal) : bool :=
  match v with JUndefined | JNull => true | _ => false end.

Definition isArray (v : JsVal) : bool :=
  match v with JArr _ => true | _ => false end.

(** Property read [v.k] on a value that is not null or undefined, and
    [v?.k] on any value: own properties of JSON objects, [undefined]
    otherwise (none of the names read by the program is a built-in
    property of strings, numbers or arrays). *)
Definition get (v : JsVal) (k : string) : JsVal :=
  match v with
  | JObj f => default JUndefined (f !! k)
  | _ => JUndefined
  end.

(** [v.k = x]; only ever reached with [v] an object. *)
Definition setProp (v : JsVal) (k : string) (x : JsVal) : JsVal :=
  match v with
  | JObj f => JObj (<[k := x]> f)
  | _ => v
  end.

(** ** Exceptions *)

(** A thrown value: [err.response?.status] (absent for network failures
    and for TypeErrors) and [err.message]. *)
Record JsError : Type := mkError {
  err_status : option Z;
  err_message : string;
}.

Definition TypeError (msg : string) : JsError :=
  {| err_status := None; err_message := msg |}.

(** Synchronous code that may throw. *)
Inductive Result (A : Type) : Type :=
| Ok (a : A)
| Err (e : JsError).
Arguments Ok {A} a.
Arguments Err {A} e.

#[export] Instance Result_ret : MRet Result := fun A a => Ok a.

#[export] Instance Result_bind : MBind Result := fun A B f r =>
  match r with
  | Ok a => f a
  | Err e => Err e
  end.

(** [v.k]: a TypeError when [v] is null or undefined. *)
Definition prop (v : JsVal) (k : string) : Result JsVal :=
  if nullish v then Err (TypeError "Cannot read properties of null or undefined")
  else Ok (get v k).

Definition chars (s : string) : list JsVal :=
  (fun c => JStr (String c EmptyString)) <$> String.list_ascii_of_string s.

(** Spread [...v] into [push]: arrays and strings are iterable. *)
Definition spread (v : JsVal) : Result (list JsVal) :=
  match v with
  | JArr items => Ok items
  | JStr s => Ok (chars s)
  | _ => Err (TypeError "value is not iterable")
  end.

(** [batch[batch.length - 1]]. *)
Definition lastItem (batch : list JsVal) : JsVal := default JUndefined (last batch).

(** ** The authenticated-call capability and the run-time monad *)

(** The three requests the pipeline sends through [ghl.apiCall]. The
    cursor is the [lastMessageId] query parameter, set only when truthy. *)
Inductive Request : Type :=
| ReqConversations (locationId contactId : JsVal) (cursor : option JsVal)
| ReqMessages (locationId conversationId : JsVal) (cursor : option JsVal)
| ReqRecording (locationId messageId : JsVal).

(** The outcome of [ghl.apiCall]: the response body [data], or the error
    it throws. The first argument counts the calls made so far, so an
    upstream may answer the same request differently over time. *)
Definition Upstream : Type := nat -> Request -> Result JsVal.

(** Progress objects handed to [onProgress]. *)
Inductive Progress : Type :=
| PStarting
| PConversations (count : nat)
| PMessages (conversationId : JsVal) (count : nat)
| PFetchingMessages (totalConversations completedConversations : nat)
    (totalMessages : option nat)
| PTranscriptions (total completed : nat)
| PGeneratingPdf (totalMessages : nat)
| PComplete (totalMessages : nat).

Record World : Type := mkWorld {
  calls : nat;          (* requests sent so far *)
  progress : Progress;  (* last value passed to onProgress: job.progress *)
}.

Inductive Outcome (A : Type) : Type :=
| Ret (a : A)
| Throw (e : JsError)
| OutOfFuel.
Arguments Ret {A} a.
Arguments Throw {A} e.
Arguments OutOfFuel {A}.

Definition M (A : Type) : Type := World -> Outcome A * World.

#[export] Instance M_ret : MRet M := fun A a w => (Ret a, w).

#[export] Instance M_bind : MBind M := fun A B f m w =>
  match m w with
  | (Ret a, w') => f a w'
  | (Throw e, w') => (Throw e, w')
  | (OutOfFuel, w') => (OutOfFuel, w')
  end.

Definition throw {A} (e : JsError) : M A := fun w => (Throw e, w).
Definition outOfFuel {A} : M A := fun w => (OutOfFuel, w).

Definition liftR {A} (r : Result A) : M A :=
  match r with Ok a => mret a | Err e => throw e end.

(** [try { body } catch (err) { handler(err) }]. *)
Definition tryCatch {A} (body : M A) (handler : JsError -> M A) : M A := fun w =>
  match body w with
  | (Throw e, w') => handler e w'
  | r => r
  end.

(** [if (onProgress) onProgress(p)], with the callback of [runExport]:
    [job.progress = p]. *)
Definition emit (onProgress : bool) (p : Progress) : M unit := fun w =>
  (Ret tt, if onProgress then {| calls := calls w; progress := p |} else w).

(** ** The host: JavaScript runtime and libraries

    What the program takes from Node.js, PDFKit and html-to-text and
    does not define itself. *)
Record Host : Type := mkHost {
  (* Date.parse for strings (values that are not primitive are first
     converted to strings): the time value in ms since the epoch, or
     None for an invalid date (NaN) *)
  Date_parse : JsVal -> option Z;
  (* offset of the host's local time from UTC, in ms *)
  LocalTZA : Z;
  (* toLocaleDateString / toLocaleTimeString("en-US", ...) of a time value *)
  formatDateShort : option Z -> string;
  formatDateLong : option Z -> string;
  formatClock : option Z -> string;
  (* Date.now() when the document is rendered *)
  renderTime : Z;
  (* Number.prototype.toLocaleString and template-literal ToString *)
  Number_toLocaleString : nat -> string;
  ToString : JsVal -> string;
  ToNumber : JsVal -> option Z;
  JSON_stringify : JsVal -> string;
  (* html-to-text convert(html, options) *)
  convert : string -> string;
  (* PDFKit font metrics: currentLineHeight(true) of a font at a size, and
     the lines LineWrapper cuts a text into at a width *)
  lineHeight : string -> Q -> Q;
  wrapLines : string -> Q -> Q -> string -> list string;
  (* error of the write stream of a file path, if it fails *)
  writeError : string -> option JsError;
}.

Section Pipeline.

Variable host : Host.
Variable upstream : Upstream.

(** [await ghl.apiCall(locationId, "GET", url)], destructured to [data]. *)
Definition apiCall (req : Request) : M JsVal := fun w =>
  let w' := {| calls := S (calls w); progress := progress w |} in
  match upstream (calls w) req with
  | Ok data => (Ret data, w')
  | Err e => (Throw e, w')
  end.

(** [if (lastMessageId) params.set("lastMessageId", lastMessageId)]. *)
Definition cursorParam (lastMessageId : JsVal) : option JsVal :=
  if truthy lastMessageId then Some lastMessageId else None.

(** *** [fetchAllConversations]: the body of [while (true)], one page per
    unit of fuel. *)
Fixpoint fetchAllConversations_loop (fuel : nat) (locationId contactId : JsVal)
    (onProgress : bool) (conversations : list JsVal) (lastMessageId : JsVal)
    : M (list JsVal) :=
  match fuel with
  | O => outOfFuel
  | S fuel' =>
    data ← apiCall (ReqConversations locationId contactId (cursorParam lastMessageId));
    dc ← liftR (prop data "conversations");
    let batch := match dc with JArr items => items | _ => [] end in
    let conversations := conversations ++ batch in
    _ ← emit onProgress (PConversations (length conversations));
    if (length batch =? 0)%nat then mret conversations
    else
      let lastOne := lastItem batch in
      let nextId :=
        js_or (js_or (get data "lastMessageId") (get lastOne "lastMessageId"))
              (get lastOne "id") in
      if negb (truthy nextId) || strict_eq nextId lastMessageId
      then mret conversations
      else fetchAllConversations_loop fuel' locationId contactId onProgress
             conversations nextId
  end.

Definition fetchAllConversations (fuel : nat) (locationId contactId : JsVal)
    (onProgress : bool) : M (list JsVal) :=
  fetchAllConversations_loop fuel locationId contactId onProgress [] JUndefined.

(** The batch of a messages page: [data.messages] when it is an array,
    [data.messages.messages] when that is truthy, else empty. *)
Definition messagesBatch (dm : JsVal) : JsVal :=
  if isArray dm then dm
  else if truthy (get dm "messages") then get dm "messages"
  else JArr [].

(** *** [fetchAllMessages]. *)
Fixpoint fetchAllMessages_loop (fuel : nat) (locationId conversationId : JsVal)
    (onProgress : bool) (messages : list JsVal) (lastMessageId : JsVal)
    : M (list JsVal) :=
  match fuel with
  | O => outOfFuel
  | S fuel' =>
    data ← apiCall (ReqMessages locationId conversationId (cursorParam lastMessageId));
    dm ← liftR (prop data "messages");
    batch ← liftR (spread (messagesBatch dm));
    let messages := messages ++ batch in
    _ ← emit onProgress (PMessages conversationId (length messages));
    if (length batch =? 0)%nat then mret messages
    else
      let nextId := js_or (get data "lastMessageId") (get (lastItem batch) "id") in
      if negb (truthy nextId) || strict_eq nextId lastMessageId
      then mret messages
      else fetchAllMessages_loop fuel' locationId conversationId onProgress
             messages nextId
  end.

Definition fetchAllMessages (fuel : nat) (locationId conversationId : JsVal)
    (onProgress : bool) : M (list JsVal) :=
  fetchAllMessages_loop fuel locationId conversationId onProgress [] JUndefined.


(** *** [fetchTranscription]. *)
Definition isNotFound (err : JsError) : bool :=
  match err_status err with
  | Some st => (st =? 404) || (st =? 422)
  | None => false
  end.

Definition fetchTranscription (locationId messageId : JsVal) : M JsVal :=
  tryCatch
    (data ← apiCall (ReqRecording locationId messageId);
     t ← liftR (prop data "transcription");
     mret (js_or t JNull))
    (fun err => if isNotFound err then mret JNull else throw err).

(** *** [fetchContactHistory]. *)

(** Stage 2: [for (let i = 0; i < conversations.length; i++)], at index
    [i] with [rest] the conversations from [i] on. *)
Fixpoint fetchMessagesOfAll (fuel : nat) (locationId : JsVal) (onProgress : bool)
    (total i : nat) (rest : list JsVal) (allMessages : list JsVal)
    : M (list JsVal) :=
  match rest with
  | [] => mret allMessages
  | conv :: rest' =>
    convId ← liftR (prop conv "id");
    messages ← fetchAllMessages fuel locationId convId onProgress;
    let allMessages := allMessages ++ messages in
    _ ← emit onProgress
          (PFetchingMessages total (S i) (Some (length allMessages)));
    fetchMessagesOfAll fuel locationId onProgress total (S i) rest' allMessages
  end.

(** The predicate of stage 3:
    [m.messageType === "CALL" && m.status === "completed" && m.direction]. *)
Definition isCompletedCall (m : JsVal) : bool :=
  strict_eq (get m "messageType") (JStr "CALL")
  && strict_eq (get m "status") (JStr "completed")
  && truthy (get m "direction").

(** [allMessages.filter(...)]. The elements of [allMessages] are objects
    shared with [callMessages]: object number [r] of the fetch is
    identified with its position [r] in [allMessages], and
    [callMessages] is the list of the positions selected. Reading
    [m.messageType] throws when [m] is null or undefined. *)
Fixpoint selectCalls (r : nat) (allMessages : list JsVal) : Result (list nat) :=
  match allMessages with
  | [] => Ok []
  | m :: rest =>
    match prop m "messageType" with
    | Err e => Err e
    | Ok _ =>
      match selectCalls (S r) rest with
      | Err e => Err e
      | Ok refs => Ok (if isCompletedCall m then r :: refs else refs)
      end
    end
  end.

(** [msg.transcription = transcription] on the shared object [r]. *)
Definition attach (heap : list JsVal) (r : nat) (transcription : JsVal)
    : list JsVal :=
  if truthy transcription
  then <[r := setProp (default JUndefined (heap !! r)) "transcription" transcription]> heap
  else heap.

(** Stage 3: [for (let i = 0; i < callMessages.length; i++)]; [heap] is
    the content of the objects of [allMessages]. *)
Fixpoint transcribeCalls (locationId : JsVal) (onProgress : bool)
    (total i : nat) (callMessages : list nat) (heap : list JsVal)
    : M (list JsVal) :=
  match callMessages with
  | [] => mret heap
  | r :: rest =>
    let msg := default JUndefined (heap !! r) in
    transcription ← fetchTranscription locationId (get msg "id");
    let heap := attach heap r transcription in
    _ ← emit onProgress (PTranscriptions total (S i));
    transcribeCalls locationId onProgress total (S i) rest heap
  end.

(** [new Date(v).getTime()]; None is NaN (Invalid Date). *)
Definition timeClip (t : Z) : option Z :=
  if Z.abs t <=? 8640000000000000 then Some t else None.

Definition Date_new (v : JsVal) : option Z :=
  match v with
  | JUndefined => None
  | JNull => Some 0
  | JBool b => Some (if b then 1 else 0)
  | JNum n => timeClip n
  | JStr _ | JArr _ | JObj _ => Date_parse host v
  end.

Definition timestamp (m : JsVal) : option Z := Date_new (get m "dateAdded").

(** The comparator [(a, b) => new Date(a.dateAdded) - new Date(b.dateAdded)];
    a NaN result counts as 0 for [Array.prototype.sort]. *)
Definition byDateAdded (a b : JsVal) : Z :=
  match timestamp a, timestamp b with
  | Some ta, Some tb => ta - tb
  | _, _ => 0
  end.

(** [Array.prototype.sort(cmp)]: a stable sort (ECMAScript 2019). It is
    written here as a stable insertion sort; for a comparator that is a
    consistent total preorder the result does not depend on the
    algorithm. *)
Fixpoint sortInsert {A} (cmp : A -> A -> Z) (x : A) (sorted : list A) : list A :=
  match sorted with
  | [] => [x]
  | y :: rest => if cmp y x <=? 0 then y :: sortInsert cmp x rest else x :: y :: rest
  end.

Definition Array_sort {A} (cmp : A -> A -> Z) (l : list A) : list A :=
  fold_left (fun sorted x => sortInsert cmp x sorted) l [].

(** Stages 1 and 2: everything fetched, in fetch order. *)
Definition fetchEverything (fuel : nat) (locationId contactId : JsVal)
    (onProgress : bool) : M (list JsVal) :=
  conversations ← fetchAllConversations fuel locationId contactId onProgress;
  _ ← emit onProgress (PFetchingMessages (length conversations) 0 None);
  fetchMessagesOfAll fuel locationId onProgress (length conversations) 0
    conversations [].

(** Stage 3 on the fetched messages. *)
Definition transcribe (locationId : JsVal) (onProgress : bool)
    (allMessages : list JsVal) : M (list JsVal) :=
  callMessages ← liftR (selectCalls 0 allMessages);
  transcribeCalls locationId onProgress (length callMessages) 0 callMessages
    allMessages.

Definition fetchContactHistory (fuel : nat) (locationId contactId : JsVal)
    (onProgress : bool) : M (list JsVal) :=
  allMessages ← fetchEverything fuel locationId contactId onProgress;
  allMessages ← transcribe locationId onProgress allMessages;
  mret (Array_sort byDateAdded allMessages).

(** ** The date filter of [runExport] *)

Definition msPerDay : Z := 86400000.

(** [d.setHours(h, m, s, ms)] on a Date of time value [t]: the same local
    calendar day, at the given local clock time. *)
Definition setHours (t : option Z) (h m s ms : Z) : option Z :=
  match t with
  | None => None
  | Some t =>
    let day := (t + LocalTZA host) / msPerDay in
    timeClip (day * msPerDay + ((h * 60 + m) * 60 + s) * 1000 + ms - LocalTZA host)
  end.

(** [a >= b] and [a <= b] on Dates: false when either side is NaN. *)
Definition dateGe (a b : option Z) : bool :=
  match a, b with
  | Some x, Some y => y <=? x
  | _, _ => false
  end.

Definition dateLe (a b : option Z) : bool :=
  match a, b with
  | Some x, Some y => x <=? y
  | _, _ => false
  end.

(** [list.filter(f)] with a callback that may throw. *)
Fixpoint Array_filter {A} (f : A -> Result bool) (l : list A) : Result (list A) :=
  match l with
  | [] => Ok []
  | x :: rest =>
    match f x with
    | Err e => Err e
    | Ok keep =>
      match Array_filter f rest with
      | Err e => Err e
      | Ok kept => Ok (if keep : bool then x :: kept else kept)
      end
    end
  end.

Record DateRange : Type := mkDateRange {
  startDate : JsVal;
  endDate : JsVal;
}.

Definition startBound (dateRange : DateRange) : option Z :=
  setHours (Date_new (startDate dateRange)) 0 0 0 0.

Definition endBound (dateRange : DateRange) : option Z :=
  setHours (Date_new (endDate dateRange)) 23 59 59 999.

(** [(m) => new Date(m.dateAdded) >= start] and
    [(m) => new Date(m.dateAdded) <= end]. *)
Definition notBefore (start : option Z) (m : JsVal) : Result bool :=
  d ← prop m "dateAdded"; Ok (dateGe (Date_new d) start).

Definition notAfter (end_ : option Z) (m : JsVal) : Result bool :=
  d ← prop m "dateAdded"; Ok (dateLe (Date_new d) end_).

Definition dateFilter (dateRange : DateRange) (messages : list JsVal)
    : Result (list JsVal) :=
  messages ←
    (if truthy (startDate dateRange)
     then Array_filter (notBefore (startBound dateRange)) messages
     else Ok messages);
  if truthy (endDate dateRange)
  then Array_filter (notAfter (endBound dateRange)) messages
  else Ok messages.

End Pipeline.

(** ** The revision of the fetch loops that trusts [data.nextPage]

    [src/services/conversations.js] also holds the revision of the two
    loops that stops on an empty batch or on a falsy [data.nextPage], and
    takes the next cursor from the last item without comparing it to the
    previous one. *)
Module FlagRevision.

Section Loops.

Variable upstream : Upstream.

Fixpoint fetchAllConversations_loop (fuel : nat) (locationId contactId : JsVal)
    (onProgress : bool) (conversations : list JsVal) (lastMessageId : JsVal)
    : M (list JsVal) :=
  match fuel with
  | O => outOfFuel
  | S fuel' =>
    data ← apiCall upstream
             (ReqConversations locationId contactId (cursorParam lastMessageId));
    dc ← liftR (prop data "conversations");
    batch ← liftR (spread (js_or dc (JArr [])));
    let conversations := conversations ++ batch in
    _ ← emit onProgress (PConversations (length conversations));
    if (length batch =? 0)%nat || negb (truthy (get data "nextPage"))
    then mret conversations
    else
      a ← liftR (prop (lastItem batch) "lastMessageId");
      b ← liftR (prop (lastItem batch) "id");
      fetchAllConversations_loop fuel' locationId contactId onProgress
        conversations (js_or a b)
  end.

Definition fetchAllConversations (fuel : nat) (locationId contactId : JsVal)
    (onProgress : bool) : M (list JsVal) :=
  fetchAllConversations_loop fuel locationId contactId onProgress [] JUndefined.

Fixpoint fetchAllMessages_loop (fuel : nat) (locationId conversationId : JsVal)
    (onProgress : bool) (messages : list JsVal) (lastMessageId : JsVal)
    : M (list JsVal) :=
  match fuel with
  | O => outOfFuel
  | S fuel' =>
    data ← apiCall upstream
             (ReqMessages locationId conversationId (cursorParam lastMessageId));
    dm ← liftR (prop data "messages");
    batch ← liftR (spread (js_or dm (JArr [])));
    let messages := messages ++ batch in
    _ ← emit onProgress (PMessages conversationId (length messages));
    if (length batch =? 0)%nat || negb (truthy (get data "nextPage"))
    then mret messages
    else
      next ← (if truthy (get data "lastMessageId")
              then mret (get data "lastMessageId")
              else liftR (prop (lastItem batch) "id"));
      fetchAllMessages_loop fuel' locationId conversationId onProgress
        messages next
  end.

Definition fetchAllMessages (fuel : nat) (locationId conversationId : JsVal)
    (onProgress : bool) : M (list JsVal) :=
  fetchAllMessages_loop fuel locationId conversationId onProgress [] JUndefined.

End Loops.

End FlagRevision.

(** ** The renderer, [services/pdf.js]

    The revision with buffered pages and [addPageNumbers]. A PDFKit
    document is its buffer of pages, the page being drawn on and the text
    cursor; colours and alignment do not move the cursor and are left
    out. *)

Inductive Item : Type :=
| Text (s : string) (x y : Q)
| Stroke (x1 y1 x2 y2 : Q).

Record Doc : Type := mkDoc {
  buffer : list (list Item);  (* _pageBuffer, bufferPages: true *)
  page : nat;                 (* index of doc.page in the buffer *)
  docX : Q;
  docY : Q;
  fontName : string;
  fontSize : Q;
}.

Record Contact : Type := mkContact {
  name : JsVal;
  email : JsVal;
  phone : JsVal;
}.

Record Stats : Type := mkStats {
  dateRange : string;
  channels : list string;
}.

Section Renderer.

Variable host : Host.

#[local] Open Scope Q_scope.

Definition MARGIN : Q := 50.
Definition PAGE_WIDTH : Q := 612.
Definition PAGE_HEIGHT : Q := 792.
Definition CONTENT_WIDTH : Q := PAGE_WIDTH - MARGIN * 2.

(** [page.maxY()]: the page height less the bottom margin. *)
Definition maxY : Q := PAGE_HEIGHT - MARGIN.

Definition Qlt_bool (a b : Q) : bool := negb (Qle_bool b a).

(** [new PDFDocument({size: "LETTER", margins, bufferPages: true})]: one
    page, cursor at the top left margin, Helvetica 12. *)
Definition newDocument : Doc :=
  {| buffer := [[]]; page := 0%nat; docX := MARGIN; docY := MARGIN;
     fontName := "Helvetica"; fontSize := 12 |}.

(** The file that [fs.createWriteStream(outputPath)] creates or truncates
    and that [doc.pipe(stream)] fills: until [doc.end()] the pages are
    held back ([bufferPages]), so a file whose document never ended, or
    whose stream failed, is not the document and is kept here as a file
    without a page. *)
Definition unfinished : Doc :=
  {| buffer := []; page := 0%nat; docX := MARGIN; docY := MARGIN;
     fontName := "Helvetica"; fontSize := 12 |}.

Definition moveTo (d : Doc) (x y : Q) : Doc :=
  {| buffer := buffer d; page := page d; docX := x; docY := y;
     fontName := fontName d; fontSize := fontSize d |}.

(** [doc.fontSize(size).font(name)]. *)
Definition setFont (d : Doc) (size : Q) (font : string) : Doc :=
  {| buffer := buffer d; page := page d; docX := docX d; docY := docY d;
     fontName := font; fontSize := size |}.

(** Drawing goes to the current page. *)
Definition draw (d : Doc) (it : Item) : Doc :=
  {| buffer := alter (fun p => p ++ [it]) (page d) (buffer d); page := page d;
     docX := docX d; docY := docY d;
     fontName := fontName d; fontSize := fontSize d |}.

(** [doc.addPage()]: the new page goes to the end of the buffer and
    becomes the current page. *)
Definition addPage (d : Doc) : Doc :=
  {| buffer := buffer d ++ [[]]; page := length (buffer d);
     docX := MARGIN; docY := MARGIN;
     fontName := fontName d; fontSize := fontSize d |}.

(** [doc.switchToPage(i)], for [i] inside the buffer. *)
Definition switchToPage (d : Doc) (i : nat) : Doc :=
  {| buffer := buffer d; page := i; docX := docX d; docY := docY d;
     fontName := fontName d; fontSize := fontSize d |}.

Definition currentLineHeight (d : Doc) : Q := lineHeight host (fontName d) (fontSize d).

(** [doc.moveDown(n)]. *)
Definition moveDown (d : Doc) (n : Q) : Doc :=
  moveTo d (docX d) (docY d + currentLineHeight d * n).

(** [doc.moveTo(x1, y).lineTo(x2, y).stroke()]. *)
Definition strokeLine (d : Doc) (x1 x2 : Q) : Doc :=
  draw d (Stroke x1 (docY d) x2 (docY d)).

(** LineWrapper.nextSection without columns: [continueOnNewPage], back at
    the left edge of the text. *)
Definition continueOnNewPage (d : Doc) (x : Q) : Doc :=
  moveTo (addPage d) x MARGIN.

(** LineWrapper's line loop: a line is drawn at the cursor, the cursor
    moves down, and when the next line would pass [maxY] the text goes
    on on a new page. *)
Fixpoint flowLines (d : Doc) (x lh gap : Q) (lines : list string) : Doc :=
  match lines with
  | [] => d
  | l :: rest =>
    let d := draw d (Text l x (docY d)) in
    let d := moveTo d x (docY d + lh + gap) in
    match rest with
    | [] => d
    | _ => flowLines (if Qlt_bool maxY (docY d + lh) then continueOnNewPage d x else d)
             x lh gap rest
    end
  end.

(** [doc.text(s, x, y, {width, lineGap})]. LineWrapper.wrap first makes
    sure the text starts on the page:
    [if (document.y > maxY || document.y + lineHeight > maxY) nextSection()]. *)
Definition startOnPage (d : Doc) (x y : Q) : Doc :=
  let d := moveTo d x y in
  if Qlt_bool maxY y || Qlt_bool maxY (y + currentLineHeight d)
  then continueOnNewPage d x else d.

Definition text (d : Doc) (s : string) (x y width lineGap : Q) : Doc :=
  let d := startOnPage d x y in
  flowLines d x (currentLineHeight d) lineGap
    (wrapLines host (fontName d) (fontSize d) width s).

(** [doc.text(s, x, y, {continued: true})]: the fragment is drawn and the
    cursor stays on its line. *)
Definition textContinued (d : Doc) (s : string) (x y : Q) : Doc :=
  let d := startOnPage d x y in
  draw d (Text s x (docY d)).

Definition formatDate (v : JsVal) : string := formatDateShort host (Date_new host v).
Definition formatTime (v : JsVal) : string := formatClock host (Date_new host v).

(** [formatFullDate(new Date().toISOString())]. *)
Definition exportDate : string := formatDateLong host (Some (renderTime host)).

(** [formatDuration(seconds)]. *)
Definition formatDuration (seconds : JsVal) : string :=
  if negb (truthy seconds) then "0s"
  else match ToNumber host seconds with
       | None => "NaNm NaNs"
       | Some n =>
         if (n <=? 0)%Z then "0s"
         else if (n / 60 =? 0)%Z then pretty (n mod 60)%Z +:+ "s"
         else pretty (n / 60)%Z +:+ "m " +:+ pretty (n mod 60)%Z +:+ "s"
       end.

Definition channelMap : list (string * string) :=
  [("TYPE_SMS", "SMS"); ("TYPE_EMAIL", "Email"); ("TYPE_CALL", "Call");
   ("TYPE_WHATSAPP", "WhatsApp"); ("TYPE_FB_MESSENGER", "Facebook");
   ("TYPE_IG_DM", "Instagram"); ("TYPE_LIVE_CHAT", "Live Chat");
   ("TYPE_CUSTOM_SMS", "SMS"); ("TYPE_CUSTOM_EMAIL", "Email")].

Fixpoint assoc (k : string) (l : list (string * string)) : option string :=
  match l with
  | [] => None
  | (k', v) :: rest => if String.eqb k k' then Some v else assoc k rest
  end.

(** [s.replace(/_/g, " ")]. *)
Fixpoint underscoresToSpaces (s : string) : string :=
  match s with
  | EmptyString => EmptyString
  | String c rest =>
    String (if Ascii.eqb c "_"%char then " "%char else c) (underscoresToSpaces rest)
  end.

(** [channelLabel(type)]. Type codes are strings or absent; any other
    truthy value has no [startsWith] method. *)
Definition channelLabel (type : JsVal) : Result string :=
  match type with
  | JStr s =>
    match assoc s channelMap with
    | Some label => Ok label
    | None =>
      if String.prefix "TYPE_" s
      then Ok (underscoresToSpaces (String.substring 5 (String.length s - 5) s))
      else Ok (if String.eqb s EmptyString then "Message" else s)
    end
  | _ =>
    if truthy type then Err (TypeError "type.startsWith is not a function")
    else Ok "Message"
  end.

(** [messageTypeLabel(msg)]. *)
Definition messageTypeLabel (msg : JsVal) : Result string :=
  mt ← prop msg "messageType";
  if strict_eq mt (JStr "CALL") then Ok "Call"
  else
    l1 ← channelLabel (get msg "type");
    if negb (String.eqb l1 EmptyString) then Ok l1
    else
      l2 ← channelLabel (get msg "contentType");
      Ok (if negb (String.eqb l2 EmptyString) then l2 else "Message").

Fixpoint mapResult {A B} (f : A -> Result B) (l : list A) : Result (list B) :=
  match l with
  | [] => Ok []
  | x :: rest =>
    match f x with
    | Err e => Err e
    | Ok y => match mapResult f rest with
              | Err e => Err e
              | Ok ys => Ok (y :: ys)
              end
    end
  end.

(** [[...new Set(labels)]]: first occurrences, in order. *)
Fixpoint setAddAll (seen : list string) (labels : list string) : list string :=
  match labels with
  | [] => seen
  | l :: rest => setAddAll (if bool_decide (l ∈ seen) then seen else seen ++ [l]) rest
  end.

(** [getMessageStats(messages)]. *)
Definition getMessageStats (messages : list JsVal) : Result Stats :=
  match messages with
  | [] => Ok {| dateRange := "N/A"; channels := [] |}
  | first :: _ =>
    d1 ← prop first "dateAdded";
    d2 ← prop (lastItem messages) "dateAdded";
    labels ← mapResult messageTypeLabel messages;
    Ok {| dateRange := formatDate d1 +:+ " – " +:+ formatDate d2;
          channels := setAddAll [] labels |}
  end.

(** [doc.text(s, MARGIN, doc.y, {width: CONTENT_WIDTH, align: "center"})]. *)
Definition centered (d : Doc) (s : string) : Doc :=
  text d s MARGIN (docY d) CONTENT_WIDTH 0.

Definition statsData (stats : Stats) (messages : list JsVal) : list (string * string) :=
  [("Total Messages", Number_toLocaleString host (length messages));
   ("Date Range", dateRange stats);
   ("Export Date", exportDate)].

Definition renderStat (d : Doc) (stat : string * string) : Doc :=
  let d := centered (setFont d 10 "Helvetica") (fst stat) in
  let d := moveDown d 0.2 in
  let d := centered (setFont d 14 "Helvetica-Bold") (snd stat) in
  moveDown d 1.

(** [renderCoverPage(doc, contact, messages)]. *)
Definition renderCoverPage (d : Doc) (contact : Contact) (messages : list JsVal)
    : Result Doc :=
  let d := moveDown d 4 in
  let d := centered (setFont d 28 "Helvetica-Bold") "CONVERSATION EXPORT" in
  let d := moveDown d 1 in
  let d := strokeLine d (MARGIN + 100) (PAGE_WIDTH - MARGIN - 100) in
  let d := moveDown d 2 in
  let d := centered (setFont d 12 "Helvetica") "Contact" in
  let d := moveDown d 0.3 in
  let d := centered (setFont d 20 "Helvetica-Bold")
             (ToString host (js_or (name contact) (JStr "Unknown Contact"))) in
  let d := moveDown d 1 in
  let d := setFont d 11 "Helvetica" in
  let d := if truthy (email contact)
           then moveDown (centered d ("Email: " +:+ ToString host (email contact))) 0.3
           else d in
  let d := if truthy (phone contact)
           then moveDown (centered d ("Phone: " +:+ ToString host (phone contact))) 0.3
           else d in
  let d := moveDown d 2 in
  stats ← getMessageStats messages;
  let d := strokeLine d (MARGIN + 80) (PAGE_WIDTH - MARGIN - 80) in
  let d := moveDown d 1.5 in
  let d := fold_left renderStat (statsData stats messages) d in
  Ok (if (0 <? length (channels stats))%nat
      then centered (setFont (moveDown d 0.5) 10 "Helvetica")
             ("Channels: " +:+ String.concat ", " (channels stats))
      else d).

(** [checkPageBreak(doc, needed)]; [needed] is None when the estimate is
    NaN, and a comparison with NaN is false. *)
Definition checkPageBreak (d : Doc) (needed : option Q) : Doc :=
  match needed with
  | Some n => if Qlt_bool (PAGE_HEIGHT - MARGIN - 30) (docY d + n) then addPage d else d
  | None => d
  end.

(** [msg.body || msg.text || msg.message || ''] (the empty string). *)
Definition getMessageBody (msg : JsVal) : JsVal :=
  js_or (js_or (js_or (get msg "body") (get msg "text")) (get msg "message"))
        (JStr EmptyString).

(** [bodyText.length]: defined for strings and arrays. *)
Definition jsLength (v : JsVal) : option nat :=
  match v with
  | JStr s => Some (String.length s)
  | JArr l => Some (length l)
  | _ => None
  end.

(** [Math.min((Math.ceil(bodyText.length / 80) + 3) * 14 + 40, 200)]. *)
Definition estimatedHeight (bodyText : JsVal) : option Q :=
  match jsLength bodyText with
  | Some n =>
    let estimatedLines := Z.of_nat ((n + 79) / 80) + 3 in
    Some (inject_Z (Z.min (estimatedLines * 14 + 40) 200))
  | None => None
  end%Z.

(** [s.split("/").pop()]. *)
Fixpoint lastSegment (acc s : string) : string :=
  match s with
  | EmptyString => acc
  | String c rest =>
    if Ascii.eqb c "/"%char then lastSegment EmptyString rest
    else lastSegment (acc +:+ String c EmptyString) rest
  end.

Definition attachmentName (att : JsVal) : Result string :=
  match att with
  | JStr s => Ok (lastSegment EmptyString s)
  | _ =>
    n ← prop att "name";
    Ok (ToString host (js_or (js_or n (get att "url")) (JStr "attachment")))
  end.

(** A body line: [doc.text(s, MARGIN + 10, doc.y, {width: CONTENT_WIDTH - 20, lineGap})]. *)
Definition bodyText (d : Doc) (s : string) (lineGap : Q) : Doc :=
  text d s (MARGIN + 10) (docY d) (CONTENT_WIDTH - 20) lineGap.

Definition renderAttachment (d : Result Doc) (att : JsVal) : Result Doc :=
  d ← d;
  n ← attachmentName att;
  Ok (bodyText d ("📎 " +:+ n) 0).

(** [renderAttachments(doc, msg)]. *)
Definition renderAttachments (d : Doc) (msg : JsVal) : Result Doc :=
  attachments ← spread (js_or (get msg "attachments") (JArr []));
  if (length attachments =? 0)%nat then Ok d
  else fold_left renderAttachment attachments
         (Ok (setFont (moveDown d 0.2) 9 "Helvetica-Oblique")).

(** [renderTextMessage(doc, msg)]. *)
Definition renderTextMessage (d : Doc) (msg : JsVal) : Result Doc :=
  let body := getMessageBody msg in
  if negb (truthy body) then Ok d
  else renderAttachments (bodyText (setFont d 10 "Helvetica") (ToString host body) 2) msg.

(** [renderEmailMessage(doc, msg)]. *)
Definition renderEmailMessage (d : Doc) (msg : JsVal) : Result Doc :=
  let d :=
    if truthy (get msg "subject")
    then moveDown (bodyText (setFont d 10 "Helvetica-Bold")
                     ("Subject: " +:+ ToString host (get msg "subject")) 0) 0.2
    else d in
  let d :=
    if truthy (get msg "from") || truthy (get msg "to")
    then
      let fromTo := String.concat " → "
        (ToString host <$> filter (fun v => truthy v = true) [get msg "from"; get msg "to"]) in
      let d := moveDown (bodyText (setFont d 9 "Helvetica") fromTo 0) 0.2 in
      moveDown (strokeLine d (MARGIN + 10) (MARGIN + 10 + 200)) 0.3
    else d in
  let body :=
    if truthy (get msg "html") || truthy (get msg "body")
    then convert host (ToString host (js_or (get msg "html") (get msg "body")))
    else if truthy (get msg "text") then ToString host (get msg "text")
    else EmptyString in
  let d :=
    if String.eqb body EmptyString then d
    else
      let truncated := (3000 <? String.length body)%nat in
      let displayBody := if truncated then String.substring 0 3000 body else body in
      let d := bodyText (setFont d 10 "Helvetica") displayBody 2 in
      if truncated
      then bodyText (setFont (moveDown d 0.2) 9 "Helvetica-Oblique")
             "[Email truncated — full content exceeds display limit]" 0
      else d in
  renderAttachments d msg.

Definition quote : string := String (ascii_of_nat 34) EmptyString.

(** [renderCallMessage(doc, msg)]. *)
Definition renderCallMessage (d : Doc) (msg : JsVal) : Doc :=
  let d := setFont d 10 "Helvetica" in
  let parts :=
    (if truthy (get msg "callDuration")
     then ["Duration: " +:+ formatDuration (get msg "callDuration")] else [])
    ++ (if truthy (get msg "callStatus") || truthy (get msg "status")
        then ["Status: " +:+ ToString host (js_or (get msg "callStatus") (get msg "status"))]
        else []) in
  let d := if (0 <? length parts)%nat
           then moveDown (bodyText d (String.concat "  |  " parts) 0) 0.2
           else d in
  let transcription := get msg "transcription" in
  if truthy transcription
  then
    let transcriptText :=
      match transcription with
      | JStr s => s
      | _ => JSON_stringify host transcription
      end in
    let d := bodyText (setFont d 9 "Helvetica-Oblique") "Transcription:" 0 in
    let d := setFont (moveDown d 0.1) 10 "Helvetica" in
    let truncated := (2000 <? String.length transcriptText)%nat in
    let displayText :=
      if truncated then String.substring 0 2000 transcriptText else transcriptText in
    bodyText d (quote +:+ displayText +:+ (if truncated then "..." else EmptyString) +:+ quote) 2
  else d.

(** [renderMessage(doc, msg, index)]. *)
Definition renderMessage (d : Doc) (msg : JsVal) (index : nat) : Result Doc :=
  direction ← prop msg "direction";
  let dirLabel :=
    if strict_eq direction (JStr "outbound") then "→ OUTBOUND" else "← INBOUND" in
  channel ← messageTypeLabel msg;
  let date := formatDate (get msg "dateAdded") in
  let time := formatTime (get msg "dateAdded") in
  let d := checkPageBreak d (estimatedHeight (getMessageBody msg)) in
  let d :=
    if (0 <? index)%nat && Qlt_bool (MARGIN + 10) (docY d)
    then moveDown (strokeLine (moveDown d 0.5) MARGIN (PAGE_WIDTH - MARGIN)) 0.5
    else d in
  let headerY := docY d in
  let d := textContinued (setFont d 9 "Helvetica-Bold") ("[" +:+ dirLabel +:+ "]")
             MARGIN headerY in
  let d := text (setFont d 9 "Helvetica")
             ("  " +:+ date +:+ "  " +:+ time +:+ "  ·  " +:+ channel)
             (docX d) (docY d) CONTENT_WIDTH 0 in
  let d := moveDown d 0.3 in
  d ← (if strict_eq (get msg "messageType") (JStr "CALL") || String.eqb channel "Call"
       then Ok (renderCallMessage d msg)
       else if String.eqb channel "Email" then renderEmailMessage d msg
       else renderTextMessage d msg);
  Ok (moveDown d 0.3).

(** [renderMessages(doc, messages)], from index [i]. *)
Fixpoint renderMessages (d : Doc) (i : nat) (messages : list JsVal) : Result Doc :=
  match messages with
  | [] => Ok d
  | msg :: rest =>
    match renderMessage d msg i with
    | Err e => Err e
    | Ok d => renderMessages d (S i) rest
    end
  end.

Definition footerText (pageNum totalPages : nat) : string :=
  "Page " +:+ pretty pageNum +:+ " of " +:+ pretty totalPages
  +:+ "  ·  Exported from GoHighLevel  ·  " +:+ exportDate.

Definition FOOTER_Y : Q := PAGE_HEIGHT - MARGIN + 10.

(** The body of the loop of [addPageNumbers], at page [i]. *)
Definition addPageNumber (totalPages : nat) (d : Doc) (i : nat) : Doc :=
  let d := switchToPage d i in
  if (i =? 0)%nat then d
  else text (setFont d 8 "Helvetica") (footerText (i + 1) totalPages)
         MARGIN FOOTER_Y CONTENT_WIDTH 0.

(** [addPageNumbers(doc)]: [totalPages] is read once, before the loop. *)
Definition addPageNumbers (d : Doc) : Doc :=
  let totalPages := length (buffer d) in
  fold_left (addPageNumber totalPages) (seq 0 totalPages) d.

(** The document before the footers are added. *)
Definition renderContent (contact : Contact) (messages : list JsVal) : Result Doc :=
  d ← renderCoverPage newDocument contact messages;
  if (0 <? length messages)%nat then renderMessages (addPage d) 0 messages
  else Ok d.

(** [generatePDF(contact, messages, outputPath)]: the document that is
    piped to the file. *)
Definition generatePDF (contact : Contact) (messages : list JsVal) : Result Doc :=
  d ← renderContent contact messages;
  Ok (addPageNumbers d).

End Renderer.

(** ** The job controller, [index.js] *)

Inductive JobStatus : Type :=
| Processing   (* "processing" *)
| Complete     (* "complete" *)
| Failed.      (* "failed" *)

Record Job : Type := mkJob {
  job_id : string;
  contactId : JsVal;
  locationId : JsVal;
  status : JobStatus;
  job_progress : Progress;
  createdAt : Z;
  filePath : option string;   (* null until the document is written *)
  filename : option string;
  error : option string;
}.

(** The export directory: path to rendered document. *)
Abbreviation Disk := (gmap string Doc).

(** The job registry [jobs = new Map()]. *)
Abbreviation Registry := (gmap string Job).

Definition JOB_TTL_MS : Z := 60 * 60 * 1000.

(** [createJob(contactId, locationId)], with the values of
    [crypto.randomUUID()] and [Date.now()]. *)
Definition createJob (uuid : string) (now : Z) (contactId locationId : JsVal)
    (jobs : Registry) : Job * Registry :=
  let job := {| job_id := uuid; contactId := contactId; locationId := locationId;
                status := Processing; job_progress := PStarting; createdAt := now;
                filePath := None; filename := None; error := None |} in
  (job, <[uuid := job]> jobs).

(** What the reaper does, in order. *)
Inductive Effect : Type :=
| Unlink (path : string)      (* fs.unlinkSync(job.filePath) *)
| Forget (id : string).       (* jobs.delete(id) *)

Record Server : Type := mkServer {
  jobs : Registry;
  disk : Disk;
  trace : list Effect;
}.

(** One iteration of [for (const [id, job] of jobs)] in [cleanupJobs]. A
    recorded path is never the empty string, so [job.filePath && ...]
    tests for null. *)
Definition cleanupEntry (now : Z) (s : Server) (entry : string * Job) : Server :=
  let '(id, job) := entry in
  if JOB_TTL_MS <? now - createdAt job then
    let s :=
      match filePath job with
      | Some path =>
        if bool_decide (is_Some (disk s !! path))
        then {| jobs := jobs s; disk := delete path (disk s);
                trace := trace s ++ [Unlink path] |}
        else s
      | None => s
      end in
    {| jobs := delete id (jobs s); disk := disk s; trace := trace s ++ [Forget id] |}
  else s.

(** [cleanupJobs()] at time [now = Date.now()]. Deleting the entry being
    visited does not disturb the iteration of a Map, so the loop visits
    the entries present when it starts. *)
Definition cleanupJobs (now : Z) (s : Server) : Server :=
  foldl (cleanupEntry now) s (map_to_list (jobs s)).

(** [GET /api/export/:jobId]. *)
Inductive StatusReply : Type :=
| NotFound                     (* 404 {error: "Job not found"} *)
| StatusOf (jobId : string) (st : JobStatus) (p : Progress)
    (err : option string) (file : option string).

Definition getStatus (jobs : Registry) (jobId : string) : StatusReply :=
  match jobs !! jobId with
  | None => NotFound
  | Some job =>
    StatusOf (job_id job) (status job) (job_progress job) (error job) (filename job)
  end.

(** [GET /api/export/:jobId/download]. *)
Inductive DownloadReply : Type :=
| JobNotFound | NotReady | FileNotFound
| Download (document : Doc) (file : option string).

Definition download (s : Server) (jobId : string) : DownloadReply :=
  match jobs s !! jobId with
  | None => JobNotFound
  | Some job =>
    match status job with
    | Complete =>
      match filePath job with
      | Some path =>
        match disk s !! path with
        | Some document => Download document (filename job)
        | None => FileNotFound
        end
      | None => FileNotFound
      end
    | _ => NotReady
    end
  end.

Section ExportJob.

Variable host : Host.
Variable upstream : Upstream.

(** [s.replace(/[^a-zA-Z0-9_-]/g, "_")]. *)
Definition safeChar (c : ascii) : ascii :=
  let n := nat_of_ascii c in
  if ((65 <=? n) && (n <=? 90) || (97 <=? n) && (n <=? 122)
      || (48 <=? n) && (n <=? 57) || (n =? 95) || (n =? 45))%nat
  then c else "_"%char.

Fixpoint sanitize (s : string) : string :=
  match s with
  | EmptyString => EmptyString
  | String c rest => String (safeChar c) (sanitize rest)
  end.

(** [(contact.name || "export").replace(...)]. *)
Definition safeName (contact : Contact) : Result string :=
  match js_or (name contact) (JStr "export") with
  | JStr s => Ok (sanitize s)
  | _ => Err (TypeError "replace is not a function")
  end.

Definition failed (job : Job) (p : Progress) (err : JsError) : Job :=
  {| job_id := job_id job; contactId := contactId job; locationId := locationId job;
     status := Failed; job_progress := p; createdAt := createdAt job;
     filePath := filePath job; filename := filename job;
     error := Some (err_message err) |}.

Definition completed (job : Job) (path file : string) (n : nat) : Job :=
  {| job_id := job_id job; contactId := contactId job; locationId := locationId job;
     status := Complete; job_progress := PComplete n; createdAt := createdAt job;
     filePath := Some path; filename := Some file; error := error job |}.

Definition progressed (job : Job) (p : Progress) : Job :=
  {| job_id := job_id job; contactId := contactId job; locationId := locationId job;
     status := status job; job_progress := p; createdAt := createdAt job;
     filePath := filePath job; filename := filename job; error := error job |}.

(** [filePath] and [filename] of [runExport]: the exports directory, the
    sanitised name and the first eight characters of the job id. *)
Definition exportFile (exportsDir : string) (job : Job) (contact : Contact)
    : Result (string * string) :=
  safe ← safeName contact;
  let file := safe +:+ "_" +:+ String.substring 0 8 (job_id job) +:+ ".pdf" in
  Ok (exportsDir +:+ "/" +:+ file, file).

(** The statements of [runExport] from [store.ensureExportsDir()] to the
    end of [generatePDF], inside the [try]: the path, the file name and
    the document written. *)
Definition writeExport (exportsDir : string) (job : Job) (contact : Contact)
    (messages : list JsVal) : Result (string * string * Doc) :=
  '(path, file) ← exportFile exportsDir job contact;
  document ← generatePDF host contact messages;
  match writeError host path with
  | Some err => Err err
  | None => Ok (path, file, document)
  end.

(** The disk when these statements threw. [generatePDF] opens
    [fs.createWriteStream(outputPath)] before it renders anything, so
    once the path is known a rejection of [generatePDF] leaves the
    unfinished file there; an error in computing the path leaves the
    disk as it was. *)
Definition abandoned (exportsDir : string) (job : Job) (contact : Contact)
    (files : Disk) : Disk :=
  match exportFile exportsDir job contact with
  | Ok (path, _) => <[path := unfinished]> files
  | Err _ => files
  end.

(** [runExport(job, contact, dateRange)]: the job as it is left, the disk,
    and whether the promise is fulfilled or rejected. [job.progress]
    follows the progress callback. An error of the fetch or of the date
    filter is thrown before any file is opened. *)
Definition runExport (fuel : nat) (exportsDir : string) (job : Job)
    (contact : Contact) (range : DateRange) (files : Disk)
    : Outcome unit * Job * Disk :=
  let w0 := {| calls := 0; progress := job_progress job |} in
  match fetchContactHistory host upstream fuel (locationId job) (contactId job) true w0 with
  | (OutOfFuel, w) => (OutOfFuel, progressed job (progress w), files)
  | (Throw err, w) => (Throw err, failed job (progress w) err, files)
  | (Ret messages, w) =>
    match dateFilter host range messages with
    | Err err => (Throw err, failed job (progress w) err, files)
    | Ok messages =>
      let generating := PGeneratingPdf (length messages) in
      match writeExport exportsDir job contact messages with
      | Err err =>
        (Throw err, failed job generating err, abandoned exportsDir job contact files)
      | Ok (path, file, document) =>
        (Ret tt, completed job path file (length messages),
         <[path := document]> files)
      end
    end
  end.

End ExportJob.

(** ** Code that reads and writes a state and may throw *)

Definition Io (S A : Type) : Type := S -> Result A * S.

#[export] Instance Io_ret {S} : MRet (Io S) := fun A a s => (Ok a, s).

#[export] Instance Io_bind {S} : MBind (Io S) := fun A B f m s =>
  match m s with
  | (Ok a, s') => f a s'
  | (Err e, s') => (Err e, s')
  end.

Definition raise {S A} (e : JsError) : Io S A := fun s => (Err e, s).

(** A step written on the state. *)
Definition io {S A} (step : S -> Result A * S) : Io S A := step.

(** [new Error(message)]. *)
Definition Error (message : string) : JsError :=
  {| err_status := None; err_message := message |}.

(** [JSON.parse(JSON.stringify(v))]: a property whose value is undefined
    is left out, an undefined element of an array becomes null. *)
Fixpoint jsonRoundTrip (v : JsVal) : JsVal :=
  match v with
  | JArr items =>
    JArr (map (fun x => match x with JUndefined => JNull | _ => jsonRoundTrip x end) items)
  | JObj fields =>
    JObj (omap (fun x => match x with JUndefined => None | _ => Some (jsonRoundTrip x) end)
            fields)
  | _ => v
  end.

Definition jsonField (x : JsVal) : option JsVal :=
  match x with JUndefined => None | _ => Some (jsonRoundTrip x) end.

(** The own enumerable properties copied by [{...v}]: those of an
    object, the elements of an array and the characters of a string
    under their indices, none for any other value. *)
Definition indexed (items : list JsVal) : gmap string JsVal :=
  list_to_map (imap (fun i x => (pretty i, x)) items).

Definition ownProperties (v : JsVal) : gmap string JsVal :=
  match v with
  | JObj fields => fields
  | JArr items => indexed items
  | JStr s => indexed (chars s)
  | _ => ∅
  end.

(** [{...a, ...b}]: the properties of [b] win. *)
Definition spreadBoth (a b : JsVal) : JsVal := JObj (ownProperties b ∪ ownProperties a).

(** ** Token storage, [services/store.js] *)

Module Store.

(** [data/tokens.json]. A file that parses was written by [writeJson] and
    holds an object; [Garbage] is a file that [JSON.parse] rejects. *)
Inductive FileContent : Type :=
| NoFile
| Garbage
| Json (fields : gmap string JsVal).

Record Files : Type := mkFiles {
  dataDir : bool;            (* fs.existsSync(DATA_DIR) *)
  tokensFile : FileContent;
  readOnly : bool;           (* writes and mkdir fail *)
}.

(** The [tokens] table behind [pool]: [location_id] to [data], and the
    error of its queries when the database is unreachable. *)
Record Db : Type := mkDb {
  rows : gmap string JsVal;
  failure : option JsError;
}.

(** [pool] is null when [DATABASE_URL] is not set or the table could not
    be created. *)
Record State : Type := mkState {
  pool : option Db;
  files : Files;
}.

Definition fileSystemError : JsError := Error "EROFS: read-only file system".
Definition syntaxError : JsError := Error "Unexpected token in JSON".
Definition notNullViolation : JsError :=
  Error "null value in column location_id violates not-null constraint".

Section Storage.

Variable host : Host.

Definition withFiles (st : State) (fs : Files) : State :=
  {| pool := pool st; files := fs |}.

(** [ensureDataDir()]. *)
Definition ensureDataDir : Io State unit := fun st =>
  let fs := files st in
  if dataDir fs then (Ok tt, st)
  else if readOnly fs then (Err fileSystemError, st)
  else (Ok tt, withFiles st {| dataDir := true; tokensFile := tokensFile fs;
                               readOnly := readOnly fs |}).

(** [readJson(TOKENS_FILE)]. *)
Definition readJson : Io State (gmap string JsVal) :=
  _ ← ensureDataDir;
  io (fun st =>
    match tokensFile (files st) with
    | NoFile => (Ok ∅, st)
    | Garbage => (Err syntaxError, st)
    | Json fields => (Ok fields, st)
    end).

(** [writeJson(TOKENS_FILE, data)]. *)
Definition writeJson (data : gmap string JsVal) : Io State unit :=
  _ ← ensureDataDir;
  io (fun st =>
    let fs := files st in
    if readOnly fs then (Err fileSystemError, st)
    else (Ok tt, withFiles st {| dataDir := dataDir fs;
                                 tokensFile := Json (omap jsonField data);
                                 readOnly := readOnly fs |})).

(** A value as a property name, and as the text parameter of a query
    (null and undefined are sent as NULL). *)
Definition key (locationId : JsVal) : string := ToString host locationId.

Definition sqlText (locationId : JsVal) : option string :=
  if nullish locationId then None else Some (ToString host locationId).

(** [pool.query("SELECT data FROM tokens WHERE location_id = $1", ...)],
    reduced to [rows.length > 0 ? rows[0].data : null]. *)
Definition selectData (db : Db) (locationId : JsVal) : Result JsVal :=
  match failure db with
  | Some e => Err e
  | None => Ok (default JNull (k ← sqlText locationId; rows db !! k))
  end.

(** [INSERT ... ON CONFLICT (location_id) DO UPDATE SET data = $2]. *)
Definition upsert (db : Db) (locationId : JsVal) (data : JsVal) : Result Db :=
  match failure db with
  | Some e => Err e
  | None =>
    match sqlText locationId with
    | None => Err notNullViolation
    | Some k => Ok {| rows := <[k := jsonRoundTrip data]> (rows db); failure := None |}
    end
  end.

(** [getTokens(locationId)]. *)
Definition getTokens (locationId : JsVal) : Io State JsVal := fun st =>
  match pool st with
  | Some db => (selectData db locationId, st)
  | None =>
    (all ← readJson;
     mret (js_or (default JUndefined (all !! key locationId)) JNull)) st
  end.

(** The file part of [saveTokens], inside its [try]. *)
Definition saveToFile (locationId : JsVal) (data : JsVal) : Io State unit :=
  all ← readJson;
  writeJson (<[key locationId := data]> all).

(** [saveTokens(locationId, tokenData)] at time [now]
    ([new Date().toISOString()]). *)
Definition saveTokens (now : string) (locationId : JsVal) (tokenData : JsVal)
    : Io State unit := fun st =>
  let data := JObj (<["updatedAt" := JStr now]> (ownProperties tokenData)) in
  let saved :=
    match pool st with
    | Some db =>
      match upsert db locationId data with
      | Ok db' => (Ok tt, {| pool := Some db'; files := files st |})
      | Err e => (Err e, st)
      end
    | None => (Ok tt, st)
    end in
  match saved with
  | (Err e, st') => (Err e, st')
  | (Ok _, st') =>
    match saveToFile locationId data st' with
    | (Err e, st'') =>
      match pool st'' with
      | Some _ => (Ok tt, st'')
      | None => (Err e, st'')
      end
    | done => done
    end
  end.

End Storage.

End Store.

(** ** The authenticated client, [services/ghl.js] *)

Module Ghl.

(** What is sent with axios: a POST to the token endpoint, with the
    grant and the code or refresh token it carries, or an API request
    with its [Authorization] header. [data] is set only when truthy. *)
Inductive HttpRequest : Type :=
| PostToken (grant_type : string) (credential : JsVal)
| Send (authorization : string) (method url : string) (data : option JsVal).

(** The server: the response body [data] of the request sent after [n]
    others, or the error axios throws. *)
Definition Http : Type := nat -> HttpRequest -> Result JsVal.

Record State : Type := mkState {
  sent : list HttpRequest;   (* the requests sent so far, in order *)
  store : Store.State;
}.

Section Client.

Variable host : Host.
Variable http : Http.
(* new Date().toISOString() when tokens are saved *)
Variable now : string.

Definition axios (req : HttpRequest) : Io State JsVal := fun st =>
  (http (length (sent st)) req, {| sent := sent st ++ [req]; store := store st |}).

(** A call into [store]. *)
Definition inStore {A} (m : Io Store.State A) : Io State A := fun st =>
  match m (store st) with
  | (r, store') => (r, {| sent := sent st; store := store' |})
  end.

(** [`Bearer ${token}`]. *)
Definition bearer (token : JsVal) : string := "Bearer " +:+ ToString host token.

(** [exchangeCodeForTokens(code)]. *)
Definition exchangeCodeForTokens (code : JsVal) : Io State JsVal :=
  data ← axios (PostToken "authorization_code" code);
  locationId ← io (fun st => (prop data "locationId", st));
  _ ← inStore (Store.saveTokens host now locationId data);
  mret data.

(** [refreshAccessToken(locationId)]. *)
Definition refreshAccessToken (locationId : JsVal) : Io State JsVal :=
  existing ← inStore (Store.getTokens host locationId);
  if negb (truthy existing)
  then raise (Error ("No tokens found for location " +:+ ToString host locationId))
  else
    data ← axios (PostToken "refresh_token" (get existing "refresh_token"));
    _ ← inStore (Store.saveTokens host now locationId (spreadBoth existing data));
    io (fun st => (prop data "access_token", st)).

(** [try { return await axios(opts) } catch (err) { ... }] of [apiCall]. *)
Definition sendWithRefresh (locationId : JsVal) (token : JsVal)
    (method url : string) (data : option JsVal) : Io State JsVal := fun st =>
  match axios (Send (bearer token) method url data) st with
  | (Err err, st') =>
    if bool_decide (err_status err = Some 401)
    then
      (newToken ← refreshAccessToken locationId;
       axios (Send (bearer newToken) method url data)) st'
    else (Err err, st')
  | done => done
  end.

(** [apiCall(locationId, method, url, data = null)]; the response is
    identified with its body. *)
Definition apiCall (locationId : JsVal) (method url : string) (data : JsVal)
    : Io State JsVal :=
  tokens ← inStore (Store.getTokens host locationId);
  if negb (truthy tokens)
  then raise (Error ("No tokens for location " +:+ ToString host locationId))
  else
    sendWithRefresh locationId (get tokens "access_token") method url
      (if truthy data then Some data else None).

End Client.

End Ghl.

(** ** The date-range route, [GET /api/contacts/:contactId/date-range] *)

Inductive RangeReply : Type :=
| MissingLocationId                  (* 400 {error: "Missing locationId"} *)
| Range (startDate endDate : JsVal)  (* 200; both null when nothing is dated *)
| RangeFailed.                       (* 500 {error: "Failed to fetch date range"} *)

(** [s.split("T")[0]]. *)
Fixpoint beforeT (s : string) : string :=
  match s with
  | EmptyString => EmptyString
  | String c rest => if Ascii.eqb c "T"%char then EmptyString else String c (beforeT rest)
  end.

(** [Math.min(...numbers)] and [Math.max(...numbers)] on the time values
    of Dates: NaN as soon as one is NaN. Without argument the result is
    infinite, which is no time value either. *)
Definition Math_extreme (pick : Z -> Z -> Z) (numbers : list (option Z)) : option Z :=
  match numbers with
  | [] => None
  | first :: rest =>
    fold_left (fun acc d => match acc, d with
                            | Some x, Some y => Some (pick x y)
                            | _, _ => None
                            end) rest first
  end.

Section DateRangeRoute.

Variable host : Host.
Variable upstream : Upstream.
(* Date.prototype.toISOString of a time value *)
Variable toISOString : Z -> string.

(** The body of [for (const c of convos)]. *)
Definition pushDates (dates : list (option Z)) (c : JsVal) : Result (list (option Z)) :=
  dateAdded ← prop c "dateAdded";
  let dates := if truthy dateAdded then dates ++ [Date_new host dateAdded] else dates in
  let dates := if truthy (get c "lastMessageDate")
               then dates ++ [Date_new host (get c "lastMessageDate")] else dates in
  Ok (if truthy (get c "dateUpdated")
      then dates ++ [Date_new host (get c "dateUpdated")] else dates).

Fixpoint collectDates (dates : list (option Z)) (convos : list JsVal)
    : Result (list (option Z)) :=
  match convos with
  | [] => Ok dates
  | c :: rest =>
    match pushDates dates c with
    | Err e => Err e
    | Ok dates => collectDates dates rest
    end
  end.

(** [new Date(t).toISOString().split("T")[0]]: a RangeError on an
    invalid date. *)
Definition isoDay (t : option Z) : Result string :=
  match t with
  | Some t => Ok (beforeT (toISOString t))
  | None => Err {| err_status := None; err_message := "Invalid time value" |}
  end.

Definition dateRangeRoute (fuel : nat) (locationId contactId : JsVal) : M RangeReply :=
  if negb (truthy locationId) then mret MissingLocationId
  else
    tryCatch
      (convos ← fetchAllConversations upstream fuel locationId contactId false;
       if (length convos =? 0)%nat then mret (Range JNull JNull)
       else
         dates ← liftR (collectDates [] convos);
         if (length dates =? 0)%nat then mret (Range JNull JNull)
         else
           startDate ← liftR (isoDay (Math_extreme Z.min dates));
           endDate ← liftR (isoDay (Math_extreme Z.max dates));
           mret (Range (JStr startDate) (JStr endDate)))
      (fun _ => mret RangeFailed).

End DateRangeRoute.

(** ** The paginated fetcher, as the specification describes it

    One cursor-driven loop over an endpoint: how a page is requested,
    how its batch and its next cursor are read, and what is reported.
    The two loops of the source are instances of it
    ([fetchAllConversations_paginate], [fetchAllMessages_paginate]); the
    items of a page of messages are read off the response by
    [pageMessages], which [messagesPages_read] compares with the reading
    of the code. *)
Record Endpoint : Type := mkEndpoint {
  ep_request : option JsVal -> Request;
  ep_batch : JsVal -> Result (list JsVal);
  ep_next : JsVal -> list JsVal -> JsVal;
  ep_progress : nat -> Progress;
}.

Definition conversationsPages (locationId contactId : JsVal) : Endpoint :=
  {| ep_request := ReqConversations locationId contactId;
     ep_batch := fun data =>
       dc ← prop data "conversations";
       Ok (match dc with JArr items => items | _ => [] end);
     ep_next := fun data batch =>
       js_or (js_or (get data "lastMessageId") (get (lastItem batch) "lastMessageId"))
             (get (lastItem batch) "id");
     ep_progress := PConversations |}.

(** The items of a page of messages, read off the shape of the response
    and not through the code: the array under [messages], or the array
    under [messages.messages] when the page is nested; a page without
    either holds no item. Any other shape is not a page. *)
Definition pageMessages (data : JsVal) : Result (list JsVal) :=
  match data with
  | JObj fields =>
    match fields !! "messages" with
    | None => Ok []
    | Some (JArr items) => Ok items
    | Some (JObj nested) =>
      match nested !! "messages" with
      | None => Ok []
      | Some (JArr items) => Ok items
      | Some _ => Err (TypeError "not a page of messages")
      end
    | Some _ => Err (TypeError "not a page of messages")
    end
  | _ => Err (TypeError "not a page of messages")
  end.

Definition messagesPages (locationId conversationId : JsVal) : Endpoint :=
  {| ep_request := ReqMessages locationId conversationId;
     ep_batch := pageMessages;
     ep_next := fun data batch =>
       js_or (get data "lastMessageId") (get (lastItem batch) "id");
     ep_progress := PMessages conversationId |}.

(** The same endpoint with the batch read as lines 249-254 of
    [fetchAllMessages] read it; [fetchAllMessages_paginate] shows that
    the loop of the source is the fetcher at this endpoint, and
    [messagesPages_read] that it reads every page of messages as
    [pageMessages] does. *)
Definition messagesAsRead (locationId conversationId : JsVal) : Endpoint :=
  {| ep_request := ReqMessages locationId conversationId;
     ep_batch := fun data =>
       dm ← prop data "messages";
       spread (messagesBatch dm);
     ep_next := fun data batch =>
       js_or (get data "lastMessageId") (get (lastItem batch) "id");
     ep_progress := PMessages conversationId |}.

Section Paginate.

Variable upstream : Upstream.
Variable ep : Endpoint.

Fixpoint paginate (fuel : nat) (onProgress : bool) (items : list JsVal)
    (cursor : JsVal) : M (list JsVal) :=
  match fuel with
  | O => outOfFuel
  | S fuel' =>
    data ← apiCall upstream (ep_request ep (cursorParam cursor));
    batch ← liftR (ep_batch ep data);
    let items := items ++ batch in
    _ ← emit onProgress (ep_progress ep (length items));
    if (length batch =? 0)%nat then mret items
    else
      let nextId := ep_next ep data batch in
      if negb (truthy nextId) || strict_eq nextId cursor then mret items
      else paginate fuel' onProgress items nextId
  end.

(** The pages of a run that starts when [n0] calls have been made: the
    response to call [n0 + i] is page [i], requested with the cursor
    derived from page [i - 1]. *)
Definition pageOf (n : nat) (cursor : JsVal) : Result (JsVal * list JsVal) :=
  data ← upstream n (ep_request ep (cursorParam cursor));
  batch ← ep_batch ep data;
  Ok (data, batch).

Definition nextOf (pg : Result (JsVal * list JsVal)) : JsVal :=
  match pg with
  | Ok (data, batch) => ep_next ep data batch
  | Err _ => JUndefined
  end.

(** The cursor sent with page [i]; [cursorAt (S i)] is the next cursor
    derived from page [i]. *)
Fixpoint cursorAt (n0 i : nat) : JsVal :=
  match i with
  | O => JUndefined
  | S j => nextOf (pageOf (n0 + j) (cursorAt n0 j))
  end.

Definition pageAt (n0 i : nat) : Result (JsVal * list JsVal) :=
  pageOf (n0 + i) (cursorAt n0 i).

Definition batchAt (n0 i : nat) : list JsVal :=
  match pageAt n0 i with
  | Ok (_, batch) => batch
  | Err _ => []
  end.

(** The exit tests of the loop at page [i]: an empty batch, or a next
    cursor that is falsy or equal to the cursor the page was asked with. *)
Definition stopsAt (n0 i : nat) : bool :=
  (length (batchAt n0 i) =? 0)%nat
  || negb (truthy (cursorAt n0 (S i)))
  || strict_eq (cursorAt n0 (S i)) (cursorAt n0 i).

(** The items of pages [0] to [j]. *)
Definition accumulated (n0 j : nat) : list JsVal :=
  concat (batchAt n0 <$> seq 0 (S j)).

(** From page [k] on the derived cursor no longer changes, and the pages
    up to there are well formed. *)
Definition cursorSettles (n0 k : nat) : Prop :=
  (forall i, (i <= S k)%nat -> exists pg, pageAt n0 i = Ok pg)
  /\ strict_eq (cursorAt n0 (S (S k))) (cursorAt n0 (S k)) = true.

(** [run] returns the items of pages [0] to [j], where [j <= S k] is the
    first page at which an exit test holds, whenever it is given fuel
    for [j + 1] pages. *)
Definition returnsAccumulated (run : nat -> M (list JsVal)) (n0 : nat)
    (p0 : Progress) (k : nat) : Prop :=
  exists j, (j <= S k)%nat
    /\ stopsAt n0 j = true
    /\ (forall i, (i < j)%nat -> stopsAt n0 i = false)
    /\ forall fuel, (j < fuel)%nat ->
         exists w', run fuel {| calls := n0; progress := p0 |}
                    = (Ret (accumulated n0 j), w')
                    /\ calls w' = (n0 + S j)%nat.

End Paginate.

(** ** A mock upstream that never signals the last page

    Every page holds one item and has [nextPage: true]; the cursor it
    yields is [m1], then [m2], then [m3] for ever. Recordings do not
    exist. *)
Definition obj (fields : list (string * JsVal)) : JsVal := JObj (list_to_map fields).

Definition mockCursor (n : nat) : string :=
  match n with
  | 0%nat => "m1"
  | 1%nat => "m2"
  | _ => "m3"
  end.

Definition mockUpstream : Upstream := fun n req =>
  match req with
  | ReqConversations _ _ _ =>
    Ok (obj [("conversations", JArr [obj [("id", JStr (mockCursor n))]]);
             ("nextPage", JBool true)])
  | ReqMessages _ _ _ =>
    Ok (obj [("messages", JArr [obj [("id", JStr "m")]]);
             ("lastMessageId", JStr (mockCursor n));
             ("nextPage", JBool true)])
  | ReqRecording _ _ =>
    Err {| err_status := Some 404; err_message := "Request failed with status code 404" |}
  end.

(** ** A small history used in the examples

    One conversation [c1] with three messages, delivered in the nested
    [{messages: {messages: [...]}}] shape: an SMS and two completed
    calls that share a timestamp. The recording of [m2] has a
    transcription, that of [m3] does not exist. Timestamps are epoch
    milliseconds; day 19737 is 2024-01-15. *)
Definition demoSms : JsVal :=
  obj [("id", JStr "m1"); ("messageType", JStr "SMS"); ("type", JStr "TYPE_SMS");
       ("direction", JStr "inbound"); ("dateAdded", JNum (19738 * msPerDay + 5));
       ("body", JStr "See you tomorrow")].

Definition demoCall (id direction : string) : JsVal :=
  obj [("id", JStr id); ("messageType", JStr "CALL"); ("type", JStr "TYPE_CALL");
       ("status", JStr "completed"); ("direction", JStr direction);
       ("dateAdded", JNum (19737 * msPerDay + 3600000)); ("callDuration", JNum 125)].

Definition serverError : JsError :=
  {| err_status := Some 500; err_message := "Request failed with status code 500" |}.

Definition notFoundError : JsError :=
  {| err_status := Some 404; err_message := "Request failed with status code 404" |}.

Definition demoTranscript : JsVal := JStr "Hello, this is Jane.".

(** [m3Lookup] is the answer to the recording lookup of [m3]. *)
Definition demoUpstreamWith (m3Lookup : Result JsVal) : Upstream := fun _ req =>
  match req with
  | ReqConversations _ _ None => Ok (obj [("conversations", JArr [obj [("id", JStr "c1")]])])
  | ReqConversations _ _ (Some _) => Ok (obj [("conversations", JArr [])])
  | ReqMessages _ _ None =>
    Ok (obj [("messages",
              obj [("messages", JArr [demoSms; demoCall "m2" "outbound";
                                      demoCall "m3" "inbound"])])])
  | ReqMessages _ _ (Some _) => Ok (obj [("messages", JArr [])])
  | ReqRecording _ messageId =>
    if strict_eq messageId (JStr "m2")
    then Ok (obj [("transcription", demoTranscript)])
    else m3Lookup
  end.

Definition demoUpstream : Upstream := demoUpstreamWith (Err notFoundError).

(** The same upstream with a recording that exists and is empty. *)
Definition emptyTranscriptUpstream : Upstream :=
  demoUpstreamWith (Ok (obj [("transcription", JStr EmptyString)])).

(** The same upstream with a failing recording service. *)
Definition brokenUpstream : Upstream := demoUpstreamWith (Err serverError).

(** A host at UTC with fixed-pitch text: every line is 1.2 times the font
    size high and no text is wrapped. *)
Definition demoHost : Host :=
  {| Date_parse := fun v =>
       match v with
       | JStr "2024-01-15" => Some (19737 * msPerDay)
       | JStr "2024-01-16" => Some (19738 * msPerDay)
       | _ => None
       end;
     LocalTZA := 0;
     formatDateShort := fun t =>
       match t with Some t => "day " +:+ pretty (t / msPerDay) | None => "Invalid Date" end;
     formatDateLong := fun t =>
       match t with Some t => "day " +:+ pretty (t / msPerDay) | None => "Invalid Date" end;
     formatClock := fun t =>
       match t with Some t => pretty (t mod msPerDay) +:+ " ms" | None => "Invalid Date" end;
     renderTime := 19800 * msPerDay;
     Number_toLocaleString := fun n => pretty n;
     ToString := fun v =>
       match v with JStr s => s | JNum n => pretty n | _ => "[object Object]" end;
     ToNumber := fun v => match v with JNum n => Some n | _ => None end;
     JSON_stringify := fun _ => "{}";
     convert := fun html => html;
     lineHeight := fun _ size => (size * 1.2)%Q;
     wrapLines := fun _ _ _ s => [s];
     writeError := fun _ => None |}.

Definition demoContact : Contact :=
  {| name := JStr "Jane Doe"; email := JNull; phone := JNull |}.

Definition demoJob : Job :=
  {| job_id := "3f2b8c1e-0000-4000-8000-000000000000"; contactId := JStr "contact";
     locationId := JStr "loc"; status := Processing; job_progress := PStarting;
     createdAt := 0; filePath := None; filename := None; error := None |}.

Definition startWorld : World := {| calls := 0; progress := PStarting |}.

Definition noRange : DateRange := {| startDate := JNull; endDate := JNull |}.

Definition january15 : DateRange :=
  {| startDate := JStr "2024-01-15"; endDate := JStr "2024-01-15" |}.

(** The messages of the demo upstream as fetched, after stage 3 and as
    returned: the two calls of January 15 in fetch order, then the SMS
    of January 16. *)
Definition demoFetched : list JsVal :=
  [demoSms; demoCall "m2" "outbound"; demoCall "m3" "inbound"].

Definition demoTranscribed : list JsVal :=
  [demoSms; setProp (demoCall "m2" "outbound") "transcription" demoTranscript;
   demoCall "m3" "inbound"].

Definition demoHistory : list JsVal :=
  [setProp (demoCall "m2" "outbound") "transcription" demoTranscript;
   demoCall "m3" "inbound"; demoSms].

Definition demoFetchedWorld : World :=
  {| calls := 4; progress := PFetchingMessages 1 1 (Some 3%nat) |}.

(** The world when stage 3 reaches the lookup of [m3], and when
    [fetchContactHistory] returns. *)
Definition demoLookupWorld : World := {| calls := 5; progress := PTranscriptions 2 1 |}.

Definition demoWorld : World := {| calls := 6; progress := PTranscriptions 2 2 |}.

(** The cover page of the demo contact with no message. *)
Definition demoCover : Doc :=
  match renderCoverPage demoHost newDocument demoContact [] with
  | Ok d => d
  | Err _ => newDocument
  end.

(** A job abandoned in [processing] more than an hour ago, with a file
    on disk. *)
Definition staleJob : Job :=
  {| job_id := "old"; contactId := JStr "contact"; locationId := JStr "loc";
     status := Processing; job_progress := PTranscriptions 2 1; createdAt := 1000;
     filePath := Some "exports/old.pdf"; filename := Some "old.pdf"; error := None |}.

Definition staleServer : Server :=
  {| jobs := {[ "old" := staleJob ]};
     disk := {[ "exports/old.pdf" := newDocument ]};
     trace := [] |}.

(** The same server with a second job, ten minutes old at time 3601001,
    whose export is on the disk as well. *)
Definition recentJob : Job :=
  {| job_id := "new"; contactId := JStr "contact"; locationId := JStr "loc";
     status := Complete; job_progress := PComplete 0; createdAt := 3001001;
     filePath := Some "exports/new.pdf"; filename := Some "new.pdf"; error := None |}.

Definition busyServer : Server :=
  {| jobs := <[ "new" := recentJob ]> (jobs staleServer);
     disk := <[ "exports/new.pdf" := demoCover ]> (disk staleServer);
     trace := [] |}.

(** ** More examples *)

(** An upstream without conversations, and one that is down. *)
Definition emptyUpstream : Upstream := fun _ _ => Ok (obj [("conversations", JArr [])]).

Definition downUpstream : Upstream := fun _ _ => Err serverError.

(** The demo host on a clock five hours behind UTC. *)
Definition westHost : Host :=
  {| Date_parse := Date_parse demoHost;
     LocalTZA := -18000000;
     formatDateShort := formatDateShort demoHost;
     formatDateLong := formatDateLong demoHost;
     formatClock := formatClock demoHost;
     renderTime := renderTime demoHost;
     Number_toLocaleString := Number_toLocaleString demoHost;
     ToString := ToString demoHost;
     ToNumber := ToNumber demoHost;
     JSON_stringify := JSON_stringify demoHost;
     convert := convert demoHost;
     lineHeight := lineHeight demoHost;
     wrapLines := wrapLines demoHost;
     writeError := writeError demoHost |}.

(** A message dated at noon UTC of a day: seven in the morning of the
    same day on that clock. *)
Definition noonSms (day : Z) : JsVal :=
  obj [("id", JStr "m5"); ("messageType", JStr "SMS"); ("type", JStr "TYPE_SMS");
       ("direction", JStr "inbound"); ("dateAdded", JNum (day * msPerDay + 43200000));
       ("body", JStr "Lunch?")].

(** A message of the evening of January 14 on that clock (00:30 UTC of
    January 15). *)
Definition lateSms : JsVal :=
  obj [("id", JStr "m4"); ("messageType", JStr "SMS"); ("type", JStr "TYPE_SMS");
       ("direction", JStr "inbound"); ("dateAdded", JNum (19737 * msPerDay + 1800000));
       ("body", JStr "Good night")].

Definition notADate : DateRange := {| startDate := JStr "soon"; endDate := JNull |}.

(** The export of the demo history, and the document of one SMS. *)
Definition demoExport : Outcome unit * Job * Disk :=
  runExport demoHost demoUpstream 5 "exports" demoJob demoContact noRange ∅.

(** An upstream whose only message has a number for its [type], which
    [channelLabel] cannot label: the cover page throws on it. *)
Definition oddMessage : JsVal :=
  obj [("id", JStr "m9"); ("messageType", JStr "SMS"); ("type", JNum 5);
       ("dateAdded", JNum (19737 * msPerDay)); ("body", JStr "?")].

Definition oddUpstream : Upstream := fun _ req =>
  match req with
  | ReqConversations _ _ None => Ok (obj [("conversations", JArr [obj [("id", JStr "c1")]])])
  | ReqConversations _ _ (Some _) => Ok (obj [("conversations", JArr [])])
  | ReqMessages _ _ None => Ok (obj [("messages", JArr [oddMessage])])
  | ReqMessages _ _ (Some _) => Ok (obj [("messages", JArr [])])
  | ReqRecording _ _ => Err notFoundError
  end.

Definition unrenderedExport : Outcome unit * Job * Disk :=
  runExport demoHost oddUpstream 5 "exports" demoJob demoContact noRange ∅.

Definition demoDocument : Doc :=
  match generatePDF demoHost demoContact [demoSms] with
  | Ok d => d
  | Err _ => newDocument
  end.

Definition demoStats : Stats :=
  match getMessageStats demoHost demoHistory with
  | Ok stats => stats
  | Err _ => {| dateRange := EmptyString; channels := [] |}
  end.

(** A token file with the tokens of one location, a server that accepts
    only the access token [new] and hands it out on every token request,
    and a database next to a read-only disk. *)
Definition demoTokens : JsVal :=
  obj [("access_token", JStr "old"); ("refresh_token", JStr "r1");
       ("userType", JStr "Location")].

Definition freshTokens : JsVal :=
  obj [("access_token", JStr "new"); ("refresh_token", JStr "r2");
       ("locationId", JStr "loc")].

Definition unauthorized : JsError :=
  {| err_status := Some 401; err_message := "Request failed with status code 401" |}.

Definition demoHttp : Ghl.Http := fun _ req =>
  match req with
  | Ghl.PostToken _ _ => Ok freshTokens
  | Ghl.Send authorization _ _ _ =>
    if String.eqb authorization "Bearer new"
    then Ok (obj [("contacts", JArr [])])
    else Err unauthorized
  end.

Definition storeOf (tokens : gmap string JsVal) : Store.State :=
  {| Store.pool := None;
     Store.files := {| Store.dataDir := true; Store.tokensFile := Store.Json tokens;
                       Store.readOnly := false |} |}.

Definition demoStore : Store.State := storeOf {[ "loc" := demoTokens ]}.

Definition demoClient : Ghl.State := {| Ghl.sent := []; Ghl.store := demoStore |}.

Definition freshClient : Ghl.State :=
  {| Ghl.sent := []; Ghl.store := storeOf {[ "loc" := freshTokens ]} |}.

Definition demoNow : string := "2024-01-15T12:00:00.000Z".

Definition databaseStore : Store.State :=
  {| Store.pool := Some {| Store.rows := ∅; Store.failure := None |};
     Store.files := {| Store.dataDir := false; Store.tokensFile := Store.NoFile;
                       Store.readOnly := true |} |}.

(** A conversation search with one dated conversation. *)
Definition datedConversation (dateAdded : JsVal) : JsVal :=
  obj [("id", JStr "c1"); ("dateAdded", dateAdded);
       ("lastMessageDate", JNum (19740 * msPerDay))].

Definition datedUpstream (dateAdded : JsVal) : Upstream := fun _ req =>
  match req with
  | ReqConversations _ _ None =>
    Ok (obj [("conversations", JArr [datedConversation dateAdded])])
  | _ => Ok (obj [("conversations", JArr [])])
  end.

(** An ISO format reduced to the day number and the time of day. *)
Definition demoISO (t : Z) : string :=
  pretty (t / msPerDay) +:+ "T" +:+ pretty (t mod msPerDay) +:+ "Z".

(** ** Vocabulary of the statements *)

(** The world after one more request. *)
Definition afterCall (w : World) : World :=
  {| calls := S (calls w); progress := progress w |}.

(** A lookup that yields no transcription: a response without a truthy
    [transcription], or a 404 / 422 error. *)
Definition emptyLookup (r : Result JsVal) : Prop :=
  match r with
  | Ok data => nullish data = false /\ truthy (get data "transcription") = false
  | Err err => isNotFound err = true
  end.

(** Two upstreams that differ only in how they say that a recording has
    no transcription. *)
Definition sameButEmptyLookups (up1 up2 : Upstream) : Prop :=
  forall n req,
    up1 n req = up2 n req
    \/ (exists loc mid, req = ReqRecording loc mid)
       /\ emptyLookup (up1 n req) /\ emptyLookup (up2 n req).

(** A lookup that does not fail the stage. *)
Definition benignLookup (r : Result JsVal) : Prop :=
  match r with
  | Ok data => nullish data = false
  | Err err => isNotFound err = true
  end.

(** [m'] is [m], or [m] with a truthy [transcription] assigned. *)
Definition attachedTo (m m' : JsVal) : Prop :=
  m' = m \/ exists t, truthy t = true /\ m' = setProp m "transcription" t.

(** The comparator is the difference of the keys on the elements of [l]. *)
Definition keyed {A} (cmp : A -> A -> Z) (key : A -> Z) (l : list A) : Prop :=
  forall a b, a ∈ l -> b ∈ l -> cmp a b = key a - key b.

Definition keyLe {A} (key : A -> Z) (a b : A) : Prop := key a <= key b.

Definition dateKey (host : Host) (m : JsVal) : Z := default 0 (timestamp host m).

(** A message is retained: at or after the start bound when a start date
    is given, and at or before the end bound when an end date is given. *)
Definition retained (host : Host) (range : DateRange) (m : JsVal) : bool :=
  (negb (truthy (startDate range))
   || dateGe (timestamp host m) (startBound host range))
  && (negb (truthy (endDate range))
      || dateLe (timestamp host m) (endBound host range)).

(** What a lookup makes of the answer of the upstream: the
    [transcription] of the recording, and null when that is falsy or
    the recording does not exist. *)
Definition transcriptionIn (answer : Result JsVal) : JsVal :=
  match answer with
  | Ok data => js_or (get data "transcription") JNull
  | Err _ => JNull
  end.

(** The message with the transcription assigned to it, when there is
    one. *)
Definition withTranscription (m transcription : JsVal) : JsVal :=
  if truthy transcription then setProp m "transcription" transcription else m.

(** The number of completed calls fetched before position [i]: the rank
    of a completed call at position [i] among the completed calls. *)
Definition callsBefore (fetched : list JsVal) (i : nat) : nat :=
  length (filter (fun m => isCompletedCall m = true) (take i fetched)).

(** The age of the job exceeds the retention window. *)
Definition expired (now : Z) (job : Job) : Prop := JOB_TTL_MS < now - createdAt job.

(** [d'] has the first [n] pages of [d] untouched, is drawing on a page
    after them, and has lost no page. *)
Definition keepsPages (n : nat) (d d' : Doc) : Prop :=
  take n (buffer d') = take n (buffer d)
  /\ (n <= page d')%nat
  /\ (length (buffer d) <= length (buffer d'))%nat.

(** The strings of the texts drawn on a page, in the order of drawing
    and without their positions. *)
Definition textsOf (pg : list Item) : list string :=
  pg ≫= fun it => match it with Text s _ _ => [s] | Stroke _ _ _ _ => [] end.

(** The cover of an empty history as one reads it: the title, the
    contact with the optional email and phone lines, and the three
    statistics, each text with the font and the size it is set in. *)
Definition contactLines (host : Host) (contact : Contact) : list string :=
  (if truthy (email contact) then ["Email: " +:+ ToString host (email contact)] else [])
  ++ (if truthy (phone contact) then ["Phone: " +:+ ToString host (phone contact)] else []).

Definition emptyCover (host : Host) (contact : Contact) : list (string * Q * string) :=
  [("Helvetica-Bold", 28%Q, "CONVERSATION EXPORT");
   ("Helvetica", 12%Q, "Contact");
   ("Helvetica-Bold", 20%Q, ToString host (js_or (name contact) (JStr "Unknown Contact")))]
  ++ ((fun line => ("Helvetica", 11%Q, line)) <$> contactLines host contact)
  ++ [("Helvetica", 10%Q, "Total Messages");
      ("Helvetica-Bold", 14%Q, Number_toLocaleString host 0);
      ("Helvetica", 10%Q, "Date Range");
      ("Helvetica-Bold", 14%Q, "N/A");
      ("Helvetica", 10%Q, "Export Date");
      ("Helvetica-Bold", 14%Q, exportDate host)].

(** The text fits on one line of the content width in its font. *)
Definition onOneLine (host : Host) (line : string * Q * string) : Prop :=
  wrapLines host line.1.1 line.1.2 CONTENT_WIDTH line.2 = [line.2].

(** The document is one page holding the texts [items]; the cursor is
    on that page, at most [limit] down, and the font is [font] at
    [size]. *)
Definition coverSoFar (items : list string) (limit : Q) (font : string) (size : Q)
    (d : Doc) : Prop :=
  (exists pg, buffer d = [pg] /\ textsOf pg = items)
  /\ page d = 0%nat
  /\ (docY d <= limit)%Q
  /\ fontName d = font /\ fontSize d = size.

(** An upstream that answers every page of an endpoint with a non-empty
    array under [field] and a truthy [nextPage]. *)
Definition alwaysMore (upstream : Upstream) (request : option JsVal -> Request)
    (field : string) : Prop :=
  forall n cursor, exists data items item,
    upstream n (request cursor) = Ok data
    /\ get data field = JArr (items ++ [item])
    /\ nullish item = false
    /\ truthy (get data "nextPage") = true.

(** The calendar day of a time value on the clock of the host, in days
    since the epoch. *)
Definition localDay (host : Host) (t : Z) : Z := (t + LocalTZA host) / msPerDay.

(** The message is dated, on the clock of the host, on a day from
    [first] to [last]. *)
Definition onDays (host : Host) (first last : Z) (m : JsVal) : bool :=
  match timestamp host m with
  | Some t => (first <=? localDay host t) && (localDay host t <=? last)
  | None => false
  end.

(** The characters a file name is made of. *)
Definition fileNameChars : list ascii :=
  String.list_ascii_of_string
    "ABCDEFGHIJKLMNOPQRSTUVWXYZabcdefghijklmnopqrstuvwxyz0123456789_-".

(** What [saveTokens] stores for [tokenData] at time [now], as it reads
    back. *)
Definition storedTokens (now : string) (tokenData : JsVal) : JsVal :=
  jsonRoundTrip (JObj (<["updatedAt" := JStr now]> (ownProperties tokenData))).

(** * Proofs *)

#[local] Set Warnings "-clear-no-such-hyp".

(** ** The run-time monad *)

Lemma bind_unfold {A B} (m : M A) (f : A -> M B) w :
  (m ≫= f) w = match m w with
               | (Ret a, w') => f a w'
               | (Throw e, w') => (Throw e, w')
               | (OutOfFuel, w') => (OutOfFuel, w')
               end.
Proof. reflexivity. Qed.

Lemma bind_Ret_inv {A B} (m : M A) (f : A -> M B) w b w' :
  (m ≫= f) w = (Ret b, w') ->
  exists a w1, m w = (Ret a, w1) /\ f a w1 = (Ret b, w').
Proof.
  unfold mbind, M_bind. destruct (m w) as [[a| |] w1]; [eauto|done..].
Qed.

Lemma liftR_Ok {A} (a : A) w : liftR (Ok a) w = (Ret a, w).
Proof. reflexivity. Qed.

Lemma apiCall_Ok up req w data :
  up (calls w) req = Ok data -> apiCall up req w = (Ret data, afterCall w).
Proof. intros H. unfold apiCall. by rewrite H. Qed.

Lemma apiCall_Err up req w e :
  up (calls w) req = Err e -> apiCall up req w = (Throw e, afterCall w).
Proof. intros H. unfold apiCall. by rewrite H. Qed.

(** ** Pagination *)

Section PaginateFacts.

Variable upstream : Upstream.
Variable ep : Endpoint.

(** The two loops of the source are the paginated fetcher at their
    endpoints. *)
Lemma fetchAllConversations_paginate loc contact fuel onProgress items cursor w :
  fetchAllConversations_loop upstream fuel loc contact onProgress items cursor w
  = paginate upstream (conversationsPages loc contact) fuel onProgress items cursor w.
Proof.
  revert items cursor w. induction fuel as [|fuel IH]; intros items cursor w; [done|].
  simpl. rewrite !bind_unfold.
  destruct (apiCall upstream _ w) as [[data| |] w1]; [|done..].
  rewrite !bind_unfold.
  destruct (prop data "conversations") as [dc|e]; simpl; [|done].
  rewrite !bind_unfold.
  destruct (emit onProgress _ w1) as [[[]| |] w2]; [|done..].
  destruct (length _ =? 0)%nat; [done|].
  destruct (negb _ || _); [done|]. apply IH.
Qed.

Lemma fetchAllMessages_paginate loc conv fuel onProgress items cursor w :
  fetchAllMessages_loop upstream fuel loc conv onProgress items cursor w
  = paginate upstream (messagesAsRead loc conv) fuel onProgress items cursor w.
Proof.
  revert items cursor w. induction fuel as [|fuel IH]; intros items cursor w; [done|].
  simpl. rewrite !bind_unfold.
  destruct (apiCall upstream _ w) as [[data| |] w1]; [|done..].
  rewrite !bind_unfold.
  destruct (prop data "messages") as [dm|e]; simpl; [|done].
  rewrite ?bind_unfold.
  destruct (spread (messagesBatch dm)) as [batch|e]; simpl; [|done].
  rewrite !bind_unfold.
  destruct (emit onProgress _ w1) as [[[]| |] w2]; [|done..].
  destruct (length _ =? 0)%nat; [done|].
  destruct (negb _ || _); [done|]. apply IH.
Qed.

Lemma pageAt_Ok n0 i data batch :
  pageAt upstream ep n0 i = Ok (data, batch) ->
  upstream (n0 + i)%nat (ep_request ep (cursorParam (cursorAt upstream ep n0 i))) = Ok data
  /\ ep_batch ep data = Ok batch
  /\ batchAt upstream ep n0 i = batch
  /\ cursorAt upstream ep n0 (S i) = ep_next ep data batch.
Proof.
  intros H. unfold batchAt. simpl. fold (pageAt upstream ep n0 i). rewrite H.
  unfold pageAt, pageOf in H.
  destruct (upstream _ _) as [data'|]; simpl in H; [|done].
  destruct (ep_batch ep data') as [batch'|] eqn:Hb; simpl in H; [|done].
  by simplify_eq.
Qed.

(** One turn of the loop on a well-formed page: it returns when an exit
    test holds and asks for the next page otherwise. *)
Lemma paginate_step n0 i data batch fuel (onProgress : bool)
    (items : list JsVal) (p : Progress) :
  pageAt upstream ep n0 i = Ok (data, batch) ->
  let p' := if onProgress then ep_progress ep (length (items ++ batch)) else p in
  paginate upstream ep (S fuel) onProgress items (cursorAt upstream ep n0 i)
    {| calls := (n0 + i)%nat; progress := p |}
  = if stopsAt upstream ep n0 i
    then (Ret (items ++ batch), {| calls := (n0 + S i)%nat; progress := p' |})
    else paginate upstream ep fuel onProgress (items ++ batch)
           (cursorAt upstream ep n0 (S i))
           {| calls := (n0 + S i)%nat; progress := p' |}.
Proof.
  intros Hpg p'. subst p'.
  destruct (pageAt_Ok _ _ _ _ Hpg) as (Hup & Hb & Hbatch & Hnext).
  unfold stopsAt. rewrite Hbatch, Hnext.
  cbn [paginate]. rewrite bind_unfold.
  rewrite (apiCall_Ok _ _ _ data) by done. unfold afterCall. cbn [calls progress].
  rewrite bind_unfold, Hb, liftR_Ok, bind_unfold.
  unfold emit. cbn [calls progress].
  rewrite Nat.add_succ_r.
  destruct onProgress, (length batch =? 0)%nat,
    (truthy (ep_next ep data batch)),
    (strict_eq (ep_next ep data batch) (cursorAt upstream ep n0 i));
    reflexivity.
Qed.

Lemma paginate_from onProgress n0 k :
  cursorSettles upstream ep n0 k ->
  forall d i, (i + d = S k)%nat -> forall p items,
  exists j, (i <= j <= S k)%nat
    /\ stopsAt upstream ep n0 j = true
    /\ (forall i', (i <= i' < j)%nat -> stopsAt upstream ep n0 i' = false)
    /\ forall fuel, (j - i < fuel)%nat ->
         exists w',
           paginate upstream ep fuel onProgress items (cursorAt upstream ep n0 i)
             {| calls := (n0 + i)%nat; progress := p |}
           = (Ret (items ++ concat (batchAt upstream ep n0 <$> seq i (S j - i))), w')
           /\ calls w' = (n0 + S j)%nat.
Proof.
  intros [Hok Heq]. induction d as [|d IH]; intros i Hi p items.
  - (* the last page allowed: its cursor repeats *)
    assert (i = S k) as -> by lia.
    destruct (Hok (S k)) as [[data batch] Hpg]; [lia|].
    assert (stopsAt upstream ep n0 (S k) = true) as Hstop.
    { unfold stopsAt. rewrite Heq. by rewrite orb_true_r. }
    exists (S k). split; [lia|]. split; [exact Hstop|]. split; [intros; lia|].
    intros [|fuel] Hfuel; [lia|].
    rewrite (paginate_step n0 (S k) data batch fuel onProgress items p Hpg).
    rewrite Hstop.
    destruct (pageAt_Ok _ _ _ _ Hpg) as (_ & _ & Hbatch & _).
    replace (S (S k) - S k)%nat with 1%nat by lia. simpl.
    rewrite Hbatch, app_nil_r. by eexists.
  - destruct (Hok i) as [[data batch] Hpg]; [lia|].
    destruct (pageAt_Ok _ _ _ _ Hpg) as (_ & _ & Hbatch & _).
    destruct (stopsAt upstream ep n0 i) eqn:Hstop.
    + exists i. split; [lia|]. split; [done|]. split; [intros; lia|].
      intros [|fuel] Hfuel; [lia|].
      rewrite (paginate_step n0 i data batch fuel onProgress items p Hpg).
      rewrite Hstop.
      replace (S i - i)%nat with 1%nat by lia. simpl.
      rewrite Hbatch, app_nil_r. by eexists.
    + destruct (IH (S i) ltac:(lia) (if onProgress
                  then ep_progress ep (length (items ++ batch)) else p)
                  (items ++ batch)) as (j & Hj & Hstopj & Hfirst & Hrun).
      exists j. split; [lia|]. split; [done|]. split.
      { intros i' Hi'. destruct (decide (i' = i)) as [->|]; [done|].
        apply Hfirst. lia. }
      intros [|fuel] Hfuel; [lia|].
      rewrite (paginate_step n0 i data batch fuel onProgress items p Hpg), Hstop.
      destruct (Hrun fuel ltac:(lia)) as (w' & Hw' & Hcalls).
      exists w'. split; [|done].
      rewrite Hw'.
      replace (S j - i)%nat with (S (S j - S i))%nat by lia.
      cbn [seq fmap list_fmap concat]. by rewrite Hbatch, <- app_assoc.
Qed.

(** A loop whose derived cursor settles returns everything fetched up to
    the first page that meets an exit test. *)
Lemma paginate_returns onProgress n0 p0 k :
  cursorSettles upstream ep n0 k ->
  returnsAccumulated upstream ep
    (fun fuel => paginate upstream ep fuel onProgress [] JUndefined) n0 p0 k.
Proof.
  intros Hs.
  destruct (paginate_from onProgress n0 k Hs (S k) 0%nat ltac:(lia) p0 [])
    as (j & Hj & Hstop & Hfirst & Hrun).
  exists j. split; [lia|]. split; [done|]. split; [intros; apply Hfirst; lia|].
  intros fuel Hfuel. destruct (Hrun fuel ltac:(lia)) as (w' & Hw' & Hcalls).
  exists w'. split; [|done]. revert Hw'.
  rewrite Nat.add_0_r, Nat.sub_0_r. done.
Qed.

End PaginateFacts.

(** The loop of the source reads a page of messages as [pageMessages]
    does. *)
Lemma messagesPages_read loc conv data batch :
  ep_batch (messagesPages loc conv) data = Ok batch ->
  ep_batch (messagesAsRead loc conv) data = Ok batch.
Proof.
  cbn [ep_batch messagesPages messagesAsRead]. unfold pageMessages.
  destruct data as [| | | | | |fields]; try done.
  unfold prop, messagesBatch, get. cbn [nullish mbind].
  destruct (fields !! "messages") as [[| | | | |items|nested]|]; try done.
  cbn. by destruct (nested !! "messages") as [[| | | | |items'|]|].
Qed.

(** Two endpoints that differ only in how they read a batch, the second
    reading every page of the first as the first does, have the same
    pages as long as those of the first are well formed. *)
Section Reading.

Variable upstream : Upstream.
Variables pages loop : Endpoint.
Hypothesis Hrequest : ep_request loop = ep_request pages.
Hypothesis Hnext : ep_next loop = ep_next pages.
Hypothesis Hread : forall data batch,
  ep_batch pages data = Ok batch -> ep_batch loop data = Ok batch.

Lemma pageOf_read n cursor pg :
  pageOf upstream pages n cursor = Ok pg -> pageOf upstream loop n cursor = Ok pg.
Proof.
  unfold pageOf. rewrite Hrequest.
  destruct (upstream _ _) as [data|]; simpl; [|done].
  destruct (ep_batch pages data) as [batch|] eqn:Hb; simpl; [|done].
  by rewrite (Hread _ _ Hb).
Qed.

Lemma pageAt_read n0 i :
  (forall i', (i' <= i)%nat -> exists pg, pageAt upstream pages n0 i' = Ok pg) ->
  cursorAt upstream loop n0 i = cursorAt upstream pages n0 i
  /\ pageAt upstream loop n0 i = pageAt upstream pages n0 i
  /\ cursorAt upstream loop n0 (S i) = cursorAt upstream pages n0 (S i).
Proof.
  induction i as [|i IH]; intros Hok.
  - destruct (Hok 0%nat) as [pg Hpg]; [lia|].
    assert (pageAt upstream loop n0 0 = pageAt upstream pages n0 0) as Hp.
    { rewrite Hpg. by apply pageOf_read. }
    split; [done|]. split; [done|].
    change (cursorAt upstream loop n0 1)
      with (nextOf loop (pageAt upstream loop n0 0)).
    change (cursorAt upstream pages n0 1)
      with (nextOf pages (pageAt upstream pages n0 0)).
    rewrite Hp. unfold nextOf. by rewrite Hnext.
  - destruct IH as (_ & _ & Hc); [intros; apply Hok; lia|].
    destruct (Hok (S i)) as [pg Hpg]; [lia|].
    assert (pageAt upstream loop n0 (S i) = pageAt upstream pages n0 (S i)) as Hp.
    { rewrite Hpg. unfold pageAt. rewrite Hc. by apply pageOf_read. }
    split; [done|]. split; [done|].
    change (cursorAt upstream loop n0 (S (S i)))
      with (nextOf loop (pageAt upstream loop n0 (S i))).
    change (cursorAt upstream pages n0 (S (S i)))
      with (nextOf pages (pageAt upstream pages n0 (S i))).
    rewrite Hp. unfold nextOf. by rewrite Hnext.
Qed.

Lemma returns_read run n0 p0 k :
  cursorSettles upstream pages n0 k ->
  (cursorSettles upstream loop n0 k -> returnsAccumulated upstream loop run n0 p0 k) ->
  returnsAccumulated upstream pages run n0 p0 k.
Proof.
  intros [Hok Heq] Hloop.
  assert (forall i, (i <= S k)%nat ->
            batchAt upstream loop n0 i = batchAt upstream pages n0 i
            /\ stopsAt upstream loop n0 i = stopsAt upstream pages n0 i) as Hsame.
  { intros i Hi.
    destruct (pageAt_read n0 i) as (Hc & Hp & Hc'); [intros; apply Hok; lia|].
    unfold stopsAt, batchAt. by rewrite Hp, Hc, Hc'. }
  destruct Hloop as (j & Hj & Hstop & Hfirst & Hrun).
  { split.
    - intros i Hi. destruct (pageAt_read n0 i) as (_ & -> & _); [|by apply Hok].
      intros; apply Hok; lia.
    - destruct (pageAt_read n0 (S k)) as (-> & _ & ->); [|done].
      intros; by apply Hok. }
  exists j. split; [done|].
  split; [by rewrite <- (proj2 (Hsame j Hj))|].
  split; [intros i Hi; rewrite <- (proj2 (Hsame i ltac:(lia))); by apply Hfirst|].
  intros fuel Hfuel. destruct (Hrun fuel Hfuel) as (w' & Hw' & Hcalls).
  exists w'. split; [|done]. rewrite Hw'. do 2 f_equal.
  unfold accumulated. f_equal. apply list_fmap_ext.
  intros i' x Hx. apply lookup_seq in Hx as [-> Hx].
  apply Hsame. simpl. lia.
Qed.

End Reading.


Lemma mock_conversations_settle loc c :
  cursorSettles mockUpstream (conversationsPages loc c) 0 2.
Proof.
  split.
  - intros i Hi.
    do 4 (destruct i as [|i]; [by eexists|]). lia.
  - reflexivity.
Defined.

Lemma mock_messages_settle loc c :
  cursorSettles mockUpstream (messagesPages loc c) 0 2.
Proof.
  split.
  - intros i Hi.
    do 4 (destruct i as [|i]; [by eexists|]). lia.
  - reflexivity.
Defined.


(** On the same mock the revision that trusts [nextPage] never leaves its
    loops: whatever the fuel, it runs out. *)
Lemma flag_revision_conversations_never_return fuel loc c onProgress items cursor w :
  exists w', FlagRevision.fetchAllConversations_loop mockUpstream fuel loc c
               onProgress items cursor w = (OutOfFuel, w').
Proof.
  revert items cursor w. induction fuel as [|fuel IH]; intros items cursor w.
  - by eexists.
  - cbn [FlagRevision.fetchAllConversations_loop].
    rewrite bind_unfold. unfold apiCall. cbn [mockUpstream].
    rewrite bind_unfold. cbn.
    rewrite lookup_insert_eq, lookup_insert_ne, lookup_insert_eq by done.
    cbn. rewrite !bind_unfold. cbn.
    destruct onProgress; apply IH.
Qed.

Lemma flag_revision_messages_never_return fuel loc c onProgress items cursor w :
  exists w', FlagRevision.fetchAllMessages_loop mockUpstream fuel loc c
               onProgress items cursor w = (OutOfFuel, w').
Proof.
  revert items cursor w. induction fuel as [|fuel IH]; intros items cursor w.
  - by eexists.
  - cbn [FlagRevision.fetchAllMessages_loop].
    rewrite bind_unfold. unfold apiCall. cbn [mockUpstream].
    rewrite bind_unfold. cbn.
    rewrite lookup_insert_eq. cbn. rewrite !bind_unfold. cbn.
    rewrite lookup_insert_ne, lookup_insert_ne, lookup_insert_eq by done.
    rewrite lookup_insert_ne, lookup_insert_eq by done.
    cbn. rewrite !bind_unfold.
    destruct onProgress, (calls w) as [|[|n]]; cbn; apply IH.
Qed.

(** ** Lists *)

Lemma filter_none {A} (P : A -> Prop) `{forall x, Decision (P x)} (l : list A) :
  Forall (fun x => ~ P x) l -> filter P l = [].
Proof.
  induction 1 as [|x l Hx _ IH]; [done|].
  by rewrite filter_cons_False.
Qed.

Lemma filter_all {A} (P : A -> Prop) `{forall x, Decision (P x)} (l : list A) :
  Forall P l -> filter P l = l.
Proof.
  induction 1 as [|x l Hx _ IH]; [done|].
  by rewrite filter_cons_True, IH.
Qed.

Lemma filter_ext_in {A} (P1 P2 : A -> Prop) `{forall x, Decision (P1 x)}
    `{forall x, Decision (P2 x)} (l : list A) :
  (forall x, x ∈ l -> P1 x <-> P2 x) -> filter P1 l = filter P2 l.
Proof.
  induction l as [|x l IH]; intros Hext; [done|].
  rewrite !filter_cons, IH by (intros y Hy; apply Hext; by right).
  destruct (decide (P1 x)) as [H1|H1], (decide (P2 x)) as [H2|H2]; try done.
  - destruct H2. apply Hext; [left|done].
  - destruct H1. apply Hext; [left|done].
Qed.

Lemma StronglySorted_sublist {A} (R : relation A) (l1 l2 : list A) :
  l1 `sublist_of` l2 -> StronglySorted R l2 -> StronglySorted R l1.
Proof.
  intros Hsub Hs. revert l1 Hsub.
  induction Hs as [|x l2 Hs IH Hall]; intros l1 Hsub.
  - apply sublist_nil_r in Hsub as ->. constructor.
  - inversion Hsub as [|y k1 k2 Hk|y k1 k2 Hk]; subst.
    + constructor; [by apply IH|].
      rewrite Forall_forall in *. intros z Hz. apply Hall.
      by eapply elem_of_sublist.
    + by apply IH.
Qed.

(** ** [Array.prototype.sort] with a comparator that subtracts keys *)

Section SortFacts.

Context {A : Type} (cmp : A -> A -> Z) (key : A -> Z).

Lemma sortInsert_Permutation x l : sortInsert cmp x l ≡ₚ x :: l.
Proof.
  induction l as [|y l IH]; simpl; [done|].
  destruct (cmp y x <=? 0); [|done].
  rewrite IH. apply Permutation_swap.
Qed.

Lemma fold_sortInsert_Permutation l acc :
  fold_left (fun sorted x => sortInsert cmp x sorted) l acc ≡ₚ acc ++ l.
Proof.
  revert acc. induction l as [|x l IH]; intros acc; simpl.
  - by rewrite app_nil_r.
  - rewrite IH, sortInsert_Permutation.
    by rewrite (Permutation_middle acc l x).
Qed.

Lemma Array_sort_Permutation l : Array_sort cmp l ≡ₚ l.
Proof. unfold Array_sort. by rewrite fold_sortInsert_Permutation. Qed.

Lemma sortInsert_sorted x l :
  (forall y, y ∈ l -> cmp y x = key y - key x) ->
  StronglySorted (keyLe key) l ->
  StronglySorted (keyLe key) (sortInsert cmp x l).
Proof.
  intros Hcmp Hs. induction Hs as [|y l Hs IH Hall]; simpl.
  - repeat constructor.
  - destruct (Z.leb_spec (cmp y x) 0) as [Hle|Hgt].
    + constructor.
      * apply IH. intros z Hz. apply Hcmp. by right.
      * rewrite sortInsert_Permutation. constructor; [|done].
        unfold keyLe. rewrite Hcmp in Hle by left. lia.
    + rewrite Hcmp in Hgt by left.
      constructor; [by constructor|].
      constructor; [unfold keyLe; lia|].
      eapply Forall_impl; [exact Hall|]. unfold keyLe. intros z ?. lia.
Qed.

(** An element goes behind the elements with its key. *)
Lemma sortInsert_filter (t : Z) x l :
  (forall y, y ∈ l -> cmp y x = key y - key x) ->
  StronglySorted (keyLe key) l ->
  filter (fun a => key a = t) (sortInsert cmp x l)
  = filter (fun a => key a = t) l ++ filter (fun a => key a = t) [x].
Proof.
  intros Hcmp Hs. induction Hs as [|y l Hs IH Hall]; simpl; [done|].
  destruct (Z.leb_spec (cmp y x) 0) as [Hle|Hgt].
  - rewrite !filter_cons, IH by (intros z Hz; apply Hcmp; by right).
    by destruct (decide (key y = t)).
  - rewrite Hcmp in Hgt by left.
    rewrite (filter_cons _ x). destruct (decide (key x = t)) as [Hx|Hx].
    + (* everything from y on has a larger key than x *)
      assert (filter (fun a => key a = t) (y :: l) = []) as ->.
      { apply filter_none.
        constructor; [lia|].
        eapply Forall_impl; [exact Hall|]. unfold keyLe. intros z ?. lia. }
      by rewrite (filter_cons_True _ x []) by done.
    + rewrite (filter_cons_False _ x []) by done.
      by rewrite filter_nil, app_nil_r.
Qed.

Lemma fold_sortInsert_spec l acc :
  keyed cmp key (acc ++ l) ->
  StronglySorted (keyLe key) acc ->
  let out := fold_left (fun sorted x => sortInsert cmp x sorted) l acc in
  StronglySorted (keyLe key) out
  /\ forall t, filter (fun a => key a = t) out
               = filter (fun a => key a = t) acc ++ filter (fun a => key a = t) l.
Proof.
  revert acc. induction l as [|x l IH]; intros acc Hk Hs; simpl.
  - split; [done|]. intros t. by rewrite filter_nil, app_nil_r.
  - assert (forall y, y ∈ acc -> cmp y x = key y - key x) as Hx.
    { intros y Hy. apply Hk; apply elem_of_app; [by left|right; left]. }
    assert (forall a, a ∈ sortInsert cmp x acc ++ l -> a ∈ acc ++ x :: l) as Hin.
    { intros a. rewrite !elem_of_app, sortInsert_Permutation, !elem_of_cons. tauto. }
    destruct (IH (sortInsert cmp x acc)) as [Hsorted Hfilter].
    + intros a b Ha Hb. apply Hk; by apply Hin.
    + by apply sortInsert_sorted.
    + split; [done|]. intros t.
      rewrite Hfilter, sortInsert_filter by done.
      rewrite <- app_assoc. f_equal.
      rewrite (filter_cons _ x l), (filter_cons _ x []).
      by destruct (decide (key x = t)).
Qed.

Lemma Array_sort_sorted l :
  keyed cmp key l -> StronglySorted (keyLe key) (Array_sort cmp l).
Proof. intros Hk. apply (fold_sortInsert_spec l []); [done|constructor]. Qed.

Lemma Array_sort_stable l (t : Z) :
  keyed cmp key l ->
  filter (fun a => key a = t) (Array_sort cmp l) = filter (fun a => key a = t) l.
Proof. intros Hk. apply (fold_sortInsert_spec l []); [done|constructor]. Qed.

End SortFacts.

(** ** The aggregator *)

Section History.

Variable host : Host.
Variable upstream : Upstream.

Lemma byDateAdded_keyed (l : list JsVal) :
  Forall (fun m => is_Some (timestamp host m)) l ->
  keyed (byDateAdded host) (dateKey host) l.
Proof.
  intros Hvalid a b Ha Hb. rewrite Forall_forall in Hvalid.
  destruct (Hvalid a Ha) as [ta Hta], (Hvalid b Hb) as [tb Htb].
  unfold byDateAdded, dateKey. by rewrite Hta, Htb.
Qed.

(** The pieces of a run of [fetchContactHistory] that returns. *)
Lemma fetchContactHistory_Ret_inv fuel loc contact onProgress w messages w' :
  fetchContactHistory host upstream fuel loc contact onProgress w = (Ret messages, w') ->
  exists fetched w1 transcribed,
    fetchEverything upstream fuel loc contact onProgress w = (Ret fetched, w1)
    /\ transcribe upstream loc onProgress fetched w1 = (Ret transcribed, w')
    /\ messages = Array_sort (byDateAdded host) transcribed.
Proof.
  unfold fetchContactHistory. intros H.
  apply bind_Ret_inv in H as (fetched & w1 & Hfetch & H).
  apply bind_Ret_inv in H as (transcribed & w2 & Htr & H).
  unfold mret, M_ret in H. injection H as <- <-.
  by exists fetched, w1, transcribed.
Qed.

(** C3. The sequence [fetchContactHistory] returns, its messages carrying
    valid dates, is in non-decreasing order of timestamp, and is the
    sequence accumulated by stages 1 to 3 (in fetch order) rearranged:
    the messages with any one timestamp are in the order in which they
    were fetched. *)
Theorem history_sorted_by_date_stable fuel loc contact onProgress w messages w' :
  fetchContactHistory host upstream fuel loc contact onProgress w = (Ret messages, w') ->
  Forall (fun m => is_Some (timestamp host m)) messages ->
  StronglySorted (fun a b => dateLe (timestamp host a) (timestamp host b) = true) messages
  /\ exists fetched w1 transcribed,
       fetchEverything upstream fuel loc contact onProgress w = (Ret fetched, w1)
       /\ transcribe upstream loc onProgress fetched w1 = (Ret transcribed, w')
       /\ messages ≡ₚ transcribed
       /\ forall t, filter (fun m => timestamp host m = Some t) messages
                    = filter (fun m => timestamp host m = Some t) transcribed.
Proof.
  intros Hrun Hvalid.
  destruct (fetchContactHistory_Ret_inv _ _ _ _ _ _ _ Hrun)
    as (fetched & w1 & transcribed & Hfetch & Htr & ->).
  pose proof (Array_sort_Permutation (byDateAdded host) transcribed) as Hperm.
  assert (Forall (fun m => is_Some (timestamp host m)) transcribed) as Hvalid'.
  { by rewrite <- Hperm. }
  pose proof (byDateAdded_keyed _ Hvalid') as Hk.
  assert (forall l t, Forall (fun m => is_Some (timestamp host m)) l ->
            filter (fun m => timestamp host m = Some t) l
            = filter (fun m => dateKey host m = t) l) as Hfilter.
  { intros l t Hl. apply filter_ext_in. intros m Hm.
    rewrite Forall_forall in Hl. destruct (Hl m Hm) as [tm Htm].
    unfold dateKey. rewrite Htm. simpl. split; [by intros [= ->]|by intros ->]. }
  split.
  - pose proof (Array_sort_sorted _ _ _ Hk) as Hs.
    clear Hrun Hperm. revert Hvalid.
    induction Hs as [|m l Hs IH Hall]; intros Hvalid; constructor.
    + apply IH. by inversion Hvalid.
    + inversion Hvalid as [|?? [tm Htm] Hl]; subst.
      rewrite Forall_forall in Hall, Hl. apply Forall_forall. intros b Hb.
      destruct (Hl b Hb) as [tb Htb]. specialize (Hall b Hb).
      unfold keyLe, dateKey in Hall. rewrite Htm, Htb in Hall |- *. simpl in *.
      by apply Z.leb_le.
  - exists fetched, w1, transcribed. split_and!; try done.
    intros t. rewrite !Hfilter by done. by apply Array_sort_stable.
Qed.

End History.

(** ** Stage 3: what [transcribeCalls] does to the messages *)

Lemma get_setProp_ne m k k' x : k <> k' -> get (setProp m k' x) k = get m k.
Proof.
  intros Hne. destruct m; try done. simpl. by rewrite lookup_insert_ne.
Qed.

Lemma setProp_setProp m k x y : setProp (setProp m k x) k y = setProp m k y.
Proof. destruct m; try done. simpl. by rewrite insert_insert_eq. Qed.

Lemma attachedTo_get m m' k :
  attachedTo m m' -> k <> "transcription" -> get m' k = get m k.
Proof.
  intros [->|(t & _ & ->)] Hk; [done|]. by apply get_setProp_ne.
Qed.

Lemma attachedTo_trans m m1 m2 :
  attachedTo m m1 -> attachedTo m1 m2 -> attachedTo m m2.
Proof.
  intros [->|(t1 & Ht1 & ->)] [->|(t2 & Ht2 & ->)]; try (by left).
  - right. eauto.
  - right. eauto.
  - right. exists t2. by rewrite setProp_setProp.
Qed.

Lemma attach_length heap r t : length (attach heap r t) = length heap.
Proof. unfold attach. destruct (truthy t); [apply length_insert|done]. Qed.

Lemma attach_lookup_ne heap r t j : j <> r -> attach heap r t !! j = heap !! j.
Proof.
  intros Hne. unfold attach. destruct (truthy t); [|done].
  by rewrite list_lookup_insert_ne.
Qed.

Lemma attach_lookup heap r t j m :
  heap !! j = Some m ->
  exists m', attach heap r t !! j = Some m' /\ attachedTo m m'.
Proof.
  intros Hm. unfold attach. destruct (truthy t) eqn:Ht.
  - destruct (decide (j = r)) as [->|Hne].
    + rewrite list_lookup_insert_eq by (by eapply lookup_lt_Some).
      rewrite Hm. simpl. eexists. split; [done|]. right. eauto.
    + rewrite list_lookup_insert_ne by done. exists m. split; [done|by left].
  - exists m. split; [done|by left].
Qed.

Section Transcription.

Variable upstream : Upstream.

Lemma transcribeCalls_frame loc onProgress total i refs heap w heap' w' :
  transcribeCalls upstream loc onProgress total i refs heap w = (Ret heap', w') ->
  length heap' = length heap
  /\ forall j,
       (j ∉ refs -> heap' !! j = heap !! j)
       /\ (forall m, heap !! j = Some m ->
             exists m', heap' !! j = Some m' /\ attachedTo m m').
Proof.
  revert i heap w. induction refs as [|r refs IH]; intros i heap w Hrun.
  - injection Hrun as <- <-. split; [done|]. intros j. split; [done|].
    intros m Hm. exists m. split; [done|by left].
  - cbn [transcribeCalls] in Hrun.
    apply bind_Ret_inv in Hrun as (t & w1 & Ht & Hrun).
    apply bind_Ret_inv in Hrun as ([] & w2 & _ & Hrun).
    apply IH in Hrun as [Hlen Hframe].
    split; [by rewrite Hlen, attach_length|].
    intros j. destruct (Hframe j) as [Hout Hin]. split.
    + intros Hj. rewrite Hout by (intros ?; apply Hj; by right).
      apply attach_lookup_ne. intros ->. apply Hj. by left.
    + intros m Hm.
      destruct (attach_lookup heap r t j m Hm) as (m1 & Hm1 & Hatt1).
      destruct (Hin m1 Hm1) as (m' & Hm' & Hatt').
      exists m'. split; [done|]. by eapply attachedTo_trans.
Qed.

Lemma selectCalls_spec r l refs :
  selectCalls r l = Ok refs ->
  Forall (fun m => nullish m = false) l
  /\ forall j, j ∈ refs ->
       exists m, (r <= j)%nat /\ l !! (j - r)%nat = Some m /\ isCompletedCall m = true.
Proof.
  revert r refs. induction l as [|m l IH]; intros r refs Hsel; simpl in Hsel.
  - injection Hsel as <-. split; [constructor|]. intros j Hj. by apply elem_of_nil in Hj.
  - unfold prop in Hsel. destruct (nullish m) eqn:Hm; [done|].
    destruct (selectCalls (S r) l) as [refs'|] eqn:Hrest; [|done].
    destruct (IH _ _ Hrest) as [Hall Hrefs].
    injection Hsel as <-. split; [by constructor|].
    intros j Hj.
    assert (j = r /\ isCompletedCall m = true \/ j ∈ refs') as [[-> Hc]|Hj'].
    { destruct (isCompletedCall m); [|by right].
      apply elem_of_cons in Hj as [->|?]; [by left|by right]. }
    + exists m. rewrite Nat.sub_diag. done.
    + destruct (Hrefs j Hj') as (m' & Hle & Hm' & Hc).
      exists m'. split; [lia|]. split; [|done].
      replace (j - r)%nat with (S (j - S r)) by lia. done.
Qed.

(** The frame of stage 3: positions are kept, a message is either left
    as fetched or, being a completed call with a direction, given a
    truthy [transcription]. *)
Lemma transcribe_frame loc onProgress fetched w transcribed w' :
  transcribe upstream loc onProgress fetched w = (Ret transcribed, w') ->
  length transcribed = length fetched
  /\ forall i m, fetched !! i = Some m ->
       exists m', transcribed !! i = Some m'
         /\ (m' = m
             \/ isCompletedCall m = true
                /\ exists t, truthy t = true /\ m' = setProp m "transcription" t).
Proof.
  unfold transcribe. intros Hrun.
  apply bind_Ret_inv in Hrun as (refs & w1 & Hsel & Hrun).
  destruct (selectCalls 0 fetched) as [refs'|] eqn:Hrefs; [|done].
  injection Hsel as <- <-.
  apply transcribeCalls_frame in Hrun as [Hlen Hframe].
  destruct (selectCalls_spec _ _ _ Hrefs) as [_ Hcalls].
  split; [done|]. intros i m Hm.
  destruct (Hframe i) as [Hout Hin].
  destruct (Hin m Hm) as (m' & Hm' & Hatt).
  exists m'. split; [done|].
  destruct (decide (i ∈ refs')) as [Hi|Hi].
  - destruct (Hcalls i Hi) as (m0 & _ & Hm0 & Hc).
    rewrite Nat.sub_0_r, Hm in Hm0. injection Hm0 as <-.
    destruct Hatt as [->|Hatt]; [by left|by right].
  - left. rewrite (Hout Hi), Hm in Hm'. congruence.
Qed.

(** What stage 3 returns holds no null or undefined element. *)
Lemma transcribe_not_nullish loc onProgress fetched w transcribed w' :
  transcribe upstream loc onProgress fetched w = (Ret transcribed, w') ->
  Forall (fun m => nullish m = false) transcribed.
Proof.
  intros Hrun. destruct (transcribe_frame _ _ _ _ _ _ Hrun) as [Hlen Hframe].
  unfold transcribe in Hrun.
  apply bind_Ret_inv in Hrun as (refs & w1 & Hsel & _).
  destruct (selectCalls 0 fetched) as [refs'|] eqn:Hrefs; [|done].
  destruct (selectCalls_spec _ _ _ Hrefs) as [Hobj _].
  rewrite Forall_forall in Hobj. apply Forall_forall. intros m' Hm'.
  apply list_elem_of_lookup in Hm' as [i Hi].
  destruct (lookup_lt_is_Some_2 fetched i) as [m Hm].
  { rewrite <- Hlen. by eapply lookup_lt_Some. }
  destruct (Hframe i m Hm) as (m'' & Hm'' & Hatt).
  assert (m'' = m') as -> by congruence.
  assert (nullish m = false) as Hnull.
  { apply Hobj. apply list_elem_of_lookup. eauto. }
  destruct Hatt as [->|(_ & t & _ & ->)]; [done|]. by destruct m.
Qed.

End Transcription.

Section Frame.

Variable host : Host.
Variable upstream : Upstream.

(** C9. Between what was fetched and what [fetchContactHistory] returns,
    every message keeps its position in the accumulated sequence and
    every field other than [transcription]; a message is either exactly
    as fetched, or it is a completed call with a direction and differs
    by the assignment of a truthy [transcription]. The result is that
    sequence, reordered. *)
Theorem aggregation_only_attaches_transcription
    fuel loc contact onProgress w messages w' :
  fetchContactHistory host upstream fuel loc contact onProgress w = (Ret messages, w') ->
  exists fetched w1 transcribed,
    fetchEverything upstream fuel loc contact onProgress w = (Ret fetched, w1)
    /\ messages ≡ₚ transcribed
    /\ length transcribed = length fetched
    /\ forall i m, fetched !! i = Some m ->
         exists m', transcribed !! i = Some m'
           /\ (forall k, k <> "transcription" -> get m' k = get m k)
           /\ (m' = m
               \/ isCompletedCall m = true
                  /\ exists t, truthy t = true /\ m' = setProp m "transcription" t).
Proof.
  intros Hrun.
  destruct (fetchContactHistory_Ret_inv _ _ _ _ _ _ _ _ _ Hrun)
    as (fetched & w1 & transcribed & Hfetch & Htr & ->).
  exists fetched, w1, transcribed. split; [done|].
  split; [apply Array_sort_Permutation|].
  destruct (transcribe_frame _ _ _ _ _ _ _ Htr) as [Hlen Hframe].
  split; [done|]. intros i m Hm.
  destruct (Hframe i m Hm) as (m' & Hm' & Hatt).
  exists m'. split; [done|]. split; [|done].
  intros k Hk. apply attachedTo_get; [|done].
  destruct Hatt as [->|(_ & t & Ht & ->)]; [by left|right; eauto].
Qed.

End Frame.

(** ** Transcription lookups *)

Section Lookup.

Variable upstream : Upstream.

Lemma fetchTranscription_Ok loc mid w data :
  upstream (calls w) (ReqRecording loc mid) = Ok data ->
  nullish data = false ->
  fetchTranscription upstream loc mid w
  = (Ret (js_or (get data "transcription") JNull), afterCall w).
Proof.
  intros Hup Hdata. unfold fetchTranscription, tryCatch.
  rewrite bind_unfold, (apiCall_Ok _ _ _ data) by done.
  rewrite bind_unfold. unfold prop. by rewrite Hdata.
Qed.

Lemma fetchTranscription_not_found loc mid w err :
  upstream (calls w) (ReqRecording loc mid) = Err err ->
  isNotFound err = true ->
  fetchTranscription upstream loc mid w = (Ret JNull, afterCall w).
Proof.
  intros Hup Herr. unfold fetchTranscription, tryCatch.
  rewrite bind_unfold, (apiCall_Err _ _ _ err) by done.
  by rewrite Herr.
Qed.

Lemma fetchTranscription_rethrows loc mid w err :
  upstream (calls w) (ReqRecording loc mid) = Err err ->
  isNotFound err = false ->
  fetchTranscription upstream loc mid w = (Throw err, afterCall w).
Proof.
  intros Hup Herr. unfold fetchTranscription, tryCatch.
  rewrite bind_unfold, (apiCall_Err _ _ _ err) by done.
  by rewrite Herr.
Qed.

Lemma fetchTranscription_empty loc mid w :
  emptyLookup (upstream (calls w) (ReqRecording loc mid)) ->
  fetchTranscription upstream loc mid w = (Ret JNull, afterCall w).
Proof.
  destruct (upstream _ _) as [data|err] eqn:Hup; simpl.
  - intros [Hdata Hfalsy]. rewrite (fetchTranscription_Ok _ _ _ data) by done.
    unfold js_or. by rewrite Hfalsy.
  - intros Herr. by apply (fetchTranscription_not_found _ _ _ err).
Qed.

Lemma transcribeCalls_app loc onProgress total i refs1 refs2 heap w :
  transcribeCalls upstream loc onProgress total i (refs1 ++ refs2) heap w
  = (transcribeCalls upstream loc onProgress total i refs1 heap
     ≫= transcribeCalls upstream loc onProgress total (i + length refs1) refs2) w.
Proof.
  revert i heap w. induction refs1 as [|r refs1 IH]; intros i heap w.
  - simpl. by rewrite Nat.add_0_r.
  - cbn [app transcribeCalls length]. rewrite !bind_unfold.
    destruct (fetchTranscription upstream _ _ w) as [[t| |] w1]; [|done..].
    rewrite !bind_unfold.
    destruct (emit _ _ w1) as [[[]| |] w2]; [|done..].
    rewrite IH, bind_unfold.
    by replace (S i + length refs1)%nat with (i + S (length refs1))%nat by lia.
Qed.

(** When every lookup answers or is not found, stage 3 returns. *)
Lemma transcribeCalls_returns loc onProgress total i refs heap w :
  (forall n mid, benignLookup (upstream n (ReqRecording loc mid))) ->
  exists heap' w',
    transcribeCalls upstream loc onProgress total i refs heap w = (Ret heap', w').
Proof.
  intros Hbenign. revert i heap w.
  induction refs as [|r refs IH]; intros i heap w; [by eexists _, _|].
  cbn [transcribeCalls]. rewrite bind_unfold.
  set (mid := get (default JUndefined (heap !! r)) "id").
  specialize (Hbenign (calls w) mid).
  destruct (upstream (calls w) (ReqRecording loc mid)) as [data|err] eqn:Hup;
    simpl in Hbenign.
  - rewrite (fetchTranscription_Ok _ _ _ data) by done.
    rewrite bind_unfold. unfold emit. apply IH.
  - rewrite (fetchTranscription_not_found _ _ _ err) by done.
    rewrite bind_unfold. unfold emit. apply IH.
Qed.

End Lookup.

Section LookupErrors.

Variable host : Host.
Variable upstream : Upstream.

(** The exception of [fetchContactHistory] is what [runExport] records. *)
Lemma runExport_failed fuel exportsDir job contact range files err w :
  fetchContactHistory host upstream fuel (locationId job) (contactId job) true
    {| calls := 0; progress := job_progress job |} = (Throw err, w) ->
  runExport host upstream fuel exportsDir job contact range files
  = (Throw err, failed job (progress w) err, files).
Proof. intros H. unfold runExport. by rewrite H. Qed.

(** C2. Take the lookup of a call message [r] of stage 3, reached after
    the lookups of the call messages [done] before it, and let the
    upstream fail it with [err]. If the status of [err] is 404 or 422,
    [fetchTranscription] returns null and the loop goes past [r] with
    every message as it was before the lookup: no transcription is
    attached and nothing is thrown. For any other [err],
    [fetchTranscription] throws [err], so does [fetchContactHistory], and
    [runExport] leaves the job with status failed and the message of
    [err]. *)
Theorem transcription_lookup_errors
    fuel exportsDir job contact range files fetched w1 done r rest heap w2 err :
  let loc := locationId job in
  let w0 := {| calls := 0; progress := job_progress job |} in
  let total := length (done ++ r :: rest) in
  let messageId := get (default JUndefined (heap !! r)) "id" in
  fetchEverything upstream fuel loc (contactId job) true w0 = (Ret fetched, w1) ->
  selectCalls 0 fetched = Ok (done ++ r :: rest) ->
  transcribeCalls upstream loc true total 0 done fetched w1 = (Ret heap, w2) ->
  upstream (calls w2) (ReqRecording loc messageId) = Err err ->
  if isNotFound err
  then
    fetchTranscription upstream loc messageId w2 = (Ret JNull, afterCall w2)
    /\ exists w3,
         transcribeCalls upstream loc true total 0 (done ++ [r]) fetched w1
         = (Ret heap, w3)
  else
    fetchTranscription upstream loc messageId w2 = (Throw err, afterCall w2)
    /\ fetchContactHistory host upstream fuel loc (contactId job) true w0
       = (Throw err, afterCall w2)
    /\ exists job',
         runExport host upstream fuel exportsDir job contact range files
         = (Throw err, job', files)
         /\ status job' = Failed
         /\ error job' = Some (err_message err).
Proof.
  intros loc w0 total messageId Hfetch Hsel Hdone Hup.
  destruct (isNotFound err) eqn:Herr.
  - pose proof (fetchTranscription_not_found _ _ _ _ _ Hup Herr) as Hlookup.
    split; [done|].
    rewrite transcribeCalls_app, bind_unfold, Hdone.
    cbn [transcribeCalls]. rewrite bind_unfold. fold messageId. rewrite Hlookup.
    rewrite bind_unfold. unfold emit, attach. simpl. eauto.
  - pose proof (fetchTranscription_rethrows _ _ _ _ _ Hup Herr) as Hlookup.
    split; [done|].
    assert (fetchContactHistory host upstream fuel loc (contactId job) true w0
            = (Throw err, afterCall w2)) as Hhistory.
    { unfold fetchContactHistory. rewrite bind_unfold, Hfetch, bind_unfold.
      unfold transcribe. rewrite bind_unfold, Hsel. simpl. fold total.
      rewrite transcribeCalls_app, bind_unfold, Hdone.
      cbn [transcribeCalls]. rewrite bind_unfold. fold messageId.
      by rewrite Hlookup. }
    split; [done|].
    eexists. split; [by apply runExport_failed|]. done.
Qed.

End LookupErrors.

Section Indistinguishable.

Variable host : Host.
Variables up1 up2 : Upstream.
Hypothesis Hsame : sameButEmptyLookups up1 up2.

Lemma apiCall_same req w :
  (forall loc mid, req <> ReqRecording loc mid) ->
  apiCall up1 req w = apiCall up2 req w.
Proof.
  intros Hreq. unfold apiCall.
  destruct (Hsame (calls w) req) as [->|[(loc & mid & ->) _]]; [done|].
  by destruct (Hreq loc mid).
Qed.

Lemma fetchTranscription_same loc mid w :
  fetchTranscription up1 loc mid w = fetchTranscription up2 loc mid w.
Proof.
  destruct (Hsame (calls w) (ReqRecording loc mid)) as [Heq|(_ & H1 & H2)].
  - unfold fetchTranscription, tryCatch. rewrite !bind_unfold.
    unfold apiCall. by rewrite Heq.
  - by rewrite !fetchTranscription_empty.
Qed.

Lemma fetchAllConversations_loop_same fuel loc contact onProgress items cursor w :
  fetchAllConversations_loop up1 fuel loc contact onProgress items cursor w
  = fetchAllConversations_loop up2 fuel loc contact onProgress items cursor w.
Proof.
  revert items cursor w. induction fuel as [|fuel IH]; intros items cursor w; [done|].
  cbn [fetchAllConversations_loop]. rewrite !bind_unfold.
  rewrite apiCall_same by done.
  destruct (apiCall up2 _ w) as [[data| |] w1]; [|done..].
  rewrite !bind_unfold.
  destruct (liftR _ w1) as [[dc| |] w2]; [|done..].
  rewrite !bind_unfold.
  destruct (emit _ _ w2) as [[[]| |] w3]; [|done..].
  destruct (length _ =? 0)%nat; [done|].
  destruct (negb _ || _); [done|]. apply IH.
Qed.

Lemma fetchAllMessages_loop_same fuel loc conv onProgress items cursor w :
  fetchAllMessages_loop up1 fuel loc conv onProgress items cursor w
  = fetchAllMessages_loop up2 fuel loc conv onProgress items cursor w.
Proof.
  revert items cursor w. induction fuel as [|fuel IH]; intros items cursor w; [done|].
  cbn [fetchAllMessages_loop]. rewrite !bind_unfold.
  rewrite apiCall_same by done.
  destruct (apiCall up2 _ w) as [[data| |] w1]; [|done..].
  rewrite !bind_unfold.
  destruct (liftR _ w1) as [[dm| |] w2]; [|done..].
  rewrite !bind_unfold.
  destruct (liftR _ w2) as [[batch| |] w3]; [|done..].
  rewrite !bind_unfold.
  destruct (emit _ _ w3) as [[[]| |] w4]; [|done..].
  destruct (length _ =? 0)%nat; [done|].
  destruct (negb _ || _); [done|]. apply IH.
Qed.

Lemma fetchMessagesOfAll_same fuel loc onProgress total i rest all w :
  fetchMessagesOfAll up1 fuel loc onProgress total i rest all w
  = fetchMessagesOfAll up2 fuel loc onProgress total i rest all w.
Proof.
  revert i all w. induction rest as [|conv rest IH]; intros i all w; [done|].
  cbn [fetchMessagesOfAll]. rewrite !bind_unfold.
  destruct (liftR _ w) as [[convId| |] w1]; [|done..].
  rewrite !bind_unfold. unfold fetchAllMessages.
  rewrite fetchAllMessages_loop_same.
  destruct (fetchAllMessages_loop up2 _ _ _ _ _ _ w1) as [[messages| |] w2]; [|done..].
  rewrite !bind_unfold.
  destruct (emit _ _ w2) as [[[]| |] w3]; [|done..].
  apply IH.
Qed.

Lemma transcribeCalls_same loc onProgress total i refs heap w :
  transcribeCalls up1 loc onProgress total i refs heap w
  = transcribeCalls up2 loc onProgress total i refs heap w.
Proof.
  revert i heap w. induction refs as [|r refs IH]; intros i heap w; [done|].
  cbn [transcribeCalls]. rewrite !bind_unfold, fetchTranscription_same.
  destruct (fetchTranscription up2 _ _ w) as [[t| |] w1]; [|done..].
  rewrite !bind_unfold.
  destruct (emit _ _ w1) as [[[]| |] w2]; [|done..].
  apply IH.
Qed.

Lemma fetchContactHistory_same fuel loc contact onProgress w :
  fetchContactHistory host up1 fuel loc contact onProgress w
  = fetchContactHistory host up2 fuel loc contact onProgress w.
Proof.
  unfold fetchContactHistory, fetchEverything, fetchAllConversations, transcribe.
  rewrite !bind_unfold, fetchAllConversations_loop_same.
  destruct (fetchAllConversations_loop up2 _ _ _ _ _ _ w) as [[convs| |] w1]; [|done..].
  rewrite !bind_unfold.
  destruct (emit _ _ w1) as [[[]| |] w2]; [|done..].
  rewrite fetchMessagesOfAll_same.
  destruct (fetchMessagesOfAll up2 _ _ _ _ _ _ _ w2) as [[all| |] w3]; [|done..].
  rewrite !bind_unfold.
  destruct (liftR _ w3) as [[refs| |] w4]; [|done..].
  rewrite transcribeCalls_same.
  by destruct (transcribeCalls up2 _ _ _ _ _ _ w4) as [[heap| |] w5].
Qed.

End Indistinguishable.

(** C10. A lookup that succeeds with a missing or falsy [transcription]
    makes [fetchTranscription] return null, exactly as a 404 or 422
    does, and null attaches nothing. Hence two upstreams that differ
    only in which of the two ways they answer such lookups give
    [fetchContactHistory] the same result, world included. *)
Theorem empty_transcription_same_as_not_found
    (host : Host) (up1 up2 : Upstream) (fuel : nat) (loc contact : JsVal)
    (onProgress : bool) (w : World) :
  sameButEmptyLookups up1 up2 ->
  (forall mid w0,
     emptyLookup (up1 (calls w0) (ReqRecording loc mid)) ->
     fetchTranscription up1 loc mid w0 = (Ret JNull, afterCall w0)
     /\ forall heap r, attach heap r JNull = heap)
  /\ fetchContactHistory host up1 fuel loc contact onProgress w
     = fetchContactHistory host up2 fuel loc contact onProgress w.
Proof.
  intros Hsame. split.
  - intros mid w0 Hempty. split; [by apply fetchTranscription_empty|done].
  - by apply fetchContactHistory_same.
Qed.

(** ** The date filter *)

Section ArrayFilter.

Context {A : Type} (f : A -> Result bool).

Lemma Array_filter_Ok (keep : A -> bool) (l : list A) :
  (forall x, x ∈ l -> f x = Ok (keep x)) ->
  Array_filter f l = Ok (filter (fun x => keep x = true) l).
Proof.
  induction l as [|x l IH]; intros Hf; [done|].
  cbn [Array_filter]. rewrite (Hf x) by left.
  rewrite IH by (intros y Hy; apply Hf; by right).
  rewrite filter_cons. by destruct (keep x).
Qed.

(** What is kept passed the test, in the order it had. *)
Lemma Array_filter_kept (l out : list A) :
  Array_filter f l = Ok out ->
  out `sublist_of` l /\ forall x, x ∈ out -> f x = Ok true.
Proof.
  revert out. induction l as [|x l IH]; intros out Hout; cbn [Array_filter] in Hout.
  - injection Hout as <-. split; [done|]. intros x Hx. by apply elem_of_nil in Hx.
  - destruct (f x) as [keep|] eqn:Hx; [|done].
    destruct (Array_filter f l) as [kept|]; [|done].
    destruct (IH kept eq_refl) as [Hsub Hall].
    injection Hout as <-. destruct keep.
    + split; [by constructor|]. intros y [->|Hy]%elem_of_cons; [done|by apply Hall].
    + split; [by constructor|done].
Qed.

Lemma Array_filter_all (l : list A) :
  (forall x, x ∈ l -> f x = Ok true) -> Array_filter f l = Ok l.
Proof.
  induction l as [|x l IH]; intros Hf; [done|].
  cbn [Array_filter]. rewrite (Hf x) by left.
  by rewrite IH by (intros y Hy; apply Hf; by right).
Qed.

End ArrayFilter.

Section DateFilter.

Variable host : Host.

Lemma dateGe_spec (a b : option Z) :
  dateGe a b = true <-> exists t lo, a = Some t /\ b = Some lo /\ lo <= t.
Proof.
  unfold dateGe. destruct a as [t|], b as [lo|]; try rewrite Z.leb_le; split;
    try done; try (by intros (? & ? & ? & ? & ?)).
  - eauto.
  - by intros (? & ? & [= ->] & [= ->] & ?).
Qed.

Lemma dateLe_spec (a b : option Z) :
  dateLe a b = true <-> exists t hi, a = Some t /\ b = Some hi /\ t <= hi.
Proof.
  unfold dateLe. destruct a as [t|], b as [hi|]; try rewrite Z.leb_le; split;
    try done; try (by intros (? & ? & ? & ? & ?)).
  - eauto.
  - by intros (? & ? & [= ->] & [= ->] & ?).
Qed.

Lemma retained_spec range m :
  retained host range m = true <->
  (truthy (startDate range) = true ->
     exists t lo, timestamp host m = Some t /\ startBound host range = Some lo /\ lo <= t)
  /\ (truthy (endDate range) = true ->
        exists t hi, timestamp host m = Some t /\ endBound host range = Some hi /\ t <= hi).
Proof.
  unfold retained.
  rewrite andb_true_iff, !orb_true_iff, !negb_true_iff, dateGe_spec, dateLe_spec.
  destruct (truthy (startDate range)), (truthy (endDate range));
    intuition (done || eauto).
Qed.

Lemma notBefore_Ok lo m :
  nullish m = false -> notBefore host lo m = Ok (dateGe (timestamp host m) lo).
Proof. intros Hm. unfold notBefore, prop. by rewrite Hm. Qed.

Lemma notAfter_Ok hi m :
  nullish m = false -> notAfter host hi m = Ok (dateLe (timestamp host m) hi).
Proof. intros Hm. unfold notAfter, prop. by rewrite Hm. Qed.

Lemma dateFilter_Ok range messages :
  Forall (fun m => nullish m = false) messages ->
  dateFilter host range messages
  = Ok (filter (fun m => retained host range m = true) messages).
Proof.
  intros Hobj. rewrite Forall_forall in Hobj. unfold dateFilter.
  destruct (truthy (startDate range)) eqn:Hs; cbn [mbind Result_bind].
  - rewrite (Array_filter_Ok _ (fun m => dateGe (timestamp host m) (startBound host range)))
      by (intros m Hm; by apply notBefore_Ok, Hobj).
    cbn [mbind Result_bind].
    destruct (truthy (endDate range)) eqn:He.
    + rewrite (Array_filter_Ok _ (fun m => dateLe (timestamp host m) (endBound host range))).
      2:{ intros m [_ Hm]%list_elem_of_filter. by apply notAfter_Ok, Hobj. }
      rewrite list_filter_filter. f_equal. apply list_filter_iff. intros m.
      unfold retained. rewrite Hs, He. simpl. rewrite andb_true_iff. tauto.
    + f_equal. apply list_filter_iff. intros m.
      unfold retained. rewrite Hs, He. simpl. by rewrite andb_true_r.
  - destruct (truthy (endDate range)) eqn:He.
    + rewrite (Array_filter_Ok _ (fun m => dateLe (timestamp host m) (endBound host range)))
        by (intros m Hm; by apply notAfter_Ok, Hobj).
      f_equal. apply list_filter_iff. intros m.
      unfold retained. by rewrite Hs, He.
    + f_equal. symmetry. apply filter_all.
      apply Forall_forall. intros m _. unfold retained. by rewrite Hs, He.
Qed.

(** On a sequence of messages (no element null or undefined) the
    date filter returns the subsequence of the messages [m] such that:
    when [startDate] is given, the timestamp of [m] is at or after
    [startDate] set to 00:00:00.000, and when [endDate] is given, it is
    at or before [endDate] set to 23:59:59.999 ([setHours], in the clock
    of the host). The two bounds are independent and an absent bound
    constrains nothing. The order of the retained messages is that of
    the input, so an input sorted by any order stays sorted. *)
Theorem dateFilter_retains_within_bounds range messages :
  Forall (fun m => nullish m = false) messages ->
  exists out,
    dateFilter host range messages = Ok out
    /\ (forall m, m ∈ out <->
          m ∈ messages
          /\ (truthy (startDate range) = true ->
                exists t lo, timestamp host m = Some t
                  /\ startBound host range = Some lo /\ lo <= t)
          /\ (truthy (endDate range) = true ->
                exists t hi, timestamp host m = Some t
                  /\ endBound host range = Some hi /\ t <= hi))
    /\ out = filter (fun m => retained host range m = true) messages
    /\ out `sublist_of` messages
    /\ forall R : relation JsVal, StronglySorted R messages -> StronglySorted R out.
Proof.
  intros Hobj. eexists. split; [by apply dateFilter_Ok|].
  split; [|split; [done|split]].
  - intros m. rewrite list_elem_of_filter, retained_spec. tauto.
  - apply sublist_filter.
  - intros R. apply StronglySorted_sublist, sublist_filter.
Qed.

(** What the filter returned passes the same filter unchanged. *)
Lemma dateFilter_fixed range messages out :
  dateFilter host range messages = Ok out ->
  dateFilter host range out = Ok out.
Proof.
  unfold dateFilter. intros Hout.
  destruct (truthy (startDate range)) eqn:Hs; cbn [mbind Result_bind] in *.
  - destruct (Array_filter (notBefore host (startBound host range)) messages)
      as [kept|] eqn:Hkept; [|done].
    cbn [mbind Result_bind] in Hout.
    destruct (Array_filter_kept _ _ _ Hkept) as [_ Hstart].
    destruct (truthy (endDate range)) eqn:He.
    + destruct (Array_filter_kept _ _ _ Hout) as [Hsub Hend].
      rewrite Array_filter_all.
      2:{ intros m Hm. apply Hstart. by eapply elem_of_sublist. }
      cbn [mbind Result_bind]. by apply Array_filter_all.
    + injection Hout as <-. by rewrite Array_filter_all.
  - destruct (truthy (endDate range)) eqn:He; [|done].
    destruct (Array_filter_kept _ _ _ Hout) as [_ Hend].
    by apply Array_filter_all.
Qed.

(** C5. Applying the date filter twice with the same bounds is applying
    it once: the second application returns the sequence the first one
    returned, and an exception of the first is the exception of both. *)
Theorem dateFilter_idempotent range messages :
  dateFilter host range messages ≫= dateFilter host range
  = dateFilter host range messages.
Proof.
  destruct (dateFilter host range messages) as [out|err] eqn:Hout; [|done].
  cbn [mbind Result_bind]. by apply (dateFilter_fixed range messages).
Qed.

(** With both bounds absent the filter is the identity. *)
Lemma dateFilter_no_bounds range messages :
  truthy (startDate range) = false -> truthy (endDate range) = false ->
  dateFilter host range messages = Ok messages.
Proof. intros Hs He. unfold dateFilter. by rewrite Hs, He. Qed.

(** The bounds of a date-only day [d] (parsed as midnight UTC) on a host
    whose clock is at or ahead of UTC by less than a day: the first and
    the last millisecond of day [d] on that clock. *)
Lemma bounds_of_calendar_day range (ds de : Z) :
  0 <= LocalTZA host < msPerDay ->
  Date_new host (startDate range) = Some (ds * msPerDay) ->
  Date_new host (endDate range) = Some (de * msPerDay) ->
  -99999999 <= ds <= 99999999 -> -99999999 <= de <= 99999999 ->
  startBound host range = Some (ds * msPerDay - LocalTZA host)
  /\ endBound host range = Some (de * msPerDay + (msPerDay - 1) - LocalTZA host).
Proof.
  intros Htz Hs He Hds Hde. unfold startBound, endBound, setHours.
  rewrite Hs, He.
  assert (forall d, (d * msPerDay + LocalTZA host) / msPerDay = d) as Hday.
  { intros d. rewrite Z.div_add_l by done. rewrite Z.div_small by done. lia. }
  rewrite !Hday. unfold timeClip, msPerDay in *.
  split.
  - rewrite (proj2 (Z.leb_le _ _)) by lia. f_equal. lia.
  - rewrite (proj2 (Z.leb_le _ _)) by lia. f_equal. lia.
Qed.

(** On a host whose clock is behind UTC the same bound falls on the
    local day before [d]. *)
Lemma startBound_behind_utc range (ds : Z) :
  - msPerDay <= LocalTZA host < 0 ->
  Date_new host (startDate range) = Some (ds * msPerDay) ->
  -99999999 <= ds <= 99999999 ->
  startBound host range = Some ((ds - 1) * msPerDay - LocalTZA host).
Proof.
  intros Htz Hs Hds. unfold startBound, setHours. rewrite Hs.
  replace (ds * msPerDay + LocalTZA host)
    with ((ds - 1) * msPerDay + (msPerDay + LocalTZA host)) by lia.
  rewrite Z.div_add_l by done. rewrite Z.div_small by lia.
  unfold timeClip, msPerDay in *.
  rewrite (proj2 (Z.leb_le _ _)) by lia. f_equal. lia.
Qed.

End DateFilter.

(** ** The reaper *)

Section Reaper.

Variable now : Z.

(** A sweep only removes: what is gone stays gone. *)
Lemma cleanupEntry_shrinks (s : Server) entry :
  (forall id, jobs s !! id = None -> jobs (cleanupEntry now s entry) !! id = None)
  /\ (forall path, disk s !! path = None -> disk (cleanupEntry now s entry) !! path = None).
Proof.
  destruct entry as [id job]. unfold cleanupEntry.
  destruct (JOB_TTL_MS <? now - createdAt job); [|done].
  destruct (filePath job) as [path|]; [destruct (bool_decide _)|]; simpl; split;
    intros k Hk; rewrite ?lookup_delete; by repeat case_decide.
Qed.

Lemma cleanupEntry_expired (s : Server) id job :
  expired now job ->
  jobs (cleanupEntry now s (id, job)) !! id = None
  /\ forall path, filePath job = Some path ->
       disk (cleanupEntry now s (id, job)) !! path = None.
Proof.
  unfold expired. intros Hexp%Z.ltb_lt. unfold cleanupEntry. rewrite Hexp.
  destruct (filePath job) as [path|]; [|by simpl; rewrite lookup_delete_eq].
  destruct (bool_decide (is_Some (disk s !! path))) eqn:Hfile; simpl.
  - rewrite lookup_delete_eq. split; [done|].
    intros ? [= <-]. by rewrite lookup_delete_eq.
  - rewrite lookup_delete_eq. split; [done|].
    intros ? [= <-]. apply bool_decide_eq_false in Hfile.
    by apply eq_None_not_Some.
Qed.

(** The effects of one iteration: the unlink of the file, if it is
    there, and then the removal of the record. *)
Lemma cleanupEntry_trace (s : Server) id job :
  expired now job ->
  trace (cleanupEntry now s (id, job))
  = trace s
    ++ match filePath job with
       | Some path => if bool_decide (is_Some (disk s !! path)) then [Unlink path] else []
       | None => []
       end
    ++ [Forget id].
Proof.
  unfold expired. intros Hexp%Z.ltb_lt. unfold cleanupEntry. rewrite Hexp.
  destruct (filePath job) as [path|]; [|done].
  destruct (bool_decide _); simpl; [by rewrite <- app_assoc|done].
Qed.

(** A file disappears only through an unlink that is recorded. *)
Lemma cleanupEntry_effects (s : Server) entry :
  exists effects,
    trace (cleanupEntry now s entry) = trace s ++ effects
    /\ forall path, is_Some (disk s !! path) ->
         disk (cleanupEntry now s entry) !! path = None -> Unlink path ∈ effects.
Proof.
  destruct entry as [id job]. unfold cleanupEntry.
  destruct (JOB_TTL_MS <? now - createdAt job).
  - destruct (filePath job) as [file|]; [destruct (bool_decide _)|]; simpl.
    + exists [Unlink file; Forget id]. split; [by rewrite <- app_assoc|].
      intros path Hsome Hgone. destruct (decide (file = path)) as [->|Hne]; [by left|].
      rewrite lookup_delete_ne in Hgone by done. rewrite Hgone in Hsome.
      by destruct Hsome.
    + exists [Forget id]. split; [done|].
      intros path Hsome Hgone. rewrite Hgone in Hsome. by destruct Hsome.
    + exists [Forget id]. split; [done|].
      intros path Hsome Hgone. rewrite Hgone in Hsome. by destruct Hsome.
  - exists []. split; [by rewrite app_nil_r|].
    intros path Hsome Hgone. rewrite Hgone in Hsome. by destruct Hsome.
Qed.

Lemma cleanup_fold_shrinks entries (s : Server) :
  (forall id, jobs s !! id = None ->
     jobs (foldl (cleanupEntry now) s entries) !! id = None)
  /\ (forall path, disk s !! path = None ->
        disk (foldl (cleanupEntry now) s entries) !! path = None)
  /\ exists effects, trace (foldl (cleanupEntry now) s entries) = trace s ++ effects.
Proof.
  revert s. induction entries as [|entry entries IH]; intros s.
  - split; [done|]. split; [done|]. exists []. by rewrite app_nil_r.
  - simpl. destruct (IH (cleanupEntry now s entry)) as (Hj & Hd & e2 & Ht).
    destruct (cleanupEntry_shrinks s entry) as [Hj' Hd'].
    destruct (cleanupEntry_effects s entry) as (e1 & Ht' & _).
    split; [intros id ?; by apply Hj, Hj'|].
    split; [intros path ?; by apply Hd, Hd'|].
    exists (e1 ++ e2). by rewrite Ht, Ht', app_assoc.
Qed.

Lemma cleanup_fold_expired entries (s : Server) id job :
  (id, job) ∈ entries ->
  expired now job ->
  (jobs (foldl (cleanupEntry now) s entries) !! id = None
   /\ forall path, filePath job = Some path ->
        disk (foldl (cleanupEntry now) s entries) !! path = None)
  /\ exists before after,
       trace (foldl (cleanupEntry now) s entries)
       = trace s ++ before ++ Forget id :: after
       /\ forall path, filePath job = Some path ->
            is_Some (disk s !! path) -> Unlink path ∈ before.
Proof.
  revert s. induction entries as [|entry entries IH]; intros s Hin Hexp.
  - by apply elem_of_nil in Hin.
  - simpl. apply elem_of_cons in Hin as [<-|Hin].
    + destruct (cleanupEntry_expired s id job Hexp) as [Hj Hd].
      destruct (cleanup_fold_shrinks entries (cleanupEntry now s (id, job)))
        as (Hj' & Hd' & after & Ht).
      split; [split; [by apply Hj'|intros path Hpath; by apply Hd', Hd]|].
      rewrite Ht, cleanupEntry_trace by done.
      exists (match filePath job with
              | Some path =>
                if bool_decide (is_Some (disk s !! path)) then [Unlink path] else []
              | None => []
              end), after.
      split; [by rewrite <- !app_assoc|].
      intros path -> Hsome. rewrite bool_decide_eq_true_2 by done. by left.
    + destruct (IH (cleanupEntry now s entry) Hin Hexp)
        as (Hgone & before & after & Ht & Hunlink).
      split; [done|].
      destruct (cleanupEntry_effects s entry) as (e1 & Ht' & Heff).
      exists (e1 ++ before), after. split; [by rewrite Ht, Ht', <- !app_assoc|].
      intros path Hpath Hsome. apply elem_of_app.
      destruct (disk (cleanupEntry now s entry) !! path) eqn:Hstill.
      * right. apply Hunlink; [done|]. by rewrite Hstill.
      * left. by apply Heff.
Qed.

(** A record that is not expired stays. *)
Lemma cleanup_fold_keeps entries (s : Server) id :
  (forall job, (id, job) ∈ entries -> ~ expired now job) ->
  jobs (foldl (cleanupEntry now) s entries) !! id = jobs s !! id.
Proof.
  revert s. induction entries as [|[id' job'] entries IH]; intros s Hfresh; [done|].
  simpl. rewrite IH by (intros job Hjob; apply Hfresh; by right).
  unfold cleanupEntry.
  destruct (Z.ltb_spec JOB_TTL_MS (now - createdAt job')) as [Hexp|]; [|done].
  destruct (decide (id' = id)) as [->|Hne].
  - destruct (Hfresh job'); [by left|done].
  - destruct (filePath job') as [path|]; [destruct (bool_decide _)|]; simpl;
      by rewrite lookup_delete_ne.
Qed.

Lemma fresh_jobs_are_kept (s : Server) id job :
  jobs s !! id = Some job -> ~ expired now job ->
  jobs (cleanupJobs now s) !! id = Some job.
Proof.
  intros Hjob Hfresh. unfold cleanupJobs. rewrite cleanup_fold_keeps; [done|].
  intros job' Hin%elem_of_map_to_list. congruence.
Qed.

(** C8. After a sweep at time [now], a job whose age exceeds the
    retention window of one hour, whatever its status, is no longer in
    the registry: a status query for its id is answered not found and so
    is a download. The file recorded as its artifact, if any, is not on
    disk. The record is removed after the file: in the effects of the
    sweep the removal of the record comes after the unlink of its file
    whenever the file was there when the sweep started. *)
Theorem expired_jobs_are_reaped (s : Server) (id : string) (job : Job) :
  jobs s !! id = Some job ->
  expired now job ->
  let s' := cleanupJobs now s in
  jobs s' !! id = None
  /\ getStatus (jobs s') id = NotFound
  /\ download s' id = JobNotFound
  /\ (forall path, filePath job = Some path -> disk s' !! path = None)
  /\ exists before after,
       trace s' = trace s ++ before ++ Forget id :: after
       /\ forall path, filePath job = Some path ->
            is_Some (disk s !! path) -> Unlink path ∈ before.
Proof.
  intros Hjob Hexp s'.
  destruct (cleanup_fold_expired (map_to_list (jobs s)) s id job)
    as ([Hgone Hfile] & Horder).
  { by apply elem_of_map_to_list. }
  { done. }
  fold (cleanupJobs now s) in Hgone, Hfile, Horder. fold s' in Hgone, Hfile, Horder.
  split; [done|]. split; [|split; [|split; [done|done]]].
  - unfold getStatus. by rewrite Hgone.
  - unfold download. by rewrite Hgone.
Qed.

End Reaper.

(** ** The renderer *)

Section Pages.

Variable host : Host.

Lemma keepsPages_draw n d it :
  (n <= page d)%nat -> keepsPages n d (draw d it).
Proof.
  intros Hn. unfold keepsPages, draw. cbn [buffer page].
  split; [by apply take_alter_ge|]. split; [done|]. by rewrite length_alter.
Qed.

Lemma keepsPages_moveTo n d x y :
  (n <= page d)%nat -> keepsPages n d (moveTo d x y).
Proof. intros Hn. unfold keepsPages, moveTo. cbn [buffer page]. done. Qed.

Lemma keepsPages_continueOnNewPage n d x :
  (n <= length (buffer d))%nat -> keepsPages n d (continueOnNewPage d x).
Proof.
  intros Hn. unfold keepsPages, continueOnNewPage, moveTo, addPage. cbn [buffer page].
  split; [by rewrite take_app_le|]. split; [done|]. rewrite length_app. lia.
Qed.

Lemma keepsPages_trans n d1 d2 d3 :
  keepsPages n d1 d2 -> keepsPages n d2 d3 -> keepsPages n d1 d3.
Proof.
  intros (H1 & _ & Hl1) (H2 & Hp & Hl2). split; [congruence|]. split; [done|lia].
Qed.

Lemma keepsPages_flowLines n d x lh gap lines :
  (n <= page d)%nat -> (n <= length (buffer d))%nat ->
  keepsPages n d (flowLines d x lh gap lines).
Proof.
  revert d. induction lines as [|l lines IH]; intros d Hp Hl.
  - by split.
  - cbn [flowLines].
    remember (moveTo (draw d (Text l x (docY d))) x _) as d1 eqn:Hd1.
    assert (keepsPages n d d1) as H1.
    { subst d1.
      eapply keepsPages_trans; [by apply keepsPages_draw|by apply keepsPages_moveTo]. }
    clear Hd1.
    destruct lines as [|l' lines]; [done|].
    eapply keepsPages_trans; [exact H1|].
    destruct H1 as (_ & Hp1 & Hl1).
    destruct (Qlt_bool maxY _).
    + eapply keepsPages_trans.
      * apply keepsPages_continueOnNewPage. lia.
      * apply IH; unfold continueOnNewPage, moveTo, addPage; cbn [page buffer];
          rewrite ?length_app; simpl; lia.
    + apply IH; lia.
Qed.

(** The footer position is below the bottom margin. *)
Lemma footer_below_margin : Qlt_bool maxY FOOTER_Y = true.
Proof. reflexivity. Qed.

(** So the footer text starts on a new page, whatever page is current. *)
Lemma footer_text_on_new_page d s n :
  (n <= length (buffer d))%nat ->
  let d' := text host d s MARGIN FOOTER_Y CONTENT_WIDTH 0 in
  take n (buffer d') = take n (buffer d)
  /\ (S (length (buffer d)) <= length (buffer d'))%nat.
Proof.
  intros Hn d'. subst d'. unfold text, startOnPage.
  rewrite footer_below_margin. cbn [orb].
  remember (continueOnNewPage (moveTo d MARGIN FOOTER_Y) MARGIN) as d1 eqn:Hd1.
  assert ((n <= page d1)%nat /\ length (buffer d1) = S (length (buffer d))) as [Hp Hl].
  { subst d1. unfold continueOnNewPage, moveTo, addPage. cbn [page buffer].
    rewrite length_app. simpl. lia. }
  destruct (keepsPages_flowLines n d1 MARGIN (currentLineHeight host d1) 0
              (wrapLines host (fontName d1) (fontSize d1) CONTENT_WIDTH s))
    as (Htake & _ & Hlen); [lia|lia|].
  split; [|lia]. rewrite Htake. subst d1.
  unfold continueOnNewPage, moveTo, addPage. cbn [page buffer].
  by rewrite take_app_le.
Qed.

Lemma addPageNumber_keeps total d i n :
  (n <= length (buffer d))%nat ->
  let d' := addPageNumber host total d i in
  take n (buffer d') = take n (buffer d)
  /\ ((if (i =? 0)%nat then 0 else 1) + length (buffer d) <= length (buffer d'))%nat.
Proof.
  intros Hn d'. subst d'. unfold addPageNumber.
  destruct (i =? 0)%nat; [by split|].
  apply (footer_text_on_new_page (setFont (switchToPage d i) 8 "Helvetica")). done.
Qed.

Lemma addPageNumbers_fold total indices d n :
  (n <= length (buffer d))%nat ->
  let d' := fold_left (addPageNumber host total) indices d in
  take n (buffer d') = take n (buffer d)
  /\ (length (filter (fun i => i <> 0%nat) indices) + length (buffer d)
      <= length (buffer d'))%nat.
Proof.
  revert d. induction indices as [|i indices IH]; intros d Hn; [by split|].
  cbn [fold_left].
  destruct (addPageNumber_keeps total d i n Hn) as [Htake Hlen].
  destruct (IH (addPageNumber host total d i)) as [Htake' Hlen'].
  { destruct (i =? 0)%nat; lia. }
  split; [congruence|].
  rewrite filter_cons. destruct (decide (i <> 0%nat)) as [Hi|Hi].
  - apply Nat.eqb_neq in Hi. rewrite Hi in Hlen. simpl. lia.
  - destruct (i =? 0)%nat; lia.
Qed.

Lemma filter_nonzero_seq_from k m :
  (0 < k)%nat -> length (filter (fun i => i <> 0%nat) (seq k m)) = m.
Proof.
  revert k. induction m as [|m IH]; intros k Hk; [done|].
  cbn [seq]. rewrite filter_cons_True by lia. simpl. f_equal. apply IH. lia.
Qed.

Lemma filter_nonzero_seq n :
  length (filter (fun i => i <> 0%nat) (seq 0 n)) = (n - 1)%nat.
Proof.
  destruct n as [|n]; [done|].
  cbn [seq]. rewrite filter_cons_False by (intros H; by apply H).
  rewrite filter_nonzero_seq_from by lia. lia.
Qed.

(** C6. [addPageNumbers] draws on none of the pages it numbers. The
    footer of a page is written at [FOOTER_Y], below the bottom margin,
    so the text call opens a new page for it: after the numbering the
    [total] pages of the buffer are exactly as they were before it (no
    body page has received a footer), and the document has grown by at
    least one page per numbered page, [total - 1] pages, while every
    footer reads [of total]. *)
Theorem page_numbers_land_on_new_pages (d : Doc) :
  let total := length (buffer d) in
  let d' := addPageNumbers host d in
  take total (buffer d') = buffer d
  /\ (total + (total - 1) <= length (buffer d'))%nat.
Proof.
  intros total d'. subst d'. unfold addPageNumbers. fold total.
  destruct (addPageNumbers_fold total (seq 0 total) d total ltac:(done))
    as [Htake Hlen].
  split.
  - rewrite Htake. by apply take_ge.
  - rewrite filter_nonzero_seq in Hlen. fold total in Hlen. lia.
Qed.

(** With a single page there is nothing to number. *)
Lemma addPageNumbers_single (d : Doc) :
  length (buffer d) = 1%nat -> buffer (addPageNumbers host d) = buffer d.
Proof. intros H. unfold addPageNumbers. by rewrite H. Qed.

End Pages.

(** ** The cover of an empty history

    On a host whose lines are at most 1.2 times the font size high, the
    cover stays on the first page as long as each of its texts is one
    line. *)
Section Cover.

Variable host : Host.
Hypothesis Hheight : forall font size, (0 <= size)%Q ->
  (lineHeight host font size <= 1.2 * size)%Q.

Lemma cover_setFont items limit font size d font' size' :
  coverSoFar items limit font size d ->
  coverSoFar items limit font' size' (setFont d size' font').
Proof. intros (Hpg & Hp & Hy & _ & _). by split_and!. Qed.

Lemma cover_moveDown items limit font size d (n : Q) :
  coverSoFar items limit font size d -> (0 <= size)%Q -> (0 <= n)%Q ->
  coverSoFar items (limit + 1.2 * size * n) font size (moveDown host d n).
Proof.
  intros (Hpg & Hp & Hy & Hf & Hs) Hsize Hn. split_and!; try done.
  cbn. unfold currentLineHeight. rewrite Hf, Hs.
  pose proof (Hheight font size Hsize) as Hlh.
  assert (lineHeight host font size * n <= 1.2 * size * n)%Q
    by (by apply Qmult_le_compat_r).
  lra.
Qed.

Lemma cover_strokeLine items limit font size d x1 x2 :
  coverSoFar items limit font size d ->
  coverSoFar items limit font size (strokeLine d x1 x2).
Proof.
  intros ((pg & Hpg & Hitems) & Hp & Hy & Hf & Hs). split_and!; try done.
  exists (pg ++ [Stroke x1 (docY d) x2 (docY d)]). split.
  - cbn. by rewrite Hpg, Hp.
  - rewrite <- Hitems. unfold textsOf. rewrite bind_app. cbn. by rewrite app_nil_r.
Qed.

Lemma cover_centered items limit font size d s :
  coverSoFar items limit font size d -> (0 <= size)%Q ->
  wrapLines host font size CONTENT_WIDTH s = [s] ->
  (limit + 1.2 * size <= maxY)%Q ->
  coverSoFar (items ++ [s]) (limit + 1.2 * size) font size (centered host d s).
Proof.
  intros ((pg & Hpg & Hitems) & Hp & Hy & Hf & Hs) Hsize Hwrap Hfits.
  pose proof (Hheight font size Hsize) as Hlh.
  unfold centered, text, startOnPage.
  assert (currentLineHeight host (moveTo d MARGIN (docY d)) = lineHeight host font size) as Hcur.
  { unfold currentLineHeight. cbn. by rewrite Hf, Hs. }
  rewrite Hcur.
  assert (Qlt_bool maxY (docY d) = false) as ->.
  { unfold Qlt_bool. apply negb_false_iff, Qle_bool_iff. lra. }
  assert (Qlt_bool maxY (docY d + lineHeight host font size) = false) as ->.
  { unfold Qlt_bool. apply negb_false_iff, Qle_bool_iff. lra. }
  cbn [orb]. rewrite Hcur. cbn [fontName fontSize moveTo]. rewrite Hf, Hs, Hwrap.
  cbn [flowLines]. split_and!; try done.
  - exists (pg ++ [Text s MARGIN (docY d)]). split.
    + cbn. by rewrite Hpg, Hp.
    + rewrite <- Hitems. unfold textsOf. by rewrite bind_app.
  - cbn. lra.
Qed.


Lemma cover_newDocument : coverSoFar [] MARGIN "Helvetica" 12 newDocument.
Proof. split_and!; [by eexists|reflexivity|apply Qle_refl|reflexivity|reflexivity]. Qed.

Ltac cover :=
  lazymatch goal with
  | |- coverSoFar _ _ _ _ (moveDown _ _ _) =>
    eapply cover_moveDown; [cover|lra|lra]
  | |- coverSoFar _ _ _ _ (setFont _ _ _) => eapply cover_setFont; cover
  | |- coverSoFar _ _ _ _ (strokeLine _ _ _) => eapply cover_strokeLine; cover
  | |- coverSoFar _ _ _ _ (centered _ _ _) =>
    eapply cover_centered;
      [cover|lra|assumption|unfold maxY, PAGE_HEIGHT, MARGIN; lra]
  | |- coverSoFar _ _ _ _ newDocument => apply cover_newDocument
  end.

Lemma cover_of_empty_history contact :
  Forall (onOneLine host) (emptyCover host contact) ->
  exists cover limit font size,
    renderCoverPage host newDocument contact [] = Ok cover
    /\ coverSoFar ((fun line => line.2) <$> emptyCover host contact) limit font size cover.
Proof.
  intros Hlines.
  cut (exists cover items limit font size,
          renderCoverPage host newDocument contact [] = Ok cover
          /\ coverSoFar items limit font size cover
          /\ items = (fun line => line.2) <$> emptyCover host contact).
  { intros (cover & items & limit & font & size & Hcover & Hso & ->). eauto 6. }
  unfold emptyCover, contactLines in *.
  unfold renderCoverPage.
  destruct (truthy (email contact)), (truthy (phone contact));
    cbn [app fmap list_fmap] in Hlines;
    repeat (apply Forall_cons in Hlines as [? Hlines]);
    unfold onOneLine in *; cbn [fst snd] in *;
    cbn [getMessageStats mbind Result_bind channels dateRange length Nat.ltb Nat.leb
         statsData fold_left fst snd app fmap list_fmap];
    unfold renderStat; cbn [fst snd];
    eexists _, _, _, _, _; (split; [reflexivity|]); (split; [cover|reflexivity]).
Qed.

End Cover.



(** ** The demo history *)

(** The demo history comes back with the two calls of January 15 first,
    in fetch order. *)
Lemma demo_history_sorted :
  StronglySorted
    (fun a b => dateLe (timestamp demoHost a) (timestamp demoHost b) = true) demoHistory
  /\ exists fetched w1 transcribed,
       fetchEverything demoUpstream 5 (JStr "loc") (JStr "contact") true startWorld
       = (Ret fetched, w1)
       /\ transcribe demoUpstream (JStr "loc") true fetched w1 = (Ret transcribed, demoWorld)
       /\ demoHistory ≡ₚ transcribed
       /\ forall t, filter (fun m => timestamp demoHost m = Some t) demoHistory
                    = filter (fun m => timestamp demoHost m = Some t) transcribed.
Proof.
  apply (history_sorted_by_date_stable demoHost demoUpstream 5 (JStr "loc")
           (JStr "contact") true startWorld demoHistory demoWorld).
  - vm_compute. reflexivity.
  - repeat constructor; by eexists.
Defined.

(** Of the three demo messages only the call [m2] changes, by its
    transcription. *)
Lemma demo_history_frame :
  exists fetched w1 transcribed,
    fetchEverything demoUpstream 5 (JStr "loc") (JStr "contact") true startWorld
    = (Ret fetched, w1)
    /\ demoHistory ≡ₚ transcribed
    /\ length transcribed = length fetched
    /\ forall i m, fetched !! i = Some m ->
         exists m', transcribed !! i = Some m'
           /\ (forall k, k <> "transcription" -> get m' k = get m k)
           /\ (m' = m
               \/ isCompletedCall m = true
                  /\ exists t, truthy t = true /\ m' = setProp m "transcription" t).
Proof.
  apply (aggregation_only_attaches_transcription demoHost demoUpstream 5 (JStr "loc")
           (JStr "contact") true startWorld demoHistory demoWorld).
  vm_compute. reflexivity.
Defined.

(** The lookup of [m3], the second call of the demo history: a 404
    leaves the messages as they are, a 500 fails the job. *)
Lemma demo_lookup_errors :
  (fetchTranscription demoUpstream (JStr "loc") (JStr "m3") demoLookupWorld
   = (Ret JNull, afterCall demoLookupWorld)
   /\ exists w3,
        transcribeCalls demoUpstream (JStr "loc") true 2 0 [1; 2]%nat demoFetched
          demoFetchedWorld
        = (Ret demoTranscribed, w3))
  /\ (fetchTranscription brokenUpstream (JStr "loc") (JStr "m3") demoLookupWorld
      = (Throw serverError, afterCall demoLookupWorld)
      /\ fetchContactHistory demoHost brokenUpstream 5 (JStr "loc") (JStr "contact") true
           startWorld
         = (Throw serverError, afterCall demoLookupWorld)
      /\ exists job',
           runExport demoHost brokenUpstream 5 "exports" demoJob demoContact noRange ∅
           = (Throw serverError, job', ∅)
           /\ status job' = Failed
           /\ error job' = Some "Request failed with status code 500").
Proof.
  split.
  - apply (transcription_lookup_errors demoHost demoUpstream 5 "exports" demoJob
             demoContact noRange ∅ demoFetched demoFetchedWorld [1%nat] 2%nat []
             demoTranscribed demoLookupWorld notFoundError);
      vm_compute; reflexivity.
  - apply (transcription_lookup_errors demoHost brokenUpstream 5 "exports" demoJob
             demoContact noRange ∅ demoFetched demoFetchedWorld [1%nat] 2%nat []
             demoTranscribed demoLookupWorld serverError);
      vm_compute; reflexivity.
Defined.

Lemma demo_empty_lookup :
  (forall mid w0,
     emptyLookup (demoUpstream (calls w0) (ReqRecording (JStr "loc") mid)) ->
     fetchTranscription demoUpstream (JStr "loc") mid w0 = (Ret JNull, afterCall w0)
     /\ forall heap r, attach heap r JNull = heap)
  /\ fetchContactHistory demoHost demoUpstream 5 (JStr "loc") (JStr "contact") true
       startWorld
     = fetchContactHistory demoHost emptyTranscriptUpstream 5 (JStr "loc") (JStr "contact")
         true startWorld.
Proof.
  apply (empty_transcription_same_as_not_found demoHost demoUpstream
           emptyTranscriptUpstream 5 (JStr "loc") (JStr "contact") true startWorld).
  intros n [loc c cursor|loc c cursor|loc mid]; [by left..|].
  unfold demoUpstream, emptyTranscriptUpstream, demoUpstreamWith.
  destruct (strict_eq mid (JStr "m2")); [by left|right].
  split; [by eexists _, _|]. split; vm_compute; [reflexivity|split; reflexivity].
Defined.

(** January 15 on the demo history: the two calls. *)
Lemma demo_january15 :
  exists out,
    dateFilter demoHost january15 demoHistory = Ok out
    /\ (forall m, m ∈ out <->
          m ∈ demoHistory
          /\ (truthy (startDate january15) = true ->
                exists t lo, timestamp demoHost m = Some t
                  /\ startBound demoHost january15 = Some lo /\ lo <= t)
          /\ (truthy (endDate january15) = true ->
                exists t hi, timestamp demoHost m = Some t
                  /\ endBound demoHost january15 = Some hi /\ t <= hi))
    /\ out = filter (fun m => retained demoHost january15 m = true) demoHistory
    /\ out `sublist_of` demoHistory
    /\ forall R : relation JsVal, StronglySorted R demoHistory -> StronglySorted R out.
Proof.
  apply (dateFilter_retains_within_bounds demoHost january15 demoHistory).
  repeat constructor.
Defined.


(** A sweep one hour and a bit after the stale job was created. *)
Lemma stale_job_is_reaped :
  let s' := cleanupJobs 3601001 staleServer in
  jobs s' !! "old" = None
  /\ getStatus (jobs s') "old" = NotFound
  /\ download s' "old" = JobNotFound
  /\ (forall path, filePath staleJob = Some path -> disk s' !! path = None)
  /\ exists before after,
       trace s' = trace staleServer ++ before ++ Forget "old" :: after
       /\ forall path, filePath staleJob = Some path ->
            is_Some (disk staleServer !! path) -> Unlink path ∈ before.
Proof.
  apply (expired_jobs_are_reaped 3601001 staleServer "old" staleJob).
  - vm_compute. reflexivity.
  - vm_compute. reflexivity.
Defined.

(** One SMS: the cover, one body page, and a third page that holds
    nothing but the footer meant for the body page. *)
Example demo_footer_lands_on_third_page :
  exists body document,
    renderContent demoHost demoContact [demoSms] = Ok body
    /\ generatePDF demoHost demoContact [demoSms] = Ok document
    /\ length (buffer body) = 2%nat
    /\ length (buffer document) = 3%nat
    /\ take 2 (buffer document) = buffer body
    /\ buffer document !! 2%nat = Some [Text (footerText demoHost 2 2) MARGIN MARGIN].
Proof.
  eexists _, _. split; [vm_compute; reflexivity|].
  split; [vm_compute; reflexivity|]. by vm_compute.
Qed.

(** * Further properties *)

Lemma prop_Ok v k : nullish v = false -> prop v k = Ok (get v k).
Proof. intros H. unfold prop. by rewrite H. Qed.

(** ** The revision that trusts [nextPage], on any upstream *)

Section FlagRevisionFacts.

Variable upstream : Upstream.

Lemma lastItem_snoc (items : list JsVal) item : lastItem (items ++ [item]) = item.
Proof. unfold lastItem. by rewrite last_snoc. Qed.

Lemma flag_conversations_loop_runs_on loc contact onProgress :
  alwaysMore upstream (ReqConversations loc contact) "conversations" ->
  forall fuel acc cursor w,
  exists w', FlagRevision.fetchAllConversations_loop upstream fuel loc contact
               onProgress acc cursor w = (OutOfFuel, w').
Proof.
  intros Hup fuel. induction fuel as [|fuel IH]; intros acc cursor w; [by eexists|].
  cbn [FlagRevision.fetchAllConversations_loop].
  destruct (Hup (calls w) (cursorParam cursor))
    as (data & items & item & Hdata & Hbatch & Hitem & Hnext).
  rewrite bind_unfold, (apiCall_Ok _ _ _ _ Hdata).
  assert (nullish data = false) as Hobj by (by destruct data).
  rewrite (prop_Ok data) by done. rewrite Hbatch, bind_unfold, liftR_Ok.
  unfold js_or. cbn [truthy spread]. rewrite bind_unfold, liftR_Ok.
  rewrite bind_unfold. unfold emit at 1.
  rewrite length_app, Nat.add_1_r. cbn [Nat.eqb orb]. rewrite Hnext. cbn [negb].
  rewrite lastItem_snoc, !(prop_Ok item) by done.
  rewrite bind_unfold, liftR_Ok, bind_unfold, liftR_Ok.
  apply IH.
Qed.

Lemma flag_messages_loop_runs_on loc conv onProgress :
  alwaysMore upstream (ReqMessages loc conv) "messages" ->
  forall fuel acc cursor w,
  exists w', FlagRevision.fetchAllMessages_loop upstream fuel loc conv
               onProgress acc cursor w = (OutOfFuel, w').
Proof.
  intros Hup fuel. induction fuel as [|fuel IH]; intros acc cursor w; [by eexists|].
  cbn [FlagRevision.fetchAllMessages_loop].
  destruct (Hup (calls w) (cursorParam cursor))
    as (data & items & item & Hdata & Hbatch & Hitem & Hnext).
  rewrite bind_unfold, (apiCall_Ok _ _ _ _ Hdata).
  assert (nullish data = false) as Hobj by (by destruct data).
  rewrite (prop_Ok data) by done. rewrite Hbatch, bind_unfold, liftR_Ok.
  unfold js_or. cbn [truthy spread]. rewrite bind_unfold, liftR_Ok.
  rewrite bind_unfold. unfold emit at 1.
  rewrite length_app, Nat.add_1_r. cbn [Nat.eqb orb]. rewrite Hnext. cbn [negb].
  rewrite lastItem_snoc, bind_unfold.
  destruct (truthy (get data "lastMessageId")).
  - unfold mret at 1, M_ret. apply IH.
  - rewrite (prop_Ok item), liftR_Ok by done. apply IH.
Qed.

(** X1. The revision of the loops that trusts [data.nextPage] has no
    other exit: on an upstream that keeps [nextPage] set and its batches
    non-empty, neither [fetchAllConversations] nor [fetchAllMessages]
    returns or throws, whatever the fuel, even when the cursor it derives
    has stopped changing. *)
Theorem flag_revision_never_returns loc contact conv onProgress fuel w :
  (alwaysMore upstream (ReqConversations loc contact) "conversations" ->
   exists w', FlagRevision.fetchAllConversations upstream fuel loc contact onProgress w
              = (OutOfFuel, w'))
  /\ (alwaysMore upstream (ReqMessages loc conv) "messages" ->
      exists w', FlagRevision.fetchAllMessages upstream fuel loc conv onProgress w
                 = (OutOfFuel, w')).
Proof.
  split; intros Hup.
  - by apply flag_conversations_loop_runs_on.
  - by apply flag_messages_loop_runs_on.
Qed.

End FlagRevisionFacts.

Lemma mock_always_more_conversations loc c :
  alwaysMore mockUpstream (ReqConversations loc c) "conversations".
Proof. intros n cursor. by eexists _, [], _. Defined.

Lemma mock_always_more_messages loc c :
  alwaysMore mockUpstream (ReqMessages loc c) "messages".
Proof. intros n cursor. by eexists _, [], _. Defined.

Lemma flag_revision_never_returns_on_mock :
  (exists w', FlagRevision.fetchAllConversations mockUpstream 100 (JStr "loc")
                (JStr "contact") true startWorld = (OutOfFuel, w'))
  /\ (exists w', FlagRevision.fetchAllMessages mockUpstream 100 (JStr "loc")
                   (JStr "conv") true startWorld = (OutOfFuel, w')).
Proof.
  destruct (flag_revision_never_returns mockUpstream (JStr "loc") (JStr "contact")
              (JStr "conv") true 100 startWorld) as [Hc Hm].
  split; [apply Hc, mock_always_more_conversations | apply Hm, mock_always_more_messages].
Defined.

(** ** The aggregator: requests and edge cases *)

Section AggregatorFacts.

Variable host : Host.
Variable upstream : Upstream.

Lemma fetchTranscription_world loc mid w o w' :
  fetchTranscription upstream loc mid w = (o, w') -> w' = afterCall w.
Proof.
  unfold fetchTranscription, tryCatch. rewrite bind_unfold. unfold apiCall.
  destruct (upstream (calls w) (ReqRecording loc mid)) as [data|err].
  - rewrite bind_unfold.
    destruct (prop data "transcription") as [t|e]; cbn.
    + by intros [= _ <-].
    + destruct (isNotFound e); by intros [= _ <-].
  - destruct (isNotFound err); by intros [= _ <-].
Qed.

(** The world after stage 3: one request per reference, and the last
    progress reported. *)
Lemma transcribeCalls_world loc (onProgress : bool) total i refs heap w heap' w' :
  transcribeCalls upstream loc onProgress total i refs heap w = (Ret heap', w') ->
  calls w' = (calls w + length refs)%nat
  /\ progress w' = (if onProgress && (0 <? length refs)%nat
                    then PTranscriptions total (i + length refs)
                    else progress w).
Proof.
  revert i heap w. induction refs as [|r refs IH]; intros i heap w.
  - intros [= _ <-]. rewrite andb_false_r. split; [simpl; lia|done].
  - cbn [transcribeCalls]. rewrite bind_unfold.
    destruct (fetchTranscription _ _ _ w) as [[t|e|] w1] eqn:Hlookup; [|done..].
    apply fetchTranscription_world in Hlookup as ->.
    rewrite bind_unfold. unfold emit at 1. intros Hrest.
    apply IH in Hrest as [Hcalls Hprog]. split.
    + rewrite Hcalls. destruct onProgress; simpl; lia.
    + rewrite Hprog. simpl length.
      replace (S i + length refs)%nat with (i + S (length refs))%nat by lia.
      destruct onProgress, refs; simpl; try done. f_equal. lia.
Qed.

Lemma selectCalls_length r l refs :
  selectCalls r l = Ok refs ->
  length refs = length (filter (fun m => isCompletedCall m = true) l).
Proof.
  revert r refs. induction l as [|m l IH]; intros r refs; [by intros [= <-]|].
  cbn [selectCalls]. destruct (prop m "messageType"); [|done].
  destruct (selectCalls (S r) l) as [rest|] eqn:Hrest; [|done].
  intros [= <-]. rewrite filter_cons. apply IH in Hrest.
  destruct (isCompletedCall m); [rewrite decide_True by done|rewrite decide_False by done];
    simpl; by rewrite ?Hrest.
Qed.

Lemma fetchTranscription_Ret loc mid w t w' :
  fetchTranscription upstream loc mid w = (Ret t, w') ->
  w' = afterCall w
  /\ t = transcriptionIn (upstream (calls w) (ReqRecording loc mid))
  /\ forall e, upstream (calls w) (ReqRecording loc mid) = Err e -> isNotFound e = true.
Proof.
  unfold fetchTranscription, tryCatch. rewrite bind_unfold. unfold apiCall.
  destruct (upstream (calls w) (ReqRecording loc mid)) as [data|err].
  - rewrite bind_unfold.
    destruct (prop data "transcription") as [t'|e] eqn:Hprop; cbn.
    + intros [= <- <-]. split; [done|]. split; [|done].
      unfold prop in Hprop. destruct (nullish data); [done|]. by injection Hprop as <-.
    + unfold prop in Hprop. destruct (nullish data); [|done].
      by injection Hprop as <-.
  - destruct (isNotFound err) eqn:Herr; [|done].
    intros [= <- <-]. split; [done|]. split; [done|]. by intros e [= <-].
Qed.

Lemma selectCalls_rank r l refs :
  selectCalls r l = Ok refs ->
  NoDup refs
  /\ (forall j, j ∈ refs -> (r <= j)%nat)
  /\ forall i m, l !! i = Some m -> isCompletedCall m = true ->
       refs !! callsBefore l i = Some (r + i)%nat.
Proof.
  revert r refs. induction l as [|m l IH]; intros r refs.
  - intros [= <-]. split; [constructor|]. split; [by intros j ?%elem_of_nil|done].
  - cbn [selectCalls]. destruct (prop m "messageType"); [|done].
    destruct (selectCalls (S r) l) as [rest|] eqn:Hrest; [|done].
    intros [= <-]. destruct (IH _ _ Hrest) as (Hnd & Hge & Hrank).
    split; [|split].
    + destruct (isCompletedCall m); [|done]. constructor; [|done].
      intros Hin%Hge. lia.
    + intros j Hj. destruct (isCompletedCall m).
      * apply elem_of_cons in Hj as [->|Hj%Hge]; lia.
      * apply Hge in Hj. lia.
    + intros [|i] m' Hm' Hc.
      * simpl in Hm'. injection Hm' as ->. rewrite Hc. unfold callsBefore. simpl.
        f_equal. lia.
      * unfold callsBefore. cbn [take]. rewrite filter_cons.
        specialize (Hrank i m' Hm' Hc). unfold callsBefore in Hrank.
        destruct (isCompletedCall m) eqn:Hm.
        -- rewrite decide_True by done. simpl. rewrite Hrank. f_equal. lia.
        -- rewrite decide_False by done. rewrite Hrank. f_equal. lia.
Qed.

Lemma transcribeCalls_answers loc onProgress total i refs heap w heap' w' :
  transcribeCalls upstream loc onProgress total i refs heap w = (Ret heap', w') ->
  NoDup refs ->
  forall k r m, refs !! k = Some r -> heap !! r = Some m ->
    let answer := upstream (calls w + k)%nat (ReqRecording loc (get m "id")) in
    (forall e, answer = Err e -> isNotFound e = true)
    /\ heap' !! r = Some (withTranscription m (transcriptionIn answer)).
Proof.
  revert i heap w. induction refs as [|r0 refs IH]; intros i heap w Hrun Hnd; [done|].
  apply NoDup_cons in Hnd as [Hr0 Hnd].
  cbn [transcribeCalls] in Hrun.
  apply bind_Ret_inv in Hrun as (t & w1 & Ht & Hrun).
  apply bind_Ret_inv in Hrun as ([] & w2 & Hemit & Hrun).
  apply fetchTranscription_Ret in Ht as (-> & -> & Herr).
  assert (calls w2 = S (calls w)) as Hcalls.
  { unfold emit in Hemit. destruct onProgress; by injection Hemit as <-. }
  intros [|k] r m Hr Hm answer; subst answer.
  - injection Hr as <-. rewrite Nat.add_0_r. rewrite Hm in Herr. cbn [default] in Herr.
    cbn [default] in *.
    split; [done|].
    destruct (transcribeCalls_frame _ _ _ _ _ _ _ _ _ _ Hrun) as [_ Hframe].
    rewrite (proj1 (Hframe r0) Hr0).
    unfold attach, withTranscription. rewrite !Hm. cbn [default].
    destruct (truthy _); [|done].
    rewrite list_lookup_insert_eq by (by eapply lookup_lt_Some). done.
  - assert (r <> r0) as Hne.
    { intros ->. apply Hr0. by eapply list_elem_of_lookup_2. }
    destruct (IH _ _ _ Hrun Hnd k r m Hr) as [Hok Hlook].
    { by rewrite attach_lookup_ne. }
    rewrite Hcalls in Hok, Hlook.
    replace (calls w + S k)%nat with (S (calls w) + k)%nat by lia. done.
Qed.


Lemma call_of_rank (l : list JsVal) k :
  (k < length (filter (fun m => isCompletedCall m = true) l))%nat ->
  exists i m, l !! i = Some m /\ isCompletedCall m = true /\ callsBefore l i = k.
Proof.
  revert k. induction l as [|m l IH]; intros k; [simpl; lia|].
  rewrite filter_cons. destruct (isCompletedCall m) eqn:Hm.
  - rewrite decide_True by done. destruct k as [|k].
    + intros _. by exists 0%nat, m.
    + simpl. intros Hk. destruct (IH k ltac:(lia)) as (i & m' & Hi & Hc & Hrank).
      exists (S i), m'. split; [done|]. split; [done|].
      unfold callsBefore in *. cbn [take]. rewrite filter_cons, decide_True by done.
      simpl. by rewrite Hrank.
  - rewrite decide_False by done. intros Hk.
    destruct (IH k Hk) as (i & m' & Hi & Hc & Hrank).
    exists (S i), m'. split; [done|]. split; [done|].
    unfold callsBefore in *. cbn [take].
    rewrite filter_cons, decide_False; [done|]. by rewrite Hm.
Qed.

(** X2. [fetchContactHistory] sends exactly one recording request for
    each fetched message that is a completed call with a direction, and
    none for any other message. The requests of stage 3 are numbered
    from the end of the fetch: request number [k] is the lookup of the
    completed call of rank [k], for the recording of that message, and
    there are as many requests as completed calls. What the call is
    given is what the upstream answers to that very request (an error
    being a 404 or a 422 when the history is returned); every other
    message is returned as fetched. With a progress callback, what is
    last reported when there is such a call is all of them transcribed. *)
Theorem one_lookup_per_completed_call fuel loc contact w fetched w1 messages w' :
  fetchEverything upstream fuel loc contact true w = (Ret fetched, w1) ->
  fetchContactHistory host upstream fuel loc contact true w = (Ret messages, w') ->
  let n := length (filter (fun m => isCompletedCall m = true) fetched) in
  let answer i m :=
    upstream (calls w1 + callsBefore fetched i)%nat (ReqRecording loc (get m "id")) in
  calls w' = (calls w1 + n)%nat
  /\ progress w' = (if (0 <? n)%nat then PTranscriptions n n else progress w1)
  /\ (forall k, (k < n)%nat ->
        exists i m, fetched !! i = Some m /\ isCompletedCall m = true
          /\ callsBefore fetched i = k)
  /\ exists transcribed,
       messages = Array_sort (byDateAdded host) transcribed
       /\ length transcribed = length fetched
       /\ forall i m, fetched !! i = Some m ->
            if isCompletedCall m
            then (forall e, answer i m = Err e -> isNotFound e = true)
                 /\ transcribed !! i
                    = Some (withTranscription m (transcriptionIn (answer i m)))
            else transcribed !! i = Some m.
Proof.
  intros Hfetch Hrun n answer.
  destruct (fetchContactHistory_Ret_inv _ _ _ _ _ _ _ _ _ Hrun)
    as (fetched' & w1' & transcribed & Hfetch' & Htr & Hsorted).
  rewrite Hfetch in Hfetch'. injection Hfetch' as <- <-.
  unfold transcribe in Htr. apply bind_Ret_inv in Htr as (refs & w2 & Hsel & Htr).
  destruct (selectCalls 0 fetched) as [refs'|] eqn:Hrefs; [|done].
  rewrite liftR_Ok in Hsel. injection Hsel as <- <-.
  destruct (transcribeCalls_world _ _ _ _ _ _ _ _ _ Htr) as [Hcalls Hprog].
  rewrite (selectCalls_length _ _ _ Hrefs) in Hcalls, Hprog. fold n in Hcalls, Hprog.
  split; [done|]. split; [by rewrite Hprog|]. split; [apply call_of_rank|].
  exists transcribed. split; [done|].
  destruct (transcribeCalls_frame _ _ _ _ _ _ _ _ _ _ Htr) as [Hlen Hframe].
  split; [done|]. intros i m Hm.
  destruct (selectCalls_rank _ _ _ Hrefs) as (Hnd & _ & Hrank).
  destruct (isCompletedCall m) eqn:Hc.
  - apply (transcribeCalls_answers _ _ _ _ _ _ _ _ _ Htr Hnd (callsBefore fetched i) i m);
      [|done].
    by rewrite (Hrank i m Hm Hc).
  - rewrite (proj1 (Hframe i)); [done|].
    intros Hin. destruct (selectCalls_spec _ _ _ Hrefs) as [_ Hcalls'].
    destruct (Hcalls' i Hin) as (m' & _ & Hm' & Hc').
    rewrite Nat.sub_0_r, Hm in Hm'. injection Hm' as <-. congruence.
Qed.

(** X3. A contact without conversations: when the first page of the
    conversation search holds no conversation ([conversations] is an
    empty array, or is not an array), [fetchContactHistory] returns the
    empty history after that single request. *)
Theorem no_conversations_empty_history fuel loc contact onProgress w data :
  upstream (calls w) (ReqConversations loc contact None) = Ok data ->
  nullish data = false ->
  (forall items, get data "conversations" = JArr items -> items = []) ->
  exists w',
    fetchContactHistory host upstream (S fuel) loc contact onProgress w = (Ret [], w')
    /\ calls w' = S (calls w).
Proof.
  intros Hdata Hobj Hnone.
  unfold fetchContactHistory, fetchEverything, fetchAllConversations.
  cbn [fetchAllConversations_loop]. rewrite !bind_unfold.
  change (cursorParam JUndefined) with (@None JsVal).
  rewrite (apiCall_Ok _ _ _ _ Hdata), bind_unfold, (prop_Ok data), liftR_Ok by done.
  assert (match get data "conversations" with JArr items => items | _ => [] end = [])
    as ->.
  { destruct (get data "conversations"); try done. by apply Hnone. }
  rewrite bind_unfold. unfold emit. cbn.
  eexists. split; [reflexivity|]. by destruct onProgress.
Qed.

End AggregatorFacts.

(** ** The job controller: outcomes of an export *)

Section ExportFacts.

Variable host : Host.
Variable upstream : Upstream.

Lemma writeExport_Ok exportsDir job contact messages path file document :
  writeExport host exportsDir job contact messages = Ok (path, file, document) ->
  generatePDF host contact messages = Ok document
  /\ path = exportsDir +:+ "/" +:+ file
  /\ exists safe, safeName contact = Ok safe
       /\ file = safe +:+ "_" +:+ String.substring 0 8 (job_id job) +:+ ".pdf".
Proof.
  unfold writeExport, exportFile. destruct (safeName contact) as [safe|]; [|done].
  cbn [mbind Result_bind].
  destruct (generatePDF host contact messages) as [doc|]; [|done].
  cbn [mbind Result_bind]. destruct (writeError host _); [done|].
  intros [= <- <- <-]. split; [done|]. split; [done|]. by exists safe.
Qed.

(** X4. An export that is fulfilled leaves the job complete, with the
    document rendered from the history (fetched, then filtered by the
    date range) on disk under the recorded path, in the exports
    directory. Once the job is in the registry, the status route reports
    it complete with the number of messages exported and the download
    route serves that document under the recorded file name. *)
Theorem export_then_download fuel exportsDir job contact range files job' files'
    (registry : Registry) (effects : list Effect) :
  runExport host upstream fuel exportsDir job contact range files = (Ret tt, job', files') ->
  exists messages w out document file,
    fetchContactHistory host upstream fuel (locationId job) (contactId job) true
      {| calls := 0; progress := job_progress job |} = (Ret messages, w)
    /\ dateFilter host range messages = Ok out
    /\ generatePDF host contact out = Ok document
    /\ status job' = Complete
    /\ filePath job' = Some (exportsDir +:+ "/" +:+ file)
    /\ files' !! (exportsDir +:+ "/" +:+ file) = Some document
    /\ getStatus (<[job_id job := job']> registry) (job_id job)
       = StatusOf (job_id job) Complete (PComplete (length out)) (error job) (Some file)
    /\ download {| jobs := <[job_id job := job']> registry; disk := files';
                   trace := effects |} (job_id job)
       = Download document (Some file).
Proof.
  unfold runExport.
  destruct (fetchContactHistory _ _ _ _ _ _ _) as [[messages|err|] w] eqn:Hrun; [|done..].
  destruct (dateFilter host range messages) as [out|] eqn:Hout; [|done].
  destruct (writeExport _ _ _ _ _) as [[[path file] document]|] eqn:Hwrite; [|done].
  intros [= <- <-].
  apply writeExport_Ok in Hwrite as (Hpdf & -> & _).
  exists messages, w, out, document, file.
  split_and!; try done.
  - by rewrite lookup_insert_eq.
  - unfold getStatus. by rewrite lookup_insert_eq.
  - unfold download. cbn [jobs disk]. rewrite lookup_insert_eq. cbn.
    by rewrite lookup_insert_eq.
Qed.


(** X6. Any error of the first request of the conversation search fails
    the job at once: [runExport] is rejected with that error after this
    one request, nothing having been reported or written. *)
Theorem conversations_error_fails_job fuel exportsDir job contact range files err :
  upstream 0%nat (ReqConversations (locationId job) (contactId job) None) = Err err ->
  fetchContactHistory host upstream (S fuel) (locationId job) (contactId job) true
    {| calls := 0; progress := job_progress job |}
  = (Throw err, {| calls := 1; progress := job_progress job |})
  /\ runExport host upstream (S fuel) exportsDir job contact range files
     = (Throw err, failed job (job_progress job) err, files).
Proof.
  intros Hup.
  assert (fetchContactHistory host upstream (S fuel) (locationId job) (contactId job) true
            {| calls := 0; progress := job_progress job |}
          = (Throw err, {| calls := 1; progress := job_progress job |})) as Hrun.
  { unfold fetchContactHistory, fetchEverything, fetchAllConversations.
    cbn [fetchAllConversations_loop]. rewrite !bind_unfold.
    change (cursorParam JUndefined) with (@None JsVal).
    unfold apiCall. cbn [calls]. by rewrite Hup. }
  split; [done|]. by rewrite (runExport_failed _ _ _ _ _ _ _ _ _ _ Hrun).
Qed.

End ExportFacts.

(** ** The reaper: what a sweep keeps *)

Section ReaperFacts.

Variable now : Z.

Lemma cleanupEntry_fresh (s : Server) id job :
  ~ expired now job -> cleanupEntry now s (id, job) = s.
Proof.
  unfold expired, cleanupEntry. intros Hfresh.
  destruct (Z.ltb_spec JOB_TTL_MS (now - createdAt job)); done.
Qed.

Lemma cleanup_fold_fresh entries (s : Server) :
  (forall id job, (id, job) ∈ entries -> ~ expired now job) ->
  foldl (cleanupEntry now) s entries = s.
Proof.
  induction entries as [|[id job] entries IH]; intros Hfresh; [done|].
  cbn [foldl]. rewrite cleanupEntry_fresh by (apply (Hfresh id); by left).
  apply IH. intros id' job' Hin. apply (Hfresh id'). by right.
Qed.

Lemma cleanup_fold_disk entries (s : Server) path :
  (forall id job, (id, job) ∈ entries -> expired now job -> filePath job <> Some path) ->
  disk (foldl (cleanupEntry now) s entries) !! path = disk s !! path.
Proof.
  revert s. induction entries as [|[id job] entries IH]; intros s Hother; [done|].
  cbn [foldl]. rewrite IH by (intros id' job' Hin; apply (Hother id'); by right).
  unfold cleanupEntry.
  destruct (Z.ltb_spec JOB_TTL_MS (now - createdAt job)) as [Hexp|]; [|done].
  pose proof (Hother id job ltac:(by left) Hexp) as Hpath.
  destruct (filePath job) as [file|]; [|done].
  destruct (bool_decide _); [|done]. simpl.
  apply lookup_delete_ne. congruence.
Qed.

Lemma cleanup_registry (s : Server) :
  jobs (cleanupJobs now s)
  = filter (fun entry => now - createdAt entry.2 <= JOB_TTL_MS) (jobs s).
Proof.
  apply map_eq. intros id. unfold cleanupJobs.
  destruct (jobs s !! id) as [job|] eqn:Hjob.
  - destruct (Z.lt_ge_cases JOB_TTL_MS (now - createdAt job)) as [Hexp|Hfresh].
    + destruct (cleanup_fold_expired now (map_to_list (jobs s)) s id job) as [[-> _] _];
        [by apply elem_of_map_to_list|done|].
      symmetry. apply map_lookup_filter_None. right. intros job' Hjob'.
      assert (job' = job) as -> by congruence. simpl. lia.
    + rewrite cleanup_fold_keeps.
      2:{ intros job' Hin%elem_of_map_to_list. unfold expired.
          assert (job' = job) as -> by congruence. lia. }
      rewrite Hjob. symmetry. apply map_lookup_filter_Some. split; [done|].
      simpl. lia.
  - destruct (cleanup_fold_shrinks now (map_to_list (jobs s)) s) as (Hgone & _).
    rewrite Hgone by done. symmetry. apply map_lookup_filter_None. by left.
Qed.

(** X7. A sweep removes exactly the jobs whose age exceeds one hour: a
    job is in the registry after the sweep if and only if it was there
    before and was created at most [JOB_TTL_MS] before the sweep (a job
    exactly one hour old is kept), and it is unchanged. *)
Theorem sweep_removes_exactly_expired (s : Server) (id : string) (job : Job) :
  jobs (cleanupJobs now s) !! id = Some job
  <-> jobs s !! id = Some job /\ now - createdAt job <= JOB_TTL_MS.
Proof. rewrite cleanup_registry. apply map_lookup_filter_Some. Qed.

(** X8. A sweep deletes no other file: a path that no expired job
    records as its artifact holds after the sweep what it held before. *)
Theorem sweep_keeps_other_files (s : Server) (path : string) :
  (forall id job, jobs s !! id = Some job -> expired now job -> filePath job <> Some path) ->
  disk (cleanupJobs now s) !! path = disk s !! path.
Proof.
  intros Hother. unfold cleanupJobs. apply cleanup_fold_disk.
  intros id job Hin%elem_of_map_to_list. by apply (Hother id).
Qed.

End ReaperFacts.

(** X9. Sweeping again at the same time changes nothing: after a sweep
    no job is left to remove, no file to delete and no effect to
    record. *)
Theorem sweep_twice (now : Z) (s : Server) :
  cleanupJobs now (cleanupJobs now s) = cleanupJobs now s.
Proof.
  unfold cleanupJobs at 1. apply cleanup_fold_fresh.
  intros id job Hin%elem_of_map_to_list.
  rewrite cleanup_registry in Hin.
  apply map_lookup_filter_Some in Hin as [_ Hfresh].
  unfold expired. simpl in Hfresh. lia.
Qed.

(** X10. The life of a job: created at time [t], it is in the registry
    as processing; it is still there after any sweep up to one hour
    later, and gone after any sweep later than that, whatever has become
    of it in between. *)
Theorem job_lifetime (uuid : string) (t : Z) (contact loc : JsVal) (registry : Registry)
    (files : Disk) (effects : list Effect) (now : Z) :
  let '(job, registry') := createJob uuid t contact loc registry in
  let s := {| jobs := registry'; disk := files; trace := effects |} in
  getStatus registry' uuid = StatusOf uuid Processing PStarting None None
  /\ (now <= t + JOB_TTL_MS -> jobs (cleanupJobs now s) !! uuid = Some job)
  /\ (t + JOB_TTL_MS < now -> getStatus (jobs (cleanupJobs now s)) uuid = NotFound).
Proof.
  cbv beta iota zeta delta [createJob].
  split; [unfold getStatus; by rewrite lookup_insert_eq|].
  split; intros Hnow.
  - rewrite cleanup_registry. cbn [jobs]. apply map_lookup_filter_Some.
    split; [by rewrite lookup_insert_eq|]. simpl. lia.
  - unfold getStatus. rewrite cleanup_registry. cbn [jobs].
    rewrite (proj2 (map_lookup_filter_None _ _ _)); [done|].
    right. intros job. rewrite lookup_insert_eq. intros [= <-]. simpl. lia.
Qed.

(** ** The date filter and the clock of the host *)

Section DateFilterDays.

Variable host : Host.

Lemma setHours_day (t h m s ms : Z) :
  Z.abs (localDay host t * msPerDay + ((h * 60 + m) * 60 + s) * 1000 + ms - LocalTZA host)
  <= 8640000000000000 ->
  setHours host (Some t) h m s ms
  = Some (localDay host t * msPerDay + ((h * 60 + m) * 60 + s) * 1000 + ms - LocalTZA host).
Proof.
  intros Hclip. unfold setHours, timeClip. fold (localDay host t).
  by rewrite (proj2 (Z.leb_le _ _)).
Qed.

Lemma localDay_ge (t d : Z) : d * msPerDay - LocalTZA host <= t <-> d <= localDay host t.
Proof.
  unfold localDay. split; intros H.
  - apply Z.div_le_lower_bound; [done|]. lia.
  - assert (msPerDay * ((t + LocalTZA host) / msPerDay) <= t + LocalTZA host)
      by (by apply Z.mul_div_le).
    unfold msPerDay in *. nia.
Qed.

Lemma localDay_le (t d : Z) :
  t <= d * msPerDay + (msPerDay - 1) - LocalTZA host <-> localDay host t <= d.
Proof.
  unfold localDay. split; intros H.
  - assert ((t + LocalTZA host) / msPerDay < d + 1); [|lia].
    apply Z.div_lt_upper_bound; [done|]. unfold msPerDay in *. lia.
  - assert (t + LocalTZA host < msPerDay * ((t + LocalTZA host) / msPerDay + 1)).
    { pose proof (Z.mod_pos_bound (t + LocalTZA host) msPerDay ltac:(done)).
      pose proof (Z.div_mod (t + LocalTZA host) msPerDay ltac:(done)). lia. }
    unfold msPerDay in *. nia.
Qed.

(** The filter with both bounds given at local days [first] and [last]. *)
Lemma dateFilter_days range messages (first last : Z) :
  truthy (startDate range) = true -> truthy (endDate range) = true ->
  startBound host range = Some (first * msPerDay - LocalTZA host) ->
  endBound host range = Some (last * msPerDay + (msPerDay - 1) - LocalTZA host) ->
  Forall (fun m => nullish m = false) messages ->
  dateFilter host range messages
  = Ok (filter (fun m => onDays host first last m = true) messages).
Proof.
  intros Hs He Hlo Hhi Hobj. rewrite dateFilter_Ok by done. f_equal.
  apply filter_ext_in. intros m _.
  unfold retained, onDays. rewrite Hs, He, Hlo, Hhi. cbn [negb orb].
  destruct (timestamp host m) as [t|]; [|done]. cbn [dateGe dateLe].
  rewrite !andb_true_iff, !Z.leb_le. by rewrite localDay_ge, localDay_le.
Qed.

(** C4. The date filter does not keep to the days it is given on a host
    whose clock is behind UTC. A date-only bound is parsed as midnight
    UTC of its day, which on that clock is the evening before, and
    [setHours] moves it to the first or the last millisecond of that
    earlier day. With the range from day [ds] to day [de], a message
    dated on day [de] both in UTC and on the clock of the host, which is
    at or before 23:59:59.999 of the end date on either clock, is
    dropped; a message dated on day [ds - 1] on both clocks, which is
    before 00:00:00.000 of the start date on either clock, is retained. *)
Theorem date_filter_misses_the_day_behind_utc range messages (ds de : Z) :
  - msPerDay <= LocalTZA host < 0 ->
  truthy (startDate range) = true -> truthy (endDate range) = true ->
  Date_new host (startDate range) = Some (ds * msPerDay) ->
  Date_new host (endDate range) = Some (de * msPerDay) ->
  -99999999 <= ds <= 99999999 -> -99999999 <= de <= 99999999 -> ds <= de ->
  Forall (fun m => nullish m = false) messages ->
  exists out, dateFilter host range messages = Ok out
    /\ (forall m t, m ∈ messages -> timestamp host m = Some t ->
          t / msPerDay = de -> localDay host t = de -> m ∉ out)
    /\ (forall m t, m ∈ messages -> timestamp host m = Some t ->
          t / msPerDay = ds - 1 -> localDay host t = ds - 1 -> m ∈ out).
Proof.
  intros Htz Hs He Hstart Hend Hds Hde Hle Hobj.
  assert (forall d, localDay host (d * msPerDay) = d - 1) as Hday.
  { intros d. unfold localDay.
    replace (d * msPerDay + LocalTZA host)
      with ((d - 1) * msPerDay + (msPerDay + LocalTZA host)) by lia.
    rewrite Z.div_add_l by done. rewrite Z.div_small by lia. lia. }
  eexists. split.
  - apply (dateFilter_days range messages (ds - 1) (de - 1)); try done.
    + unfold startBound. rewrite Hstart, setHours_day; rewrite Hday.
      * f_equal. lia.
      * unfold msPerDay in *. lia.
    + unfold endBound. rewrite Hend, setHours_day; rewrite Hday.
      * f_equal. unfold msPerDay. lia.
      * unfold msPerDay in *. lia.
  - split; intros m t Hin Ht _ Hlocal.
    + rewrite list_elem_of_filter. unfold onDays. rewrite Ht, Hlocal.
      intros [Hon _]. apply andb_true_iff in Hon as [_ Hon]. lia.
    + apply list_elem_of_filter. split; [|done].
      unfold onDays. rewrite Ht, Hlocal. apply andb_true_iff. split; lia.
Qed.

(** X11. On a host whose clock is at or ahead of UTC, a date range given
    by two date-only strings (each parsed as midnight UTC of its day)
    retains exactly the messages dated, on the clock of the host, on a
    day from the start day to the end day, both included; a message
    without a valid date is dropped. *)
Theorem date_range_selects_local_days range messages (ds de : Z) :
  0 <= LocalTZA host < msPerDay ->
  truthy (startDate range) = true -> truthy (endDate range) = true ->
  Date_new host (startDate range) = Some (ds * msPerDay) ->
  Date_new host (endDate range) = Some (de * msPerDay) ->
  -99999999 <= ds <= 99999999 -> -99999999 <= de <= 99999999 ->
  Forall (fun m => nullish m = false) messages ->
  dateFilter host range messages
  = Ok (filter (fun m => onDays host ds de m = true) messages).
Proof.
  intros Htz Hs He Hstart Hend Hds Hde Hobj.
  assert (forall d, localDay host (d * msPerDay) = d) as Hday.
  { intros d. unfold localDay. rewrite Z.div_add_l by done.
    rewrite Z.div_small by done. lia. }
  apply dateFilter_days; try done.
  - unfold startBound. rewrite Hstart, setHours_day; rewrite Hday.
    + f_equal. lia.
    + unfold msPerDay in *. lia.
  - unfold endBound. rewrite Hend, setHours_day; rewrite Hday.
    + f_equal. unfold msPerDay. lia.
    + unfold msPerDay in *. lia.
Qed.

(** X12. On a host whose clock is behind UTC the same range is taken one
    day early: midnight UTC of a day falls on the evening before on the
    clock of the host, and [setHours] stays on that day. The messages
    retained are those dated, on the clock of the host, from the day
    before the start day to the day before the end day. *)
Theorem date_range_one_day_early_behind_utc range messages (ds de : Z) :
  - msPerDay <= LocalTZA host < 0 ->
  truthy (startDate range) = true -> truthy (endDate range) = true ->
  Date_new host (startDate range) = Some (ds * msPerDay) ->
  Date_new host (endDate range) = Some (de * msPerDay) ->
  -99999999 <= ds <= 99999999 -> -99999999 <= de <= 99999999 ->
  Forall (fun m => nullish m = false) messages ->
  dateFilter host range messages
  = Ok (filter (fun m => onDays host (ds - 1) (de - 1) m = true) messages).
Proof.
  intros Htz Hs He Hstart Hend Hds Hde Hobj.
  assert (forall d, localDay host (d * msPerDay) = d - 1) as Hday.
  { intros d. unfold localDay.
    replace (d * msPerDay + LocalTZA host)
      with ((d - 1) * msPerDay + (msPerDay + LocalTZA host)) by lia.
    rewrite Z.div_add_l by done. rewrite Z.div_small by lia. lia. }
  apply dateFilter_days; try done.
  - unfold startBound. rewrite Hstart, setHours_day; rewrite Hday.
    + f_equal. lia.
    + unfold msPerDay in *. lia.
  - unfold endBound. rewrite Hend, setHours_day; rewrite Hday.
    + f_equal. unfold msPerDay. lia.
    + unfold msPerDay in *. lia.
Qed.

(** X13. A bound that is given but is not a date ([new Date] of it is
    invalid) retains nothing: every comparison with it is false, so the
    export is empty rather than rejected. *)
Theorem invalid_bound_retains_nothing range messages :
  truthy (startDate range) = true /\ Date_new host (startDate range) = None
  \/ truthy (endDate range) = true /\ Date_new host (endDate range) = None ->
  Forall (fun m => nullish m = false) messages ->
  dateFilter host range messages = Ok [].
Proof.
  intros Hbad Hobj. rewrite dateFilter_Ok by done. f_equal.
  apply filter_none, Forall_forall. intros m _. unfold retained.
  destruct Hbad as [[Ht Hd]|[Ht Hd]]; rewrite Ht; cbn [negb orb].
  - unfold startBound, setHours. rewrite Hd.
    destruct (timestamp host m); cbn; by rewrite ?andb_false_l.
  - unfold endBound, setHours. rewrite Hd.
    destruct (timestamp host m); cbn; rewrite ?andb_false_r; done.
Qed.

End DateFilterDays.

(** ** File names *)

Lemma safeChar_allowed c : safeChar c ∈ fileNameChars.
Proof.
  unfold safeChar.
  destruct (_ || _)%bool eqn:Hc; [|by vm_compute; apply list_elem_of_In; vm_compute; tauto].
  rewrite <- (ascii_nat_embedding c). 
  assert (nat_of_ascii c < 256)%nat as Hlt by apply nat_ascii_bounded.
  revert Hc Hlt. generalize (nat_of_ascii c). intros n Hc Hlt.
  apply list_elem_of_In.
  do 123 (destruct n as [|n]; [first [discriminate Hc | vm_compute; tauto]|]).
  exfalso. revert Hc. clear.
  rewrite !orb_true_iff, !andb_true_iff, !Nat.leb_le, !Nat.eqb_eq. lia.
Qed.

Lemma safeChar_keeps c : c ∈ fileNameChars -> safeChar c = c.
Proof.
  intros H. apply list_elem_of_In in H. vm_compute in H.
  repeat (destruct H as [<-|H]; [reflexivity|]). done.
Qed.

Lemma sanitize_chars s :
  String.list_ascii_of_string (sanitize s) = safeChar <$> String.list_ascii_of_string s.
Proof. induction s as [|c s IH]; [done|]. simpl. by rewrite IH. Qed.

(** X14. The part of the file name taken from the contact name: every
    character outside letters, digits, underscore and hyphen is replaced
    by an underscore and every other character is kept, one for one. The
    result has the length of the name and none of the characters that
    would make the name a path (slash, backslash, dot), and sanitising
    it again changes nothing. *)
Theorem sanitize_file_name (s : string) :
  let name := String.list_ascii_of_string s in
  let safe := String.list_ascii_of_string (sanitize s) in
  Forall (fun c => c ∈ fileNameChars) safe
  /\ length safe = length name
  /\ (forall i c, name !! i = Some c ->
        safe !! i = Some (if bool_decide (c ∈ fileNameChars) then c else "_"%char))
  /\ ("/"%char ∉ safe) /\ ("\"%char ∉ safe) /\ ("."%char ∉ safe)
  /\ sanitize (sanitize s) = sanitize s.
Proof.
  intros name safe. subst name safe. rewrite sanitize_chars.
  assert (Forall (fun c => c ∈ fileNameChars) (safeChar <$> String.list_ascii_of_string s))
    as Hall.
  { apply Forall_fmap, Forall_forall. intros c _. apply safeChar_allowed. }
  split; [done|]. split; [by rewrite length_fmap|]. split.
  { intros i c Hc. rewrite list_lookup_fmap, Hc. simpl. f_equal.
    case_bool_decide as Hin; [by apply safeChar_keeps|].
    destruct (decide (safeChar c = c)) as [Heq|Hne].
    - destruct Hin. rewrite <- Heq. apply safeChar_allowed.
    - unfold safeChar in *. by destruct (_ || _)%bool. }
  rewrite Forall_forall in Hall.
  split; [intros Hin%Hall; apply list_elem_of_In in Hin; vm_compute in Hin; intuition discriminate|].
  split; [intros Hin%Hall; apply list_elem_of_In in Hin; vm_compute in Hin; intuition discriminate|].
  split; [intros Hin%Hall; apply list_elem_of_In in Hin; vm_compute in Hin; intuition discriminate|].
  clear. induction s as [|c s IH]; [done|]. simpl.
  by rewrite IH, (safeChar_keeps _ (safeChar_allowed c)).
Qed.

(** ** The cover statistics *)

Lemma mapResult_Forall2 {A B} (f : A -> Result B) (l : list A) (ys : list B) :
  mapResult f l = Ok ys -> Forall2 (fun x y => f x = Ok y) l ys.
Proof.
  revert ys. induction l as [|x l IH]; intros ys; [intros [= <-]; constructor|].
  cbn [mapResult]. destruct (f x) as [y|] eqn:Hy; [|done].
  destruct (mapResult f l) as [rest|]; [|done].
  intros [= <-]. constructor; [done|]. by apply IH.
Qed.

Lemma setAddAll_spec (seen labels : list string) :
  NoDup seen ->
  NoDup (setAddAll seen labels)
  /\ forall l, l ∈ setAddAll seen labels <-> l ∈ seen \/ l ∈ labels.
Proof.
  revert seen. induction labels as [|x labels IH]; intros seen Hnd.
  - split; [done|]. intros l. rewrite elem_of_nil. tauto.
  - cbn [setAddAll]. case_bool_decide as Hx.
    + destruct (IH seen Hnd) as [Hnd' Hin]. split; [done|].
      intros l. rewrite Hin, elem_of_cons.
      split; [tauto|]. intros [?|[->|?]]; tauto.
    + destruct (IH (seen ++ [x])) as [Hnd' Hin].
      { apply NoDup_app. split; [done|]. split; [|apply NoDup_singleton].
        intros y Hy ->%list_elem_of_singleton. done. }
      split; [done|]. intros l.
      rewrite Hin, elem_of_app, list_elem_of_singleton, elem_of_cons. tauto.
Qed.

Section StatsFacts.

Variable host : Host.

(** X15. The channels shown on the cover are the labels of the messages
    as a set: each label that [messageTypeLabel] gives to some message is
    listed, once, and nothing else is. *)
Theorem stats_channels_are_the_labels (messages : list JsVal) (stats : Stats) :
  getMessageStats host messages = Ok stats ->
  NoDup (channels stats)
  /\ forall label, label ∈ channels stats
       <-> exists m, m ∈ messages /\ messageTypeLabel m = Ok label.
Proof.
  unfold getMessageStats. destruct messages as [|first rest].
  { intros [= <-]. split; [constructor|]. intros label. simpl.
    rewrite elem_of_nil. split; [done|]. intros (m & Hm & _). by apply elem_of_nil in Hm. }
  destruct (prop first "dateAdded"); [|done]. cbn [mbind Result_bind].
  destruct (prop (lastItem _) "dateAdded"); [|done]. cbn [mbind Result_bind].
  destruct (mapResult messageTypeLabel (first :: rest)) as [labels|] eqn:Hlabels; [|done].
  cbn [mbind Result_bind]. intros [= <-]. cbn [channels].
  destruct (setAddAll_spec [] labels) as [Hnd Hin]; [constructor|].
  split; [done|]. intros label. rewrite Hin, elem_of_nil.
  apply mapResult_Forall2 in Hlabels.
  split.
  - intros [[]|Hl].
    destruct (proj1 (list_elem_of_lookup _ _) Hl) as [i Hi].
    destruct (Forall2_lookup_r _ _ _ _ _ Hlabels Hi) as (m & Hm & Hlabel).
    exists m. split; [|done]. by eapply list_elem_of_lookup_2.
  - intros (m & Hm & Hlabel). right.
    destruct (proj1 (list_elem_of_lookup _ _) Hm) as [i Hi].
    destruct (Forall2_lookup_l _ _ _ _ _ Hlabels Hi) as (l' & Hl' & Hlabel').
    assert (l' = label) as -> by congruence. by eapply list_elem_of_lookup_2.
Qed.

End StatsFacts.

(** ** The pages before the current one *)

Section PageFrame.

Variable host : Host.
Variable n : nat.
Variable d0 : Doc.
Hypothesis Hn : (n <= length (buffer d0))%nat.

Lemma kept_start : (n <= page d0)%nat -> keepsPages n d0 d0.
Proof. by split. Qed.

Lemma kept_inside d : keepsPages n d0 d -> (n <= page d)%nat /\ (n <= length (buffer d))%nat.
Proof. intros (_ & Hp & Hl). lia. Qed.

Lemma kept_setFont d size font :
  keepsPages n d0 d -> keepsPages n d0 (setFont d size font).
Proof. by intros (? & ? & ?). Qed.

Lemma kept_moveTo d x y : keepsPages n d0 d -> keepsPages n d0 (moveTo d x y).
Proof. by intros (? & ? & ?). Qed.

Lemma kept_moveDown d k : keepsPages n d0 d -> keepsPages n d0 (moveDown host d k).
Proof. apply kept_moveTo. Qed.

Lemma kept_draw d it : keepsPages n d0 d -> keepsPages n d0 (draw d it).
Proof.
  intros H. destruct (kept_inside d H).
  eapply keepsPages_trans; [done|]. by apply keepsPages_draw.
Qed.

Lemma kept_strokeLine d x1 x2 : keepsPages n d0 d -> keepsPages n d0 (strokeLine d x1 x2).
Proof. apply kept_draw. Qed.

Lemma kept_addPage d : keepsPages n d0 d -> keepsPages n d0 (addPage d).
Proof.
  intros H. destruct (kept_inside d H). destruct H as (Ht & Hp & Hl).
  unfold keepsPages, addPage. cbn [buffer page].
  rewrite take_app_le by lia. rewrite length_app. simpl. split; [done|]. lia.
Qed.

Lemma kept_continueOnNewPage d x :
  keepsPages n d0 d -> keepsPages n d0 (continueOnNewPage d x).
Proof. intros H. by apply kept_moveTo, kept_addPage. Qed.

Lemma kept_startOnPage d x y :
  keepsPages n d0 d -> keepsPages n d0 (startOnPage host d x y).
Proof.
  intros H. unfold startOnPage.
  destruct (_ || _)%bool; [apply kept_continueOnNewPage|]; by apply kept_moveTo.
Qed.

Lemma kept_flowLines d x lh gap lines :
  keepsPages n d0 d -> keepsPages n d0 (flowLines d x lh gap lines).
Proof.
  intros H. destruct (kept_inside d H).
  eapply keepsPages_trans; [done|]. by apply keepsPages_flowLines.
Qed.

Lemma kept_text d s x y width gap :
  keepsPages n d0 d -> keepsPages n d0 (text host d s x y width gap).
Proof. intros H. by apply kept_flowLines, kept_startOnPage. Qed.

Lemma kept_textContinued d s x y :
  keepsPages n d0 d -> keepsPages n d0 (textContinued host d s x y).
Proof. intros H. by apply kept_draw, kept_startOnPage. Qed.

Lemma kept_bodyText d s gap :
  keepsPages n d0 d -> keepsPages n d0 (bodyText host d s gap).
Proof. apply kept_text. Qed.

Lemma kept_checkPageBreak d needed :
  keepsPages n d0 d -> keepsPages n d0 (checkPageBreak d needed).
Proof.
  intros H. unfold checkPageBreak. destruct needed as [k|]; [|done].
  destruct (Qlt_bool _ _); [by apply kept_addPage|done].
Qed.

Ltac kept :=
  repeat first
    [ assumption
    | apply kept_text | apply kept_textContinued | apply kept_bodyText
    | apply kept_setFont | apply kept_moveDown | apply kept_strokeLine
    | apply kept_checkPageBreak
    | match goal with |- keepsPages _ _ (if ?c then _ else _) => destruct c end
    | match goal with |- keepsPages _ _ (let _ := _ in _) => cbv zeta end ].

Lemma kept_renderAttachments d msg d' :
  keepsPages n d0 d -> renderAttachments host d msg = Ok d' -> keepsPages n d0 d'.
Proof.
  intros H. unfold renderAttachments.
  destruct (spread _) as [attachments|]; [|done]. cbn [mbind Result_bind].
  destruct (_ =? _)%nat; [by intros [= <-]|].
  assert (keepsPages n d0 (setFont (moveDown host d 0.2) 9 "Helvetica-Oblique")) as H1
    by by apply kept_setFont, kept_moveDown.
  revert H1. generalize (setFont (moveDown host d 0.2) 9 "Helvetica-Oblique").
  clear H. intros d1 H1. revert d1 H1.
  induction attachments as [|att attachments IH]; intros d1 H1; [by intros [= <-]|].
  cbn [fold_left]. unfold renderAttachment at 2. cbn [mbind Result_bind].
  destruct (attachmentName host att) as [name|] eqn:Hname; cbn [mbind Result_bind].
  - apply IH. by apply kept_bodyText.
  - clear. intros Habs. exfalso. revert Habs.
    induction attachments as [|a l IH]; [done|]. exact IH.
Qed.

Lemma kept_renderTextMessage d msg d' :
  keepsPages n d0 d -> renderTextMessage host d msg = Ok d' -> keepsPages n d0 d'.
Proof.
  intros H. unfold renderTextMessage.
  destruct (negb _); [by intros [= <-]|].
  apply kept_renderAttachments. by apply kept_bodyText, kept_setFont.
Qed.

Lemma kept_renderEmailMessage d msg d' :
  keepsPages n d0 d -> renderEmailMessage host d msg = Ok d' -> keepsPages n d0 d'.
Proof.
  intros H. unfold renderEmailMessage.
  apply kept_renderAttachments.
  repeat first
    [ done
    | apply kept_bodyText | apply kept_setFont | apply kept_moveDown
    | apply kept_strokeLine
    | match goal with |- keepsPages _ _ (if ?c then _ else _) => destruct c end
    | match goal with |- keepsPages _ _ (let _ := _ in _) => cbv zeta end ].
Qed.

Lemma kept_renderCallMessage d msg :
  keepsPages n d0 d -> keepsPages n d0 (renderCallMessage host d msg).
Proof.
  intros H. unfold renderCallMessage.
  repeat first
    [ done
    | apply kept_bodyText | apply kept_setFont | apply kept_moveDown
    | match goal with |- keepsPages _ _ (if ?c then _ else _) => destruct c end
    | match goal with |- keepsPages _ _ (let _ := _ in _) => cbv zeta end ].
Qed.

Lemma kept_renderMessage d msg i d' :
  keepsPages n d0 d -> renderMessage host d msg i = Ok d' -> keepsPages n d0 d'.
Proof.
  intros H. unfold renderMessage.
  destruct (prop msg "direction") as [direction|]; [|done]. cbn [mbind Result_bind].
  destruct (messageTypeLabel msg) as [channel|]; [|done]. cbn [mbind Result_bind].
  cbv zeta.
  destruct (_ || _)%bool; cbn [mbind Result_bind].
  - intros [= <-]. apply kept_moveDown, kept_renderCallMessage. kept.
  - destruct (String.eqb channel "Email").
    + destruct (renderEmailMessage host _ msg) as [d2|] eqn:H2; [|done].
      cbn [mbind Result_bind]. intros [= <-].
      apply kept_moveDown. eapply kept_renderEmailMessage; [|exact H2]. kept.
    + destruct (renderTextMessage host _ msg) as [d2|] eqn:H2; [|done].
      cbn [mbind Result_bind]. intros [= <-].
      apply kept_moveDown. eapply kept_renderTextMessage; [|exact H2]. kept.
Qed.

Lemma kept_renderMessages messages d i d' :
  keepsPages n d0 d -> renderMessages host d i messages = Ok d' -> keepsPages n d0 d'.
Proof.
  revert d i. induction messages as [|msg messages IH]; intros d i H.
  - by intros [= <-].
  - cbn [renderMessages].
    destruct (renderMessage host d msg i) as [d1|] eqn:H1; [|done].
    apply IH. by eapply kept_renderMessage.
Qed.

End PageFrame.

Section RendererFacts.

Variable host : Host.

(** X16. The cover is never drawn over: in the document [generatePDF]
    returns, the pages the cover was rendered on are exactly as
    [renderCoverPage] left them, whatever the messages are and however
    many pages they and the footers take. *)
Theorem cover_is_never_drawn_over (contact : Contact) (messages : list JsVal)
    (document : Doc) :
  generatePDF host contact messages = Ok document ->
  exists cover,
    renderCoverPage host newDocument contact messages = Ok cover
    /\ take (length (buffer cover)) (buffer document) = buffer cover
    /\ (length (buffer cover) <= length (buffer document))%nat.
Proof.
  unfold generatePDF, renderContent.
  destruct (renderCoverPage host newDocument contact messages) as [cover|]; [|done].
  cbn [mbind Result_bind]. intros Hdoc. exists cover. split; [done|].
  assert (exists d, Ok d = Ok (A := Doc) d /\ document = addPageNumbers host d
                    /\ take (length (buffer cover)) (buffer d) = buffer cover
                    /\ (length (buffer cover) <= length (buffer d))%nat)
    as (d & _ & -> & Htake & Hlen).
  { destruct (0 <? length messages)%nat.
    - destruct (renderMessages host (addPage cover) 0 messages) as [d|] eqn:Hd; [|done].
      cbn [mbind Result_bind] in Hdoc. injection Hdoc as <-.
      exists d. split; [done|]. split; [done|].
      assert (length (buffer cover) <= length (buffer (addPage cover)))%nat as Hn
        by (unfold addPage; cbn [buffer]; rewrite length_app; lia).
      assert (keepsPages (length (buffer cover)) (addPage cover) (addPage cover)) as H0
        by by apply kept_start.
      destruct (kept_renderMessages host _ _ Hn messages _ 0%nat d H0 Hd) as (Ht & _ & Hl).
      unfold addPage in Ht, Hl. cbn [buffer] in Ht, Hl.
      rewrite take_app_le in Ht by lia. rewrite (take_ge (buffer cover)) in Ht by lia.
      rewrite length_app in Hl. simpl in Hl. split; [done|lia].
    - cbn [mbind Result_bind] in Hdoc. injection Hdoc as <-.
      exists cover. split; [done|]. split; [done|]. split; [by apply take_ge|done]. }
  unfold addPageNumbers.
  destruct (addPageNumbers_fold host (length (buffer d)) (seq 0 (length (buffer d))) d
              (length (buffer cover)) Hlen) as [Ht Hl].
  split; [by rewrite Ht|]. lia.
Qed.

End RendererFacts.

(** ** Page breaks *)

Lemma Qlt_bool_false a b : Qlt_bool a b = false -> (b <= a)%Q.
Proof.
  unfold Qlt_bool. intros H. apply negb_false_iff in H. by apply Qle_bool_iff.
Qed.

Lemma estimatedHeight_bounds body needed :
  estimatedHeight body = Some needed -> (82 <= needed <= 200)%Q.
Proof.
  unfold estimatedHeight. destruct (jsLength body) as [k|]; [|done].
  intros [= <-].
  change 82%Q with (inject_Z 82). change 200%Q with (inject_Z 200).
  rewrite <- !Zle_Qle.
  assert (0 <= Z.of_nat ((k + 79) / 80)) by lia. lia.
Qed.

(** X17. Before the header of a message is drawn there is room for it:
    the height estimated for the message, between 82 and 200 points
    whatever the length of its body, fits between the cursor and 30
    points above the bottom margin, on the current page or, failing
    that, at the top of a page added for it. *)
Theorem page_break_leaves_room (d : Doc) (body : JsVal) (needed : Q) :
  estimatedHeight body = Some needed ->
  let d' := checkPageBreak d (estimatedHeight body) in
  (82 <= needed <= 200)%Q
  /\ (docY d' + needed <= PAGE_HEIGHT - MARGIN - 30)%Q
  /\ (d' = d \/ d' = addPage d /\ (PAGE_HEIGHT - MARGIN - 30 < docY d + needed)%Q).
Proof.
  intros Hneeded d'. subst d'. rewrite Hneeded.
  pose proof (estimatedHeight_bounds _ _ Hneeded) as Hb.
  split; [done|]. unfold checkPageBreak.
  destruct (Qlt_bool _ _) eqn:Hover.
  - split.
    + unfold addPage, PAGE_HEIGHT, MARGIN. cbn [docY]. lra.
    + right. split; [done|].
      unfold Qlt_bool in Hover. apply negb_true_iff in Hover.
      apply Qnot_le_lt. intros Hle%Qle_bool_iff. congruence.
  - split; [by apply Qlt_bool_false|by left].
Qed.

(** ** Token storage *)

Lemma Io_bind_unfold {S A B} (m : Io S A) (f : A -> Io S B) s :
  (m ≫= f) s = match m s with
               | (Ok a, s') => f a s'
               | (Err e, s') => (Err e, s')
               end.
Proof. done. Qed.

Lemma jsonField_object fields :
  jsonField (JObj fields) = Some (jsonRoundTrip (JObj fields)).
Proof. done. Qed.

Lemma storedTokens_truthy now tokenData : truthy (storedTokens now tokenData) = true.
Proof. done. Qed.

Section StoreFacts.

Variable host : Host.

Lemma readJson_after_write (st : Store.State) data st' :
  Store.writeJson data st = (Ok tt, st') ->
  Store.pool st' = Store.pool st
  /\ Store.readJson st' = (Ok (omap jsonField data), st').
Proof.
  unfold Store.writeJson, Store.readJson. rewrite !Io_bind_unfold.
  unfold Store.ensureDataDir, io, Store.withFiles.
  destruct st as [p [dir content ro]]. cbn.
  destruct dir, ro; cbn; try done; intros [= <-]; done.
Qed.

Lemma readJson_pool (st : Store.State) r st' :
  Store.readJson st = (r, st') -> Store.pool st' = Store.pool st.
Proof.
  unfold Store.readJson. rewrite Io_bind_unfold.
  unfold Store.ensureDataDir, io, Store.withFiles.
  destruct st as [p [dir content ro]]. cbn.
  destruct dir, ro, content; cbn; intros H; by inversion H.
Qed.

Lemma saveToFile_pool locationId data (st : Store.State) r st' :
  Store.saveToFile host locationId data st = (r, st') -> Store.pool st' = Store.pool st.
Proof.
  unfold Store.saveToFile, Store.readJson, Store.writeJson. rewrite !Io_bind_unfold.
  unfold Store.ensureDataDir, io, Store.withFiles.
  destruct st as [p [dir content ro]]. cbn.
  destruct dir, ro, content; cbn; intros H; by inversion H.
Qed.

Lemma saveTokens_getTokens (now : string) (locationId tokenData : JsVal)
    (st st' : Store.State) :
  Store.saveTokens host now locationId tokenData st = (Ok tt, st') ->
  exists st'',
    Store.getTokens host locationId st' = (Ok (storedTokens now tokenData), st'').
Proof.
  unfold Store.saveTokens, Store.getTokens.
  destruct (Store.pool st) as [db|] eqn:Hpool.
  - unfold Store.upsert, Store.selectData.
    destruct (Store.failure db) as [e|] eqn:Hfail; [done|].
    destruct (Store.sqlText host locationId) as [k|] eqn:Hk; [|done].
    destruct (Store.saveToFile host locationId _ _) as [r st1] eqn:Hfile.
    apply saveToFile_pool in Hfile. cbn [Store.pool] in Hfile.
    intros Hsaved. assert (st' = st1) as ->.
    { destruct r as [[]|]; [by injection Hsaved|].
      rewrite Hfile in Hsaved. by injection Hsaved. }
    rewrite Hfile. cbn [Store.failure Store.rows mbind option_bind].
    rewrite lookup_insert_eq. by eexists.
  - destruct (Store.saveToFile host locationId _ st) as [r st1] eqn:Hfile.
    pose proof (saveToFile_pool _ _ _ _ _ Hfile) as Hp1. rewrite Hpool in Hp1.
    destruct r as [[]|e]; [|by rewrite Hp1].
    intros [= <-].
    unfold Store.saveToFile in Hfile. rewrite Io_bind_unfold in Hfile.
    destruct (Store.readJson st) as [[all|] st0] eqn:Hread; [|done].
    apply readJson_after_write in Hfile as [Hp Hread'].
    rewrite Hp1, Io_bind_unfold, Hread'.
    rewrite lookup_omap, lookup_insert_eq. cbn. by eexists.
Qed.

Lemma storedTokens_field now tokenData k (s : string) :
  k <> "updatedAt" -> get tokenData k = JStr s ->
  get (storedTokens now tokenData) k = JStr s.
Proof.
  intros Hk Hs. destruct tokenData; try done. cbn [get] in Hs.
  unfold storedTokens. cbn [jsonRoundTrip ownProperties get].
  rewrite lookup_omap, lookup_insert_ne by done.
  destruct (fields !! k) as [v|]; [|done]. cbn in Hs. by subst v.
Qed.

(** X18. What is saved can be read back: after [saveTokens] has been
    fulfilled for a location, with a database or with the file alone,
    [getTokens] for that location returns the token data saved, as it
    survives JSON: a truthy value that carries the time of the save
    under [updatedAt] and every string field of the token data, such as
    the access token and the refresh token, unchanged. *)
Theorem saved_tokens_are_read_back (now : string) (locationId tokenData : JsVal)
    (st st' : Store.State) :
  Store.saveTokens host now locationId tokenData st = (Ok tt, st') ->
  exists st'' tokens,
    Store.getTokens host locationId st' = (Ok tokens, st'')
    /\ tokens = storedTokens now tokenData
    /\ truthy tokens = true
    /\ get tokens "updatedAt" = JStr now
    /\ forall k s, k <> "updatedAt" -> get tokenData k = JStr s -> get tokens k = JStr s.
Proof.
  intros Hsaved. destruct (saveTokens_getTokens _ _ _ _ _ Hsaved) as [st'' Hget].
  exists st'', (storedTokens now tokenData).
  split; [done|]. split; [done|]. split; [done|]. split.
  - unfold storedTokens. cbn [jsonRoundTrip get].
    by rewrite lookup_omap, lookup_insert_eq.
  - intros k s. apply storedTokens_field.
Qed.

End StoreFacts.

Section StoreErrors.

Variable host : Host.

(** X19. Errors of the token file matter only when there is no
    database: with a reachable database [saveTokens] is fulfilled for any
    location id that is not null or undefined, whatever the state of the
    file (read-only, unparsable), and the row is written; without a
    database the error of the file is the error of [saveTokens]. *)
Theorem file_errors_matter_only_without_database (now : string)
    (locationId tokenData : JsVal) (st : Store.State) :
  (forall db, Store.pool st = Some db -> Store.failure db = None ->
     nullish locationId = false ->
     exists st' db',
       Store.saveTokens host now locationId tokenData st = (Ok tt, st')
       /\ Store.pool st' = Some db'
       /\ Store.rows db' !! Store.key host locationId = Some (storedTokens now tokenData))
  /\ (Store.pool st = None ->
      forall e st1,
        Store.saveToFile host locationId
          (JObj (<["updatedAt" := JStr now]> (ownProperties tokenData))) st = (Err e, st1) ->
        Store.saveTokens host now locationId tokenData st = (Err e, st1)).
Proof.
  split.
  - intros db Hpool Hfail Hloc. unfold Store.saveTokens, Store.upsert, Store.sqlText.
    rewrite Hpool, Hfail, Hloc. fold (Store.key host locationId).
    destruct (Store.saveToFile host locationId _ _) as [r st1] eqn:Hfile.
    apply saveToFile_pool in Hfile. cbn [Store.pool] in Hfile.
    exists st1. eexists. split; [|split; [exact Hfile|]].
    + destruct r as [[]|]; [done|]. by rewrite Hfile.
    + cbn [Store.rows]. by rewrite lookup_insert_eq.
  - intros Hpool e st1 Hfile. unfold Store.saveTokens. rewrite Hpool, Hfile.
    apply saveToFile_pool in Hfile. by rewrite Hfile, Hpool.
Qed.

Lemma getTokens_again locationId (st : Store.State) v st' :
  Store.getTokens host locationId st = (Ok v, st') ->
  Store.getTokens host locationId st' = (Ok v, st').
Proof.
  unfold Store.getTokens. destruct (Store.pool st) as [db|] eqn:Hpool.
  - intros [= Hv <-]. by rewrite Hpool, Hv.
  - rewrite Io_bind_unfold.
    destruct (Store.readJson st) as [[all|] st0] eqn:Hread; [|done].
    intros [= <- <-]. rewrite (readJson_pool _ _ _ Hread), Hpool, Io_bind_unfold.
    assert (Store.readJson st0 = (Ok all, st0)) as ->; [|done].
    revert Hread. unfold Store.readJson. rewrite !Io_bind_unfold.
    unfold Store.ensureDataDir, io, Store.withFiles.
    destruct st as [p [dir content ro]]. cbn.
    destruct dir, ro, content; cbn; intros H; by inversion H.
Qed.

End StoreErrors.

(** ** The authenticated client *)

Section ClientFacts.

Variable host : Host.
Variable http : Ghl.Http.
Variable now : string.

Lemma inStore_unfold {A} (m : Io Store.State A) (st : Ghl.State) :
  Ghl.inStore m st
  = ((m (Ghl.store st)).1, {| Ghl.sent := Ghl.sent st; Ghl.store := (m (Ghl.store st)).2 |}).
Proof. unfold Ghl.inStore. by destruct (m (Ghl.store st)). Qed.

(** X20. A response, or an error other than a 401, of the first attempt
    is the outcome of [apiCall]: one request is sent, with the stored
    access token as bearer, and nothing is refreshed or saved. *)
Theorem apiCall_first_attempt (locationId : JsVal) (method url : string) (data : JsVal)
    (st : Ghl.State) (tokens : JsVal) (store1 : Store.State) :
  let request := Ghl.Send (Ghl.bearer host (get tokens "access_token")) method url
                   (if truthy data then Some data else None) in
  let outcome := http (length (Ghl.sent st)) request in
  Store.getTokens host locationId (Ghl.store st) = (Ok tokens, store1) ->
  truthy tokens = true ->
  (forall err, outcome = Err err -> err_status err <> Some 401) ->
  Ghl.apiCall host http now locationId method url data st
  = (outcome, {| Ghl.sent := Ghl.sent st ++ [request]; Ghl.store := store1 |}).
Proof.
  intros request outcome Hget Htokens Hother.
  unfold Ghl.apiCall. rewrite Io_bind_unfold, inStore_unfold, Hget. cbn [fst snd].
  rewrite Htokens. cbn [negb]. unfold Ghl.sendWithRefresh.
  fold request. unfold Ghl.axios at 1. cbn [Ghl.sent Ghl.store]. fold outcome.
  destruct outcome as [response|err] eqn:Hout; [done|].
  rewrite bool_decide_eq_false_2; [done|]. by apply Hother.
Qed.

(** X21. On a 401 the token is refreshed once and the request is sent
    once more: the refresh posts the stored refresh token, the tokens
    stored are the old ones overridden by the response, and the second
    attempt carries the new access token. Its response or its error,
    a 401 included, is the outcome; nothing more is sent. *)
Theorem apiCall_refreshes_once_on_401 (locationId : JsVal) (method url : string)
    (data : JsVal) (st : Ghl.State) (tokens : JsVal) (store1 store2 : Store.State)
    (err : JsError) (fresh : JsVal) :
  let n := length (Ghl.sent st) in
  let body := if truthy data then Some data else None in
  let first := Ghl.Send (Ghl.bearer host (get tokens "access_token")) method url body in
  let refresh := Ghl.PostToken "refresh_token" (get tokens "refresh_token") in
  let second := Ghl.Send (Ghl.bearer host (get fresh "access_token")) method url body in
  Store.getTokens host locationId (Ghl.store st) = (Ok tokens, store1) ->
  truthy tokens = true ->
  http n first = Err err ->
  err_status err = Some 401 ->
  http (S n) refresh = Ok fresh ->
  nullish fresh = false ->
  Store.saveTokens host now locationId (spreadBoth tokens fresh) store1 = (Ok tt, store2) ->
  Ghl.apiCall host http now locationId method url data st
  = (http (S (S n)) second,
     {| Ghl.sent := Ghl.sent st ++ [first; refresh; second]; Ghl.store := store2 |}).
Proof.
  intros n body first refresh second Hget Htokens Hfirst H401 Hrefresh Hfresh Hsave.
  unfold Ghl.apiCall. rewrite Io_bind_unfold, inStore_unfold, Hget. cbn [fst snd].
  rewrite Htokens. cbn [negb]. unfold Ghl.sendWithRefresh.
  fold body first. unfold Ghl.axios at 1. cbn [Ghl.sent Ghl.store]. fold n.
  rewrite Hfirst, bool_decide_eq_true_2 by done.
  rewrite Io_bind_unfold. unfold Ghl.refreshAccessToken.
  rewrite Io_bind_unfold, inStore_unfold. cbn [Ghl.store Ghl.sent].
  rewrite (getTokens_again _ _ _ _ _ Hget). cbn [fst snd]. rewrite Htokens. cbn [negb].
  rewrite Io_bind_unfold. fold refresh. unfold Ghl.axios at 1. cbn [Ghl.sent Ghl.store].
  rewrite length_app. simpl length. rewrite Nat.add_1_r. fold n. rewrite Hrefresh.
  rewrite Io_bind_unfold, inStore_unfold. cbn [Ghl.store Ghl.sent]. rewrite Hsave.
  cbn [fst snd]. unfold io. rewrite (prop_Ok fresh) by done.
  fold second. unfold Ghl.axios. cbn [Ghl.sent Ghl.store].
  rewrite !length_app. simpl length. rewrite !Nat.add_1_r. fold n.
  by rewrite <- !app_assoc.
Qed.

(** A location without stored tokens: [apiCall] is rejected with the
    message naming the location, and no request is sent. *)
Lemma apiCall_without_tokens (locationId : JsVal) (method url : string) (data : JsVal)
    (st : Ghl.State) (tokens : JsVal) (store1 : Store.State) :
  Store.getTokens host locationId (Ghl.store st) = (Ok tokens, store1) ->
  truthy tokens = false ->
  Ghl.apiCall host http now locationId method url data st
  = (Err (Error ("No tokens for location " +:+ ToString host locationId)),
     {| Ghl.sent := Ghl.sent st; Ghl.store := store1 |}).
Proof.
  intros Hget Htokens.
  unfold Ghl.apiCall. rewrite Io_bind_unfold, inStore_unfold, Hget. cbn [fst snd].
  by rewrite Htokens.
Qed.

Lemma refreshAccessToken_sends locationId (st : Ghl.State) r st' :
  Ghl.refreshAccessToken host http now locationId st = (r, st') ->
  (Ghl.sent st' = Ghl.sent st /\ exists e, r = Err e)
  \/ exists credential,
       Ghl.sent st' = Ghl.sent st ++ [Ghl.PostToken "refresh_token" credential].
Proof.
  unfold Ghl.refreshAccessToken. rewrite Io_bind_unfold, inStore_unfold.
  destruct (Store.getTokens host locationId (Ghl.store st)) as [[existing|e] store1];
    cbn [fst snd]; [|intros [= <- <-]; left; split; [done|by eexists]].
  destruct (truthy existing); cbn [negb];
    [|intros [= <- <-]; left; split; [done|by eexists]].
  rewrite Io_bind_unfold. unfold Ghl.axios at 1. cbn [Ghl.sent Ghl.store].
  destruct (http _ _) as [fresh|e].
  2:{ intros [= <- <-]. right. by eexists. }
  rewrite Io_bind_unfold, inStore_unfold. cbn [Ghl.sent Ghl.store].
  destruct (Store.saveTokens host now locationId _ store1) as [[[]|e] store2];
    cbn [fst snd].
  2:{ intros [= <- <-]. right. by eexists. }
  unfold io. intros [= <- <-]. right. by eexists.
Qed.

(** X22. [apiCall] never sends more than an attempt, one refresh and a
    second attempt, in this order: the requests it adds to those sent
    are a prefix of these three, the two attempts differing only in
    their bearer. When it sends none it is rejected. *)
Theorem apiCall_sends_at_most_three (locationId : JsVal) (method url : string)
    (data : JsVal) (st : Ghl.State) (r : Result JsVal) (st' : Ghl.State) :
  Ghl.apiCall host http now locationId method url data st = (r, st') ->
  exists requests bearer1 credential bearer2,
    Ghl.sent st' = Ghl.sent st ++ requests
    /\ requests `prefix_of`
         [Ghl.Send bearer1 method url (if truthy data then Some data else None);
          Ghl.PostToken "refresh_token" credential;
          Ghl.Send bearer2 method url (if truthy data then Some data else None)]
    /\ (requests = [] -> exists e, r = Err e).
Proof.
  unfold Ghl.apiCall. rewrite Io_bind_unfold, inStore_unfold.
  destruct (Store.getTokens host locationId (Ghl.store st)) as [[tokens|e] store1];
    cbn [fst snd].
  2:{ intros [= <- <-]. exists [], EmptyString, JNull, EmptyString.
      rewrite app_nil_r. split; [done|]. split; [apply prefix_nil|by eexists]. }
  destruct (truthy tokens); cbn [negb].
  2:{ intros [= <- <-]. exists [], EmptyString, JNull, EmptyString.
      rewrite app_nil_r. split; [done|]. split; [apply prefix_nil|by eexists]. }
  unfold Ghl.sendWithRefresh. unfold Ghl.axios at 1. cbn [Ghl.sent Ghl.store].
  set (body := if truthy data then Some data else None).
  set (first := Ghl.Send _ method url body).
  assert (forall credential bearer2,
            [first] `prefix_of` [first; Ghl.PostToken "refresh_token" credential;
                                 Ghl.Send bearer2 method url body]) as Hone
    by (intros; by eexists [_; _]).
  destruct (http _ first) as [response|err].
  { intros [= <- <-]. exists [first], (Ghl.bearer host (get tokens "access_token")),
      JNull, EmptyString. split; [done|]. split; [apply Hone|done]. }
  case_bool_decide as H401.
  2:{ intros [= <- <-]. exists [first], (Ghl.bearer host (get tokens "access_token")),
        JNull, EmptyString. split; [done|]. split; [apply Hone|done]. }
  rewrite Io_bind_unfold.
  destruct (Ghl.refreshAccessToken host http now locationId _) as [r1 st1] eqn:Hrefresh.
  apply refreshAccessToken_sends in Hrefresh as [[Hsent [e ->]]|[credential Hsent]];
    cbn [Ghl.sent] in Hsent.
  - intros [= <- <-]. exists [first], (Ghl.bearer host (get tokens "access_token")),
      JNull, EmptyString. split; [done|]. split; [apply Hone|done].
  - destruct r1 as [newToken|e].
    + unfold Ghl.axios. intros [= <- <-]. cbn [Ghl.sent]. rewrite Hsent.
      exists [first; Ghl.PostToken "refresh_token" credential;
              Ghl.Send (Ghl.bearer host newToken) method url body],
        (Ghl.bearer host (get tokens "access_token")), credential,
        (Ghl.bearer host newToken).
      split; [by rewrite <- !app_assoc|]. split; [done|done].
    + intros [= <- <-]. rewrite Hsent.
      exists [first; Ghl.PostToken "refresh_token" credential],
        (Ghl.bearer host (get tokens "access_token")), credential, EmptyString.
      split; [by rewrite <- !app_assoc|]. split; [by eexists [_]|done].
Qed.

(** X23. An installation: [exchangeCodeForTokens] posts the code once
    and, when it is fulfilled, returns the response and has stored it
    under the location id the response carries, where [getTokens] finds
    it. *)
Theorem exchanged_tokens_are_stored (code : JsVal) (st : Ghl.State) (data : JsVal)
    (st' : Ghl.State) :
  Ghl.exchangeCodeForTokens host http now code st = (Ok data, st') ->
  http (length (Ghl.sent st)) (Ghl.PostToken "authorization_code" code) = Ok data
  /\ Ghl.sent st' = Ghl.sent st ++ [Ghl.PostToken "authorization_code" code]
  /\ exists store',
       Store.getTokens host (get data "locationId") (Ghl.store st')
       = (Ok (storedTokens now data), store').
Proof.
  unfold Ghl.exchangeCodeForTokens. rewrite Io_bind_unfold.
  unfold Ghl.axios at 1.
  destruct (http _ _) as [response|e]; [|done].
  rewrite Io_bind_unfold. unfold io, prop.
  destruct (nullish response); [done|].
  rewrite Io_bind_unfold, inStore_unfold. cbn [Ghl.sent Ghl.store].
  destruct (Store.saveTokens host now _ response (Ghl.store st)) as [[[]|e] store1] eqn:Hsave;
    cbn [fst snd]; [|done].
  intros [= <- <-]. split; [done|]. split; [done|]. cbn [Ghl.store].
  by eapply saveTokens_getTokens.
Qed.

End ClientFacts.

Section SavedTokenFacts.

Variable host : Host.
Variable http : Ghl.Http.
Variable now : string.

(** X26. The token that is saved is the one the next call presents:
    after [saveTokens] has been fulfilled for a location with token data
    whose [access_token] is a string, as at an installation or after a
    refresh, the first request of the next [apiCall] for that location
    carries this access token as its bearer. *)
Theorem saved_token_is_the_next_bearer (saved : string) (locationId tokenData : JsVal)
    (token : string) (store0 store1 : Store.State) (requests : list Ghl.HttpRequest)
    (method url : string) (data : JsVal) (r : Result JsVal) (st' : Ghl.State) :
  Store.saveTokens host saved locationId tokenData store0 = (Ok tt, store1) ->
  get tokenData "access_token" = JStr token ->
  Ghl.apiCall host http now locationId method url data
    {| Ghl.sent := requests; Ghl.store := store1 |} = (r, st') ->
  exists rest,
    Ghl.sent st'
    = requests
      ++ Ghl.Send (Ghl.bearer host (JStr token)) method url
           (if truthy data then Some data else None) :: rest.
Proof.
  intros Hsaved Htoken.
  destruct (saveTokens_getTokens _ _ _ _ _ _ Hsaved) as [store2 Hget].
  unfold Ghl.apiCall. rewrite Io_bind_unfold, inStore_unfold. cbn [Ghl.sent Ghl.store].
  rewrite Hget. cbn [fst snd]. rewrite storedTokens_truthy. cbn [negb].
  rewrite (storedTokens_field saved tokenData "access_token" token) by done.
  unfold Ghl.sendWithRefresh. unfold Ghl.axios at 1. cbn [Ghl.sent Ghl.store].
  set (first := Ghl.Send _ method url _).
  destruct (http _ first) as [response|err]; [intros [= <- <-]; by exists []|].
  case_bool_decide; [|intros [= <- <-]; by exists []].
  rewrite Io_bind_unfold.
  destruct (Ghl.refreshAccessToken host http now locationId _) as [r1 st1] eqn:Hrefresh.
  apply refreshAccessToken_sends in Hrefresh as [[Hsent _]|[credential Hsent]];
    cbn [Ghl.sent] in Hsent.
  - destruct r1; [unfold Ghl.axios|]; intros [= <- <-]; cbn [Ghl.sent]; rewrite Hsent.
    + eexists [_]. by rewrite <- app_assoc.
    + by exists [].
  - destruct r1; [unfold Ghl.axios|]; intros [= <- <-]; cbn [Ghl.sent]; rewrite Hsent.
    + eexists [_; _]. by rewrite <- !app_assoc.
    + eexists [_]. by rewrite <- !app_assoc.
Qed.

End SavedTokenFacts.

(** ** The date-range route *)

Lemma Math_extreme_invalid pick (numbers : list (option Z)) :
  None ∈ numbers -> Math_extreme pick numbers = None.
Proof.
  destruct numbers as [|first rest]; [done|]. cbn [Math_extreme].
  assert (forall l, fold_left (fun acc d => match acc, d with
                                            | Some x, Some y => Some (pick x y)
                                            | _, _ => None
                                            end) l None = None) as Hnone.
  { induction l as [|d l IH]; [done|]. exact IH. }
  revert first. induction rest as [|d rest IH]; intros first Hin.
  - apply list_elem_of_singleton in Hin as <-. done.
  - cbn [fold_left]. apply elem_of_cons in Hin as [<-|Hin]; [apply Hnone|].
    destruct first as [x|]; [|apply Hnone]. destruct d as [y|]; [|apply Hnone].
    apply IH. apply elem_of_cons in Hin as [Hin|Hin]; [done|by right].
Qed.

Lemma fold_extreme (pick : Z -> Z -> Z) (le : relation Z) (rest : list (option Z)) (x : Z) :
  (forall a b, pick a b = a \/ pick a b = b) ->
  (forall a b, le (pick a b) a /\ le (pick a b) b) ->
  Reflexive le -> Transitive le ->
  Forall is_Some rest ->
  exists m,
    fold_left (fun acc d => match acc, d with
                            | Some x, Some y => Some (pick x y)
                            | _, _ => None
                            end) rest (Some x) = Some m
    /\ Some m ∈ Some x :: rest
    /\ forall t, Some t ∈ Some x :: rest -> le m t.
Proof.
  intros Hpick Hle Hrefl Htrans. revert x.
  induction rest as [|d rest IH]; intros x Hvalid.
  - exists x. split; [done|]. split; [by left|].
    intros t [= <-]%list_elem_of_singleton. done.
  - inversion Hvalid as [|?? [y ->] Hrest]; subst. cbn [fold_left].
    destruct (IH (pick x y) Hrest) as (m & Hm & Hin & Hall).
    exists m. split; [done|]. split.
    + apply elem_of_cons in Hin as [[= ->]|Hin].
      * destruct (Hpick x y) as [->| ->]; [by left|by right; left].
      * by right; right.
    + intros t Ht. destruct (Hle x y) as [Hx Hy].
      apply elem_of_cons in Ht as [[= <-]|Ht].
      { etrans; [|exact Hx]. apply Hall. by left. }
      apply elem_of_cons in Ht as [[= <-]|Ht].
      { etrans; [|exact Hy]. apply Hall. by left. }
      apply Hall. by right.
Qed.

Section DateRangeFacts.

Variable host : Host.
Variable upstream : Upstream.
Variable toISOString : Z -> string.

Lemma dateRangeRoute_dated fuel locationId contactId w convos w' dates :
  truthy locationId = true ->
  fetchAllConversations upstream fuel locationId contactId false w = (Ret convos, w') ->
  collectDates host [] convos = Ok dates ->
  dates <> [] ->
  dateRangeRoute host upstream toISOString fuel locationId contactId w
  = match isoDay toISOString (Math_extreme Z.min dates),
          isoDay toISOString (Math_extreme Z.max dates) with
    | Ok startDate, Ok endDate => (Ret (Range (JStr startDate) (JStr endDate)), w')
    | _, _ => (Ret RangeFailed, w')
    end.
Proof.
  intros Hloc Hfetch Hdates Hsome. unfold dateRangeRoute, tryCatch.
  rewrite Hloc. cbn [negb]. rewrite bind_unfold, Hfetch.
  destruct convos as [|c convos]; [by destruct Hsome; injection Hdates|].
  cbn [length Nat.eqb]. rewrite bind_unfold, Hdates, liftR_Ok.
  destruct dates as [|d dates]; [done|]. cbn [length Nat.eqb].
  rewrite bind_unfold.
  destruct (isoDay toISOString (Math_extreme Z.min (d :: dates))) as [lo|]; [|done].
  rewrite liftR_Ok, bind_unfold.
  by destruct (isoDay toISOString (Math_extreme Z.max (d :: dates))) as [hi|].
Qed.

(** X24. When every date found on the conversations of the contact is
    valid, the route answers with the days of the earliest and of the
    latest of them: both are dates of a conversation, and every date
    found lies between them. *)
Theorem date_range_spans_all_dates fuel locationId contactId w convos w' dates :
  truthy locationId = true ->
  fetchAllConversations upstream fuel locationId contactId false w = (Ret convos, w') ->
  collectDates host [] convos = Ok dates ->
  dates <> [] ->
  Forall is_Some dates ->
  exists earliest latest,
    dateRangeRoute host upstream toISOString fuel locationId contactId w
    = (Ret (Range (JStr (beforeT (toISOString earliest)))
                  (JStr (beforeT (toISOString latest)))), w')
    /\ Some earliest ∈ dates /\ Some latest ∈ dates
    /\ forall t, Some t ∈ dates -> earliest <= t <= latest.
Proof.
  intros Hloc Hfetch Hdates Hsome Hvalid.
  rewrite (dateRangeRoute_dated _ _ _ _ _ _ _ Hloc Hfetch Hdates Hsome).
  destruct dates as [|d dates]; [done|].
  inversion Hvalid as [|?? [x ->] Hrest]; subst. cbn [Math_extreme].
  destruct (fold_extreme Z.min Z.le dates x) as (lo & -> & Hlo & Hmin).
  { intros a b. lia. } { intros a b. lia. } { intros a. lia. } { intros a b c. lia. }
  { done. }
  destruct (fold_extreme Z.max Z.ge dates x) as (hi & -> & Hhi & Hmax).
  { intros a b. lia. } { intros a b. lia. } { intros a. lia. } { intros a b c. lia. }
  { done. }
  exists lo, hi. cbn [isoDay]. split; [done|]. split; [done|]. split; [done|].
  intros t Ht. specialize (Hmin t Ht). specialize (Hmax t Ht). lia.
Qed.

(** X25. One date that does not parse, on any conversation, and the
    route answers 500: the minimum and the maximum are then NaN and
    [toISOString] throws. *)
Theorem date_range_fails_on_invalid_date fuel locationId contactId w convos w' dates :
  truthy locationId = true ->
  fetchAllConversations upstream fuel locationId contactId false w = (Ret convos, w') ->
  collectDates host [] convos = Ok dates ->
  None ∈ dates ->
  dateRangeRoute host upstream toISOString fuel locationId contactId w
  = (Ret RangeFailed, w').
Proof.
  intros Hloc Hfetch Hdates Hbad.
  rewrite (dateRangeRoute_dated _ _ _ _ _ _ _ Hloc Hfetch Hdates).
  - by rewrite (Math_extreme_invalid _ _ Hbad).
  - intros ->. by apply elem_of_nil in Hbad.
Qed.

End DateRangeFacts.

(** ** Examples *)

Lemma demo_lookups_counted :
  calls demoWorld = (calls demoFetchedWorld + 2)%nat
  /\ exists transcribed,
       demoHistory = Array_sort (byDateAdded demoHost) transcribed
       /\ transcribed !! 0%nat = Some demoSms
       /\ transcribed !! 1%nat
          = Some (withTranscription (demoCall "m2" "outbound")
                    (transcriptionIn
                       (demoUpstream (calls demoFetchedWorld)
                          (ReqRecording (JStr "loc") (JStr "m2")))))
       /\ transcribed !! 2%nat
          = Some (withTranscription (demoCall "m3" "inbound")
                    (transcriptionIn
                       (demoUpstream (calls demoFetchedWorld + 1)%nat
                          (ReqRecording (JStr "loc") (JStr "m3"))))).
Proof.
  destruct (one_lookup_per_completed_call demoHost demoUpstream 5 (JStr "loc")
              (JStr "contact") startWorld demoFetched demoFetchedWorld demoHistory demoWorld)
    as (Hcalls & _ & _ & transcribed & Hsorted & _ & Hlookups);
    [vm_compute; reflexivity..|].
  split; [exact Hcalls|]. exists transcribed. split; [exact Hsorted|].
  split; [exact (Hlookups 0%nat demoSms eq_refl)|].
  split.
  - exact (proj2 (Hlookups 1%nat (demoCall "m2" "outbound") eq_refl)).
  - exact (proj2 (Hlookups 2%nat (demoCall "m3" "inbound") eq_refl)).
Defined.

Lemma empty_upstream_empty_history :
  exists w',
    fetchContactHistory demoHost emptyUpstream 1 (JStr "loc") (JStr "contact") true
      startWorld = (Ret [], w')
    /\ calls w' = S (calls startWorld).
Proof.
  apply (no_conversations_empty_history demoHost emptyUpstream 0 (JStr "loc")
           (JStr "contact") true startWorld (obj [("conversations", JArr [])])).
  - reflexivity.
  - reflexivity.
  - intros items H. vm_compute in H. by injection H as <-.
Defined.

Lemma demo_export_is_served :
  exists document file,
    status demoExport.1.2 = Complete
    /\ demoExport.2 !! ("exports" +:+ "/" +:+ file) = Some document
    /\ download {| jobs := <[job_id demoJob := demoExport.1.2]> ∅; disk := demoExport.2;
                   trace := [] |} (job_id demoJob)
       = Download document (Some file).
Proof.
  assert (runExport demoHost demoUpstream 5 "exports" demoJob demoContact noRange ∅
          = (Ret tt, demoExport.1.2, demoExport.2)) as Hrun by (vm_compute; reflexivity).
  pose proof (export_then_download demoHost demoUpstream 5 "exports" demoJob demoContact
                noRange ∅ demoExport.1.2 demoExport.2 ∅ [] Hrun) as Hserved.
  destruct Hserved
    as (messages & w & out & document & file & _ & _ & _ & Hs & _ & Hf & _ & Hd).
  exists document, file. split; [exact Hs|]. split; [exact Hf|exact Hd].
Defined.


Lemma down_upstream_fails_job :
  fetchContactHistory demoHost downUpstream 1 (locationId demoJob) (contactId demoJob) true
    {| calls := 0; progress := job_progress demoJob |}
  = (Throw serverError, {| calls := 1; progress := job_progress demoJob |})
  /\ runExport demoHost downUpstream 1 "exports" demoJob demoContact noRange ∅
     = (Throw serverError, failed demoJob (job_progress demoJob) serverError, ∅).
Proof.
  apply (conversations_error_fails_job demoHost downUpstream 0 "exports" demoJob
           demoContact noRange ∅ serverError).
  reflexivity.
Defined.

Lemma stale_sweep_keeps_other_files :
  disk busyServer !! "exports/old.pdf" = Some newDocument
  /\ disk (cleanupJobs 3601001 busyServer) !! "exports/old.pdf" = None
  /\ disk (cleanupJobs 3601001 busyServer) !! "exports/new.pdf" = Some demoCover.
Proof.
  split; [reflexivity|]. split; [vm_compute; reflexivity|].
  rewrite (sweep_keeps_other_files 3601001 busyServer "exports/new.pdf").
  - reflexivity.
  - intros id job Hjob Hexpired. unfold busyServer, staleServer in Hjob.
    cbn [jobs] in Hjob.
    apply lookup_insert_Some in Hjob as [[_ <-]|[_ Hjob]].
    + unfold expired, JOB_TTL_MS in Hexpired. simpl in Hexpired. lia.
    + apply lookup_singleton_Some in Hjob as [_ <-]. done.
Defined.

Lemma new_job_lifetime :
  getStatus (createJob "new" 1000 (JStr "contact") (JStr "loc") ∅).2 "new"
  = StatusOf "new" Processing PStarting None None
  /\ jobs (cleanupJobs 3601000
             {| jobs := (createJob "new" 1000 (JStr "contact") (JStr "loc") ∅).2;
                disk := ∅; trace := [] |}) !! "new"
     = Some (createJob "new" 1000 (JStr "contact") (JStr "loc") ∅).1.
Proof.
  pose proof (job_lifetime "new" 1000 (JStr "contact") (JStr "loc") ∅ ∅ [] 3601000)
    as (Hstatus & Hkept & _).
  split; [exact Hstatus|]. apply Hkept. vm_compute. discriminate.
Defined.

Lemma january15_at_utc :
  dateFilter demoHost january15 demoHistory
  = Ok (filter (fun m => onDays demoHost 19737 19737 m = true) demoHistory).
Proof.
  apply (date_range_selects_local_days demoHost january15 demoHistory 19737 19737).
  - simpl. unfold msPerDay. lia.
  - reflexivity.
  - reflexivity.
  - reflexivity.
  - reflexivity.
  - lia.
  - lia.
  - repeat constructor.
Defined.

(** Five hours behind UTC, the range of January 15 drops the message of
    noon UTC of January 15 and retains that of noon UTC of January 14. *)
Lemma january15_missed_behind_utc :
  exists out,
    dateFilter westHost january15 [noonSms 19737; noonSms 19736] = Ok out
    /\ (noonSms 19737 ∉ out)
    /\ (noonSms 19736 ∈ out).
Proof.
  destruct (date_filter_misses_the_day_behind_utc westHost january15
              [noonSms 19737; noonSms 19736] 19737 19737)
    as (out & Hout & Hdrop & Hkeep).
  - simpl. unfold msPerDay. lia.
  - reflexivity.
  - reflexivity.
  - reflexivity.
  - reflexivity.
  - lia.
  - lia.
  - lia.
  - repeat constructor.
  - exists out. split; [exact Hout|]. split.
    + apply (Hdrop _ (19737 * msPerDay + 43200000)); [by left|reflexivity..].
    + apply (Hkeep _ (19736 * msPerDay + 43200000));
        [by right; left|reflexivity..].
Defined.

Lemma january15_behind_utc :
  dateFilter westHost january15 (lateSms :: demoHistory)
  = Ok (filter (fun m => onDays westHost 19736 19736 m = true) (lateSms :: demoHistory)).
Proof.
  apply (date_range_one_day_early_behind_utc westHost january15 (lateSms :: demoHistory)
           19737 19737).
  - simpl. unfold msPerDay. lia.
  - reflexivity.
  - reflexivity.
  - reflexivity.
  - reflexivity.
  - lia.
  - lia.
  - repeat constructor.
Defined.

Lemma not_a_date_retains_nothing : dateFilter demoHost notADate demoHistory = Ok [].
Proof.
  apply (invalid_bound_retains_nothing demoHost notADate demoHistory).
  - left. split; reflexivity.
  - repeat constructor.
Defined.

Lemma demo_channels :
  NoDup (channels demoStats)
  /\ forall label, label ∈ channels demoStats
       <-> exists m, m ∈ demoHistory /\ messageTypeLabel m = Ok label.
Proof.
  apply (stats_channels_are_the_labels demoHost demoHistory demoStats).
  vm_compute. reflexivity.
Defined.

Lemma demo_cover_is_kept :
  exists cover,
    renderCoverPage demoHost newDocument demoContact [demoSms] = Ok cover
    /\ take (length (buffer cover)) (buffer demoDocument) = buffer cover
    /\ (length (buffer cover) <= length (buffer demoDocument))%nat.
Proof.
  apply (cover_is_never_drawn_over demoHost demoContact [demoSms] demoDocument).
  vm_compute. reflexivity.
Defined.

Lemma room_for_a_short_message :
  let d := moveTo newDocument MARGIN 700 in
  let d' := checkPageBreak d (estimatedHeight (JStr "See you tomorrow")) in
  (82 <= 96 <= 200)%Q
  /\ (docY d' + 96 <= PAGE_HEIGHT - MARGIN - 30)%Q
  /\ (d' = d \/ d' = addPage d /\ (PAGE_HEIGHT - MARGIN - 30 < docY d + 96)%Q).
Proof.
  apply (page_break_leaves_room (moveTo newDocument MARGIN 700) (JStr "See you tomorrow") 96).
  reflexivity.
Defined.

Lemma demo_tokens_round_trip :
  exists store' tokens,
    Store.getTokens demoHost (JStr "loc")
      (Store.saveTokens demoHost demoNow (JStr "loc") freshTokens demoStore).2
    = (Ok tokens, store')
    /\ tokens = storedTokens demoNow freshTokens
    /\ truthy tokens = true
    /\ get tokens "updatedAt" = JStr demoNow
    /\ forall k s, k <> "updatedAt" -> get freshTokens k = JStr s -> get tokens k = JStr s.
Proof.
  apply (saved_tokens_are_read_back demoHost demoNow (JStr "loc") freshTokens demoStore).
  vm_compute. reflexivity.
Defined.

Lemma database_store_saves_on_read_only_disk :
  exists st' db',
    Store.saveTokens demoHost demoNow (JStr "loc") freshTokens databaseStore = (Ok tt, st')
    /\ Store.pool st' = Some db'
    /\ Store.rows db' !! Store.key demoHost (JStr "loc")
       = Some (storedTokens demoNow freshTokens).
Proof.
  destruct (file_errors_matter_only_without_database demoHost demoNow (JStr "loc")
              freshTokens databaseStore) as [Hdb _].
  apply (Hdb {| Store.rows := ∅; Store.failure := None |}); reflexivity.
Defined.

Lemma fresh_client_first_attempt :
  Ghl.apiCall demoHost demoHttp demoNow (JStr "loc") "GET" "/contacts/" JNull freshClient
  = (Ok (obj [("contacts", JArr [])]),
     {| Ghl.sent := [Ghl.Send "Bearer new" "GET" "/contacts/" None];
        Ghl.store := Ghl.store freshClient |}).
Proof.
  apply (apiCall_first_attempt demoHost demoHttp demoNow (JStr "loc") "GET" "/contacts/"
           JNull freshClient freshTokens (Ghl.store freshClient)).
  - vm_compute. reflexivity.
  - reflexivity.
  - intros err Herr. vm_compute in Herr. discriminate Herr.
Defined.

Lemma demo_client_refreshes :
  Ghl.apiCall demoHost demoHttp demoNow (JStr "loc") "GET" "/contacts/" JNull demoClient
  = (Ok (obj [("contacts", JArr [])]),
     {| Ghl.sent := [Ghl.Send "Bearer old" "GET" "/contacts/" None;
                     Ghl.PostToken "refresh_token" (JStr "r1");
                     Ghl.Send "Bearer new" "GET" "/contacts/" None];
        Ghl.store := (Store.saveTokens demoHost demoNow (JStr "loc")
                        (spreadBoth demoTokens freshTokens) demoStore).2 |}).
Proof.
  apply (apiCall_refreshes_once_on_401 demoHost demoHttp demoNow (JStr "loc") "GET"
           "/contacts/" JNull demoClient demoTokens demoStore
           (Store.saveTokens demoHost demoNow (JStr "loc")
              (spreadBoth demoTokens freshTokens) demoStore).2
           unauthorized freshTokens).
  - vm_compute. reflexivity.
  - reflexivity.
  - reflexivity.
  - reflexivity.
  - reflexivity.
  - reflexivity.
  - vm_compute. reflexivity.
Defined.

Lemma unknown_location_sends_nothing :
  Ghl.apiCall demoHost demoHttp demoNow (JStr "elsewhere") "GET" "/contacts/" JNull
    demoClient
  = (Err (Error ("No tokens for location " +:+ ToString demoHost (JStr "elsewhere"))),
     {| Ghl.sent := Ghl.sent demoClient; Ghl.store := demoStore |}).
Proof.
  apply (apiCall_without_tokens demoHost demoHttp demoNow (JStr "elsewhere") "GET"
           "/contacts/" JNull demoClient JNull demoStore).
  - vm_compute. reflexivity.
  - reflexivity.
Defined.

Lemma demo_client_sends_three :
  exists requests bearer1 credential bearer2,
    Ghl.sent (Ghl.apiCall demoHost demoHttp demoNow (JStr "loc") "GET" "/contacts/" JNull
                demoClient).2
    = Ghl.sent demoClient ++ requests
    /\ requests `prefix_of`
         [Ghl.Send bearer1 "GET" "/contacts/" (if truthy JNull then Some JNull else None);
          Ghl.PostToken "refresh_token" credential;
          Ghl.Send bearer2 "GET" "/contacts/" (if truthy JNull then Some JNull else None)]
    /\ (requests = [] ->
        exists e, (Ghl.apiCall demoHost demoHttp demoNow (JStr "loc") "GET" "/contacts/"
                     JNull demoClient).1 = Err e).
Proof.
  apply (apiCall_sends_at_most_three demoHost demoHttp demoNow (JStr "loc") "GET"
           "/contacts/" JNull demoClient).
  vm_compute. reflexivity.
Defined.

Lemma demo_installation :
  demoHttp (length (Ghl.sent demoClient)) (Ghl.PostToken "authorization_code" (JStr "code"))
  = Ok freshTokens
  /\ Ghl.sent (Ghl.exchangeCodeForTokens demoHost demoHttp demoNow (JStr "code") demoClient).2
     = Ghl.sent demoClient ++ [Ghl.PostToken "authorization_code" (JStr "code")]
  /\ exists store',
       Store.getTokens demoHost (get freshTokens "locationId")
         (Ghl.store (Ghl.exchangeCodeForTokens demoHost demoHttp demoNow (JStr "code")
                       demoClient).2)
       = (Ok (storedTokens demoNow freshTokens), store').
Proof.
  apply (exchanged_tokens_are_stored demoHost demoHttp demoNow (JStr "code") demoClient
           freshTokens).
  vm_compute. reflexivity.
Defined.

Lemma dated_conversation_range :
  exists earliest latest,
    dateRangeRoute demoHost (datedUpstream (JNum (19737 * msPerDay))) demoISO 5
      (JStr "loc") (JStr "contact") startWorld
    = (Ret (Range (JStr (beforeT (demoISO earliest))) (JStr (beforeT (demoISO latest)))),
       {| calls := 2; progress := PStarting |})
    /\ Some earliest ∈ [Some (19737 * msPerDay); Some (19740 * msPerDay)]
    /\ Some latest ∈ [Some (19737 * msPerDay); Some (19740 * msPerDay)]
    /\ forall t, Some t ∈ [Some (19737 * msPerDay); Some (19740 * msPerDay)] ->
         earliest <= t <= latest.
Proof.
  apply (date_range_spans_all_dates demoHost (datedUpstream (JNum (19737 * msPerDay)))
           demoISO 5 (JStr "loc") (JStr "contact") startWorld
           [datedConversation (JNum (19737 * msPerDay))]).
  - reflexivity.
  - vm_compute. reflexivity.
  - vm_compute. reflexivity.
  - discriminate.
  - repeat constructor; by eexists.
Defined.

Lemma undated_conversation_fails :
  dateRangeRoute demoHost (datedUpstream (JStr "last week")) demoISO 5
    (JStr "loc") (JStr "contact") startWorld
  = (Ret RangeFailed, {| calls := 2; progress := PStarting |}).
Proof.
  apply (date_range_fails_on_invalid_date demoHost (datedUpstream (JStr "last week"))
           demoISO 5 (JStr "loc") (JStr "contact") startWorld
           [datedConversation (JStr "last week")] {| calls := 2; progress := PStarting |}
           [None; Some (19740 * msPerDay)]).
  - reflexivity.
  - vm_compute. reflexivity.
  - vm_compute. reflexivity.
  - by left.
Defined.

Lemma refreshed_token_is_the_next_bearer :
  exists rest,
    Ghl.sent (Ghl.apiCall demoHost demoHttp demoNow (JStr "loc") "GET" "/contacts/" JNull
                {| Ghl.sent := [];
                   Ghl.store := (Store.saveTokens demoHost demoNow (JStr "loc")
                                   (spreadBoth demoTokens freshTokens) demoStore).2 |}).2
    = [] ++ Ghl.Send (Ghl.bearer demoHost (JStr "new")) "GET" "/contacts/"
              (if truthy JNull then Some JNull else None) :: rest.
Proof.
  apply (saved_token_is_the_next_bearer demoHost demoHttp demoNow demoNow (JStr "loc")
           (spreadBoth demoTokens freshTokens) "new" demoStore
           (Store.saveTokens demoHost demoNow (JStr "loc")
              (spreadBoth demoTokens freshTokens) demoStore).2
           [] "GET" "/contacts/" JNull
           (Ghl.apiCall demoHost demoHttp demoNow (JStr "loc") "GET" "/contacts/" JNull
              {| Ghl.sent := [];
                 Ghl.store := (Store.saveTokens demoHost demoNow (JStr "loc")
                                 (spreadBoth demoTokens freshTokens) demoStore).2 |}).1).
  - vm_compute. reflexivity.
  - reflexivity.
  - vm_compute. reflexivity.
Defined.
